(** * CodeVisualizer: the dependency graph engine

    A shallow embedding of [src/core/dependency] (FileTypeClassifier,
    CodebaseAnalyzer, CodebaseMermaidGenerator, CodebaseGraphBuilder) and
    the properties its specification states about it.

    Conventions of the embedding.
    - A JavaScript string is a [string]: a sequence of code units below 256
      (Latin-1).  Case mapping and the regular expression classes [\s] and
      [\w] are the JavaScript ones restricted to that range.
    - A JavaScript [Map] iterates in insertion order, and the renderer
      depends on that order, so a [Map] is an association list kept in
      insertion order ([mset] replaces in place or appends).
    - [null] and [undefined] are [None].
    - Node's [path] module is the POSIX one. *)

From Stdlib Require Import String Ascii List Bool Arith NArith Lia.
Import ListNotations.
Open Scope string_scope.
Open Scope bool_scope.

(* ================================================================== *)
(** ** JavaScript strings *)
(* ================================================================== *)

Definition dquote : string := String "034" "".
Definition squote : string := String "039" "".
Definition newline : string := String "010" "".
Definition backslash : string := String "092" "".

(** [s.startsWith(p)] *)
Definition startsWith (s p : string) : bool := String.prefix p s.

(** [s.includes(sub)] *)
Fixpoint includes (s sub : string) : bool :=
  if String.prefix sub s then true
  else match s with
       | EmptyString => false
       | String _ s' => includes s' sub
       end.

Definition code (c : ascii) : nat := nat_of_ascii c.

Definition between (lo hi n : nat) : bool := Nat.leb lo n && Nat.leb n hi.

(** One code unit of [toLowerCase]: A-Z, and the Latin-1 capitals
    U+00C0..U+00DE without the multiplication sign U+00D7. *)
Definition lowerChar (c : ascii) : ascii :=
  let n := code c in
  if between 65 90 n || between 192 214 n || between 216 222 n
  then ascii_of_nat (n + 32)
  else c.

Definition upperChar (c : ascii) : ascii :=
  let n := code c in
  if between 97 122 n then ascii_of_nat (n - 32) else c.

Fixpoint mapString (f : ascii -> ascii) (s : string) : string :=
  match s with
  | EmptyString => EmptyString
  | String c s' => String (f c) (mapString f s')
  end.

Definition toLowerCase (s : string) : string := mapString lowerChar s.

(** [l.join(sep)] *)
Fixpoint join (sep : string) (l : list string) : string :=
  match l with
  | [] => ""
  | [x] => x
  | x :: rest => x ++ sep ++ join sep rest
  end.

(** [s.split(c)] for a separator of one code unit. *)
Fixpoint splitOn (c : ascii) (s : string) : list string :=
  match s with
  | EmptyString => [""]
  | String a s' =>
      if Ascii.eqb a c then "" :: splitOn c s'
      else match splitOn c s' with
           | [] => [String a ""]
           | w :: ws => String a w :: ws
           end
  end.

Definition nonEmpty (s : string) : bool := negb (s =? "").

(** Truthiness of a value of type [string | undefined]. *)
Definition truthy (o : option string) : bool :=
  match o with
  | Some s => nonEmpty s
  | None => false
  end.

(** A value of type [string | undefined] inside a template literal. *)
Definition interpolate (o : option string) : string :=
  match o with
  | Some s => s
  | None => "undefined"
  end.

(** [s.replace(/c/g, by)] for a one-character pattern given as a class. *)
Fixpoint replaceAll (p : ascii -> bool) (by_ : string) (s : string) : string :=
  match s with
  | EmptyString => EmptyString
  | String a s' =>
      if p a then by_ ++ replaceAll p by_ s'
      else String a (replaceAll p by_ s')
  end.

Definition isChar (c : ascii) : ascii -> bool := fun a => Ascii.eqb a c.

(* ================================================================== *)
(** ** FileTypeClassifier *)
(* ================================================================== *)

Inductive FileCategory := core | report | config | tool | entry.

Inductive EdgeType := normal | processing | special | internal | utility | indirect.

Definition FileCategory_eqb (a b : FileCategory) : bool :=
  match a, b with
  | core, core | report, report | config, config | tool, tool | entry, entry => true
  | _, _ => false
  end.

(** The five conditions of [classifyFile], in the order of the source. *)
Definition entryRule (lowerPath lowerFileName : string) : bool :=
  (lowerFileName =? "index.ts") ||
  (lowerFileName =? "index.js") ||
  (lowerFileName =? "index.tsx") ||
  (lowerFileName =? "index.jsx") ||
  (lowerFileName =? "index.mjs") ||
  (lowerFileName =? "__init__.py") ||
  includes lowerFileName "files-and-dirs" ||
  includes lowerFileName "options" ||
  includes lowerPath "/main/" ||
  includes lowerPath "/entry/".

Definition reportRule (lowerPath lowerFileName : string) : bool :=
  includes lowerPath "/report/" ||
  includes lowerPath "/reports/" ||
  includes lowerPath "/transform/" ||
  includes lowerPath "/transforms/" ||
  includes lowerPath "/graph-" ||
  includes lowerFileName "report" ||
  includes lowerFileName "transform" ||
  includes lowerFileName "consolidate" ||
  includes lowerFileName "match-facade" ||
  includes lowerFileName "gosubsum".

(** The tool condition without its last test. *)
Definition toolRuleHead (lowerPath lowerFileName : string) : bool :=
  includes lowerPath "/bin/" ||
  includes lowerPath "/cache/" ||
  includes lowerPath "/tools/" ||
  includes lowerPath "/tool/" ||
  includes lowerFileName "hotspots" ||
  includes lowerFileName "wrap-stream".

Definition toolRule (lowerPath lowerFileName : string) : bool :=
  toolRuleHead lowerPath lowerFileName ||
  includes lowerFileName "options-compatible".

Definition configRule (lowerPath lowerFileName : string) : bool :=
  includes lowerPath "/validate/" ||
  includes lowerPath "/validators/" ||
  includes lowerPath "/config/" ||
  includes lowerPath "/configs/" ||
  includes lowerPath "/config-" ||
  includes lowerPath "/cli/" ||
  includes lowerPath "/indexers/" ||
  includes lowerPath "/performance/" ||
  includes lowerPath "/utils/" ||
  includes lowerPath "/util/" ||
  includes lowerPath "/helpers/" ||
  includes lowerFileName "validator" ||
  includes lowerFileName "config" ||
  includes lowerFileName "format-helpers" ||
  includes lowerFileName "merge-configs" ||
  includes lowerFileName "match-dependency-rule".

Definition coreRule (lowerPath lowerFileName : string) : bool :=
  includes lowerPath "/enrich/" ||
  includes lowerPath "/extract/" ||
  includes lowerPath "/schema/" ||
  includes lowerPath "/schemas/" ||
  includes lowerPath "/summarize/" ||
  includes lowerPath "/acorn/" ||
  includes lowerPath "/tsc/" ||
  includes lowerPath "/resolve/" ||
  includes lowerPath "/transpile/" ||
  includes lowerFileName "extract" ||
  includes lowerFileName "schema" ||
  includes lowerFileName "enrich" ||
  includes lowerFileName "summarize" ||
  includes lowerFileName "reachable" ||
  includes lowerFileName "derive" ||
  includes lowerFileName "main-result-schema".

Definition classifyFile (relativePath fileName : string) : FileCategory :=
  let lowerPath := toLowerCase relativePath in
  let lowerFileName := toLowerCase fileName in
  if entryRule lowerPath lowerFileName then entry
  else if reportRule lowerPath lowerFileName then report
  else if toolRule lowerPath lowerFileName then tool
  else if configRule lowerPath lowerFileName then config
  else if coreRule lowerPath lowerFileName then core
  else entry.

Definition getNodeStrokeColor (category : FileCategory) : string :=
  match category with
  | core => "#00AA00"
  | report => "#CC00CC"
  | config => "#0066FF"
  | tool => "#FF6600"
  | entry => "#666666"
  end.

Definition classifyEdge (sourceCategory targetCategory : FileCategory)
    (sourcePath targetPath : string) : EdgeType :=
  let lowerSourcePath := toLowerCase sourcePath in
  let lowerTargetPath := toLowerCase targetPath in
  if FileCategory_eqb sourceCategory config ||
     FileCategory_eqb targetCategory config ||
     includes lowerSourcePath "/config/" ||
     includes lowerTargetPath "/config/" ||
     includes lowerSourcePath "/cli/" ||
     includes lowerTargetPath "/cli/"
  then indirect
  else if FileCategory_eqb sourceCategory report && FileCategory_eqb targetCategory report
  then internal
  else if (FileCategory_eqb sourceCategory core && FileCategory_eqb targetCategory core) ||
          includes lowerSourcePath "/extract/" ||
          includes lowerTargetPath "/extract/" ||
          includes lowerSourcePath "/enrich/" ||
          includes lowerTargetPath "/enrich/"
  then processing
  else if FileCategory_eqb sourceCategory tool ||
          FileCategory_eqb targetCategory tool ||
          includes lowerSourcePath "/utils/" ||
          includes lowerTargetPath "/utils/"
  then utility
  else if includes lowerSourcePath "/options/" ||
          includes lowerTargetPath "/resolve/"
  then special
  else normal.

Definition getEdgeColor (edgeType : EdgeType) : string :=
  match edgeType with
  | normal => "#0066CC"
  | processing => "#00AA00"
  | special => "#CC0000"
  | internal => "#8B00FF"
  | utility => "#FF6600"
  | indirect => "#0099CC"
  end.

Inductive EdgeStyle := solid | dashed.

Definition getEdgeStyle (edgeType : EdgeType) : EdgeStyle :=
  match edgeType with
  | indirect => dashed
  | _ => solid
  end.

(* ================================================================== *)
(** ** Regular expressions (the fragment the extractor uses)

    A backtracking matcher in the list-of-successes style: [rmatch r st]
    lists every way [r] can match at [st], in the priority order of the
    JavaScript matcher (left alternative first, greedy repetition first),
    so its head is the match JavaScript reports.  A repetition rejects an
    iteration that consumes nothing.  No flag other than [g] occurs in the
    source, so [^] holds at offset 0 only. *)
(* ================================================================== *)

Inductive regex :=
| Eps
| Chr (c : ascii)
| Cls (p : ascii -> bool)
| Bol
| Seq (r1 r2 : regex)
| Alt (r1 r2 : regex)
| Star (r : regex)
| Group (r : regex).

(** Matcher state: offset, remaining input and the text of group 1. *)
Record mstate := { pos : nat; rest : string; cap : option string }.

Definition advance (st : mstate) (s' : string) : mstate :=
  {| pos := S (pos st); rest := s'; cap := cap st |}.

Fixpoint starLoop (step : mstate -> list mstate) (fuel : nat) (st : mstate)
  : list mstate :=
  match fuel with
  | O => [st]
  | S fuel' =>
      flat_map (fun st' => if Nat.ltb (pos st) (pos st')
                           then starLoop step fuel' st' else [])
               (step st) ++ [st]
  end.

Fixpoint rmatch (r : regex) (st : mstate) : list mstate :=
  match r with
  | Eps => [st]
  | Chr c =>
      match rest st with
      | String a s' => if Ascii.eqb a c then [advance st s'] else []
      | EmptyString => []
      end
  | Cls p =>
      match rest st with
      | String a s' => if p a then [advance st s'] else []
      | EmptyString => []
      end
  | Bol => if Nat.eqb (pos st) 0 then [st] else []
  | Seq r1 r2 => flat_map (rmatch r2) (rmatch r1 st)
  | Alt r1 r2 => rmatch r1 st ++ rmatch r2 st
  | Star r1 => starLoop (rmatch r1) (String.length (rest st)) st
  | Group r1 =>
      map (fun st' => {| pos := pos st'; rest := rest st';
                         cap := Some (substring 0 (pos st' - pos st) (rest st)) |})
          (rmatch r1 st)
  end.

Definition Plus (r : regex) : regex := Seq r (Star r).
Definition Opt (r : regex) : regex := Alt r Eps.

Fixpoint Lit (s : string) : regex :=
  match s with
  | EmptyString => Eps
  | String c s' => Seq (Chr c) (Lit s')
  end.

Fixpoint Seqs (l : list regex) : regex :=
  match l with
  | [] => Eps
  | r :: l' => Seq r (Seqs l')
  end.

(** Leftmost match at or after the current offset. *)
Fixpoint search (r : regex) (p : nat) (s : string) : option mstate :=
  match rmatch r {| pos := p; rest := s; cap := None |} with
  | st :: _ => Some st
  | [] => match s with
          | EmptyString => None
          | String _ s' => search r (S p) s'
          end
  end.

(** [match[1]]; group 1 takes part in every match of the expressions below. *)
Definition group1 (st : mstate) : string :=
  match cap st with
  | Some c => c
  | None => ""
  end.

(** The loop [while ((match = re.exec(content)) !== null)] of a global
    expression, collecting [match[1]].  Every expression of the source
    consumes at least one character per match, so [lastIndex] advances
    and the length of the input bounds the number of rounds. *)
Fixpoint execAll (fuel : nat) (r : regex) (p : nat) (s : string) : list string :=
  match fuel with
  | O => []
  | S fuel' =>
      match search r p s with
      | None => []
      | Some st => group1 st :: execAll fuel' r (pos st) (rest st)
      end
  end.

Definition matchAll (r : regex) (content : string) : list string :=
  execAll (S (String.length content)) r 0 content.

(** [\s], [\w] and bracket classes. *)
Definition isSpace (c : ascii) : bool :=
  let n := code c in between 9 13 n || Nat.eqb n 32 || Nat.eqb n 160.

Definition isWord (c : ascii) : bool :=
  let n := code c in
  between 48 57 n || between 65 90 n || between 97 122 n || Nat.eqb n 95.

Definition oneOf (s : string) : ascii -> bool :=
  fun a => existsb (Ascii.eqb a) (list_ascii_of_string s).

Definition noneOf (s : string) : ascii -> bool :=
  fun a => negb (oneOf s a).

Definition ws : regex := Cls isSpace.
Definition notWs : regex := Cls (fun a => negb (isSpace a)).
Definition word : regex := Cls isWord.
Definition quotes : string := squote ++ dquote.

(** The source's import expression, writing Q for the class of the two
    quote characters and NQ for its complement:
    [/import\s+(?:(?:\*\s+as\s+\w+)|(?:\{[^}]*\})|(?:\w+))\s+from\s+Q(NQ+)Q/g] *)
Definition importRegex : regex :=
  Seqs [Lit "import"; Plus ws;
        Alt (Seqs [Chr "*"; Plus ws; Lit "as"; Plus ws; Plus word])
            (Alt (Seqs [Chr "{"; Star (Cls (noneOf "}")); Chr "}"])
                 (Plus word));
        Plus ws; Lit "from"; Plus ws;
        Cls (oneOf quotes); Group (Plus (Cls (noneOf quotes))); Cls (oneOf quotes)].

(** [/require\s*\(\s*Q(NQ+)Q\s*\)/g] *)
Definition requireRegex : regex :=
  Seqs [Lit "require"; Star ws; Chr "("; Star ws;
        Cls (oneOf quotes); Group (Plus (Cls (noneOf quotes))); Cls (oneOf quotes);
        Star ws; Chr ")"].

(** [/(?:^|\n)\s*(?:import|from)\s+(\S+)/g] *)
Definition pythonImportRegex : regex :=
  Seqs [Alt Bol (Chr "010"); Star ws; Alt (Lit "import") (Lit "from");
        Plus ws; Group (Plus notWs)].

(** [/(?:export\s+)?(?:async\s+)?function\s+(\w+)/g] *)
Definition funcDeclRegex : regex :=
  Seqs [Opt (Seq (Lit "export") (Plus ws)); Opt (Seq (Lit "async") (Plus ws));
        Lit "function"; Plus ws; Group (Plus word)].

(** [/(?:export\s+)?(?:const|let|var)\s+(\w+)\s*[:=]\s*(?:async\s{0,})?\(/g],
    the source writing the last repetition with a star. *)
Definition arrowFuncRegex : regex :=
  Seqs [Opt (Seq (Lit "export") (Plus ws));
        Alt (Lit "const") (Alt (Lit "let") (Lit "var"));
        Plus ws; Group (Plus word); Star ws; Cls (oneOf ":="); Star ws;
        Opt (Seq (Lit "async") (Star ws)); Chr "("].

(** [/(?:public\s+|private\s+|protected\s+)?(\w+)\s*\(/g] *)
Definition methodRegex : regex :=
  Seqs [Opt (Alt (Seq (Lit "public") (Plus ws))
                 (Alt (Seq (Lit "private") (Plus ws))
                      (Seq (Lit "protected") (Plus ws))));
        Group (Plus word); Star ws; Chr "("].

(** [/def\s+(\w+)\s*\(/g] *)
Definition pythonFuncRegex : regex :=
  Seqs [Lit "def"; Plus ws; Group (Plus word); Star ws; Chr "("].

(** [/export\s+(?:function|const|let|class|async\s+function)\s+(\w+)/g] *)
Definition exportRegex : regex :=
  Seqs [Lit "export"; Plus ws;
        Alt (Lit "function")
            (Alt (Lit "const")
                 (Alt (Lit "let")
                      (Alt (Lit "class")
                           (Seqs [Lit "async"; Plus ws; Lit "function"]))));
        Plus ws; Group (Plus word)].

(** [/__all__\s*=\s*\[([^\]]+)\]/] *)
Definition allRegex : regex :=
  Seqs [Lit "__all__"; Star ws; Chr "="; Star ws; Chr "[";
        Group (Plus (Cls (noneOf "]"))); Chr "]"].

(** [s.trim()] *)
Fixpoint trimStart (s : string) : string :=
  match s with
  | EmptyString => EmptyString
  | String a s' => if isSpace a then trimStart s' else s
  end.

Fixpoint trimEnd (s : string) : string :=
  match s with
  | EmptyString => EmptyString
  | String a s' =>
      match trimEnd s' with
      | EmptyString => if isSpace a then EmptyString else String a EmptyString
      | t => String a t
      end
  end.

Definition trim (s : string) : string := trimEnd (trimStart s).

(* ================================================================== *)
(** ** Node's [path] module, POSIX flavour

    Modelled on segments: a path is cut at the separator, the segments
    are normalised on a stack, and the result is joined again. *)
(* ================================================================== *)

Definition sepChar : ascii := "/".
Definition sep : string := "/".

Definition isAbsolute (p : string) : bool := startsWith p "/".

Fixpoint endsWithChar (c : ascii) (s : string) : bool :=
  match s with
  | EmptyString => false
  | String a EmptyString => Ascii.eqb a c
  | String _ s' => endsWithChar c s'
  end.

(** [normalizeString]: the stack is kept reversed. *)
Fixpoint normalizeSegs (allowAboveRoot : bool) (stack segs : list string)
  : list string :=
  match segs with
  | [] => rev stack
  | seg :: more =>
      if (seg =? "") || (seg =? ".") then normalizeSegs allowAboveRoot stack more
      else if seg =? ".." then
        match stack with
        | top :: below =>
            if top =? ".." then
              normalizeSegs allowAboveRoot
                (if allowAboveRoot then ".." :: stack else stack) more
            else normalizeSegs allowAboveRoot below more
        | [] =>
            normalizeSegs allowAboveRoot
              (if allowAboveRoot then [".."] else []) more
        end
      else normalizeSegs allowAboveRoot (seg :: stack) more
  end.

Definition normalizeString (p : string) (allowAboveRoot : bool) : string :=
  join sep (normalizeSegs allowAboveRoot [] (splitOn sepChar p)).

Definition path_normalize (p : string) : string :=
  if p =? "" then "."
  else
    let isAbs := isAbsolute p in
    let trailing := endsWithChar sepChar p in
    let n := normalizeString p (negb isAbs) in
    if n =? "" then
      (if isAbs then "/" else if trailing then "./" else ".")
    else
      let n' := if trailing then n ++ "/" else n in
      if isAbs then "/" ++ n' else n'.

Definition path_join (args : list string) : string :=
  let parts := filter nonEmpty args in
  match parts with
  | [] => "."
  | _ => path_normalize (join sep parts)
  end.

(** The right-to-left loop of [path.resolve]; the last candidate is the
    working directory of the process. *)
Fixpoint resolveLoop (candidates : list string) (resolvedPath : string)
  : string * bool :=
  match candidates with
  | [] => (resolvedPath, false)
  | p :: more =>
      if p =? "" then resolveLoop more resolvedPath
      else
        let r := p ++ "/" ++ resolvedPath in
        if isAbsolute p then (r, true) else resolveLoop more r
  end.

Definition path_resolve (cwd : string) (args : list string) : string :=
  let '(resolvedPath, resolvedAbsolute) := resolveLoop (rev args ++ [cwd]) "" in
  let n := normalizeString resolvedPath (negb resolvedAbsolute) in
  if resolvedAbsolute then "/" ++ n
  else if nonEmpty n then n else ".".

Definition chars (s : string) : list ascii := list_ascii_of_string s.
Definition unchars (l : list ascii) : string := string_of_list_ascii l.

Fixpoint dropWhile {A} (p : A -> bool) (l : list A) : list A :=
  match l with
  | [] => []
  | x :: l' => if p x then dropWhile p l' else l
  end.

Fixpoint takeWhile {A} (p : A -> bool) (l : list A) : list A :=
  match l with
  | [] => []
  | x :: l' => if p x then x :: takeWhile p l' else []
  end.

Definition isSep (a : ascii) : bool := Ascii.eqb a sepChar.
Definition notSep (a : ascii) : bool := negb (isSep a).

(** The last segment, trailing separators ignored: [path.basename(p)]. *)
Definition path_basename (p : string) : string :=
  unchars (rev (takeWhile notSep (dropWhile isSep (rev (chars p))))).

Definition path_dirname (p : string) : string :=
  match p with
  | EmptyString => "."
  | String c0 tail =>
      let hasRoot := isSep c0 in
      match dropWhile notSep (dropWhile isSep (rev (chars tail))) with
      | [] => if hasRoot then "/" else "."
      | _ :: before =>
          match before with
          | [] => if hasRoot then "//" else String c0 EmptyString
          | _ => String c0 (unchars (rev before))
          end
      end
  end.

(** Offset of the last dot of a name, if it has one. *)
Fixpoint lastDot (l : list ascii) (i : nat) (found : option nat) : option nat :=
  match l with
  | [] => found
  | a :: l' => lastDot l' (S i) (if Ascii.eqb a "." then Some i else found)
  end.

Definition path_extname (p : string) : string :=
  let b := path_basename p in
  match lastDot (chars b) 0 None with
  | None => ""
  | Some O => ""
  | Some i =>
      if b =? ".." then ""
      else substring i (String.length b - i) b
  end.

Fixpoint dropCommon (a b : list string) : list string * list string :=
  match a, b with
  | x :: a', y :: b' => if x =? y then dropCommon a' b' else (a, b)
  | _, _ => (a, b)
  end.

Definition segments (p : string) : list string :=
  filter nonEmpty (splitOn sepChar p).

Definition path_relative (cwd : string) (from to : string) : string :=
  if from =? to then ""
  else
    let from' := path_resolve cwd [from] in
    let to' := path_resolve cwd [to] in
    if from' =? to' then ""
    else
      let '(up, down) := dropCommon (segments from') (segments to') in
      join sep (map (fun _ => "..") up ++ down).

(* ================================================================== *)
(** ** The host: file system and process

    A snapshot of what the [fs] calls of the analyzer observe.  [None]
    stands for a call that throws (or a promise that rejects). *)
(* ================================================================== *)

Inductive FileKind := RegularFile | Directory | OtherKind.

Record Dirent := { d_name : string; d_kind : FileKind }.

Record Host := {
  cwd : string;
  stat : string -> option FileKind;
  readdir : string -> option (list Dirent);
  readFile : string -> option string
}.

Definition isFile (k : FileKind) : bool :=
  match k with RegularFile => true | _ => false end.

Definition isDirectory (k : FileKind) : bool :=
  match k with Directory => true | _ => false end.

(** [fs.existsSync(p)] *)
Definition existsSync (h : Host) (p : string) : bool :=
  match stat h p with
  | Some _ => true
  | None => false
  end.

(** [fs.existsSync(p) && fs.statSync(p).isFile()] *)
Definition existsFile (h : Host) (p : string) : bool :=
  existsSync h p &&
  match stat h p with
  | Some k => isFile k
  | None => false
  end.

(** Outcome of an asynchronous method: a value, a rejection (with the
    message of the error), or a model run that was given too small a
    recursion bound. *)
Inductive Run (A : Type) :=
| Done (a : A)
| Raise (error : string)
| Starved.
Arguments Done {A} a.
Arguments Raise {A} error.
Arguments Starved {A}.

Definition bind {A B} (r : Run A) (k : A -> Run B) : Run B :=
  match r with
  | Done a => k a
  | Raise e => Raise e
  | Starved => Starved
  end.

Notation "x <- r ;; k" := (bind r (fun x => k))
  (at level 61, r at next level, right associativity).

(* ================================================================== *)
(** ** JavaScript [Map] and [Set], in insertion order *)
(* ================================================================== *)

Definition JsMap (V : Type) := list (string * V).

Fixpoint mget {V} (k : string) (m : JsMap V) : option V :=
  match m with
  | [] => None
  | (k', v) :: m' => if k' =? k then Some v else mget k m'
  end.

Definition mhas {V} (k : string) (m : JsMap V) : bool :=
  match mget k m with
  | Some _ => true
  | None => false
  end.

(** [m.set(k, v)]: an existing key keeps its place. *)
Fixpoint mset {V} (k : string) (v : V) (m : JsMap V) : JsMap V :=
  match m with
  | [] => [(k, v)]
  | (k', v') :: m' =>
      if k' =? k then (k, v) :: m' else (k', v') :: mset k v m'
  end.

(** In-place mutation of the object stored under [k]. *)
Fixpoint mupdate {V} (k : string) (f : V -> V) (m : JsMap V) : JsMap V :=
  match m with
  | [] => []
  | (k', v) :: m' =>
      if k' =? k then (k', f v) :: m' else (k', v) :: mupdate k f m'
  end.

Definition mkeys {V} (m : JsMap V) : list string := map fst m.
Definition mvalues {V} (m : JsMap V) : list V := map snd m.

Definition memberOf (x : string) (l : list string) : bool :=
  existsb (String.eqb x) l.

(** [set.add(x)] *)
Definition sadd (x : string) (l : list string) : list string :=
  if memberOf x l then l else (l ++ [x])%list.

(** [[...new Set(l)]] *)
Definition dedupe (l : list string) : list string :=
  fold_left (fun acc x => sadd x acc) l [].

(* ================================================================== *)
(** ** CodebaseAnalyzer *)
(* ================================================================== *)

Record CodebaseDependency := {
  module : string;
  resolved : option string;
  dependencyTypes : list string;
  valid : bool
}.

Record CodebaseModule := {
  source : string;
  relativePath : string;
  fileName : string;
  languageId : string;
  fileCategory : FileCategory;
  dependencies : list CodebaseDependency;
  dependents : list string;
  functions : list string;
  exports : list string
}.

Definition ModuleMap := JsMap CodebaseModule.

Definition supportedExtensions : list string :=
  [".js"; ".jsx"; ".ts"; ".tsx"; ".mjs"; ".cjs";
   ".py"; ".java"; ".cpp"; ".c"; ".h"; ".hpp";
   ".rs"; ".go"].

Definition langMap : JsMap string :=
  [(".js", "javascript"); (".jsx", "javascript"); (".mjs", "javascript");
   (".cjs", "javascript"); (".ts", "typescript"); (".tsx", "typescript");
   (".py", "python"); (".java", "java"); (".cpp", "cpp"); (".cxx", "cpp");
   (".cc", "cpp"); (".c", "c"); (".h", "c"); (".hpp", "cpp");
   (".rs", "rust"); (".go", "go")].

Definition getLanguageId (ext : string) : string :=
  match mget ext langMap with
  | Some l => l
  | None => "unknown"
  end.

(** *** Resolution.  Each resolver returns its result together with the
    paths it handed to [fs.existsSync], in the order of the calls. *)

Definition extensions : list string :=
  [""; ".js"; ".ts"; ".jsx"; ".tsx"; ".mjs"; ".cjs"].

Definition indexExtensions : list string :=
  ["index.js"; "index.ts"; "index.jsx"; "index.tsx"].

(** [for (const ext of extensions)] *)
Fixpoint tryExtensions (h : Host) (resolvedBase : string) (exts : list string)
  : option string * list string :=
  match exts with
  | [] => (None, [])
  | ext :: more =>
      let withExt := resolvedBase ++ ext in
      if existsFile h withExt then (Some withExt, [withExt])
      else let '(r, probes) := tryExtensions h resolvedBase more in
           (r, withExt :: probes)
  end.

(** [for (const indexExt of indexExtensions)] *)
Fixpoint tryIndexFiles (h : Host) (resolvedBase : string) (names : list string)
  : option string * list string :=
  match names with
  | [] => (None, [])
  | indexExt :: more =>
      let indexPath := path_join [resolvedBase; indexExt] in
      if existsSync h indexPath then (Some indexPath, [indexPath])
      else let '(r, probes) := tryIndexFiles h resolvedBase more in
           (r, indexPath :: probes)
  end.

(** The path the candidates are built on. *)
Definition moduleBase (h : Host) (workspaceRoot modulePath fromFile : string)
  : string :=
  let fromDir := path_dirname fromFile in
  if startsWith modulePath "/" then path_join [workspaceRoot; modulePath]
  else path_resolve (cwd h) [fromDir; modulePath].

Definition resolveModulePathTraced (h : Host) (workspaceRoot modulePath fromFile : string)
  : option string * list string :=
  if negb (startsWith modulePath ".") && negb (startsWith modulePath "/")
  then (None, [])
  else
    let resolvedBase := moduleBase h workspaceRoot modulePath fromFile in
    match tryExtensions h resolvedBase extensions with
    | (Some withExt, probes) => (Some withExt, probes)
    | (None, probes) =>
        let '(r, probes') := tryIndexFiles h resolvedBase indexExtensions in
        (r, (probes ++ probes')%list)
    end.

Definition resolveModulePath (h : Host) (workspaceRoot modulePath fromFile : string)
  : option string :=
  fst (resolveModulePathTraced h workspaceRoot modulePath fromFile).

(** [modulePath.replace(/\./g, path.sep)] *)
Definition dotsToSep (modulePath : string) : string :=
  replaceAll (isChar ".") sep modulePath.

Definition pythonBase (h : Host) (workspaceRoot modulePath fromFile : string)
  : string :=
  let fromDir := path_dirname fromFile in
  if startsWith modulePath "."
  then path_resolve (cwd h) [fromDir; dotsToSep modulePath]
  else path_resolve (cwd h) [workspaceRoot; dotsToSep modulePath].

Definition resolvePythonModuleTraced (h : Host) (workspaceRoot modulePath fromFile : string)
  : option string * list string :=
  if negb (includes modulePath "/") && negb (includes modulePath backslash)
  then (None, [])
  else
    let resolvedBase := pythonBase h workspaceRoot modulePath fromFile in
    let withExt := resolvedBase ++ ".py" in
    if existsFile h withExt then (Some withExt, [withExt])
    else
      let initPath := path_join [resolvedBase; "__init__.py"] in
      if existsSync h initPath then (Some initPath, [withExt; initPath])
      else (None, [withExt; initPath]).

Definition resolvePythonModule (h : Host) (workspaceRoot modulePath fromFile : string)
  : option string :=
  fst (resolvePythonModuleTraced h workspaceRoot modulePath fromFile).

(** *** Extraction *)

Definition isSome {A} (o : option A) : bool :=
  match o with
  | Some _ => true
  | None => false
  end.

Definition mkDependency (modulePath : string) (r : option string) (kind : string)
  : CodebaseDependency :=
  {| module := modulePath; resolved := r; dependencyTypes := [kind];
     valid := isSome r |}.

Definition isJsOrTs (languageId : string) : bool :=
  (languageId =? "typescript") || (languageId =? "javascript").

(** [match[1].split(" ")[0].split(".")[0]] *)
Definition pythonModuleName (captured : string) : string :=
  hd "" (splitOn "." (hd "" (splitOn " " captured))).

Definition extractDependencies (h : Host) (workspaceRoot content filePath languageId : string)
  : list CodebaseDependency :=
  if isJsOrTs languageId then
    (map (fun modulePath =>
            mkDependency modulePath
              (resolveModulePath h workspaceRoot modulePath filePath) "import")
         (matchAll importRegex content)
     ++
     map (fun modulePath =>
            mkDependency modulePath
              (resolveModulePath h workspaceRoot modulePath filePath) "require")
         (matchAll requireRegex content))%list
  else if languageId =? "python" then
    map (fun captured =>
           let modulePath := pythonModuleName captured in
           mkDependency modulePath
             (resolvePythonModule h workspaceRoot modulePath filePath) "import")
        (matchAll pythonImportRegex content)
  else [].

Definition pushIfNew (acc : list string) (x : string) : list string :=
  if memberOf x acc then acc else (acc ++ [x])%list.

Definition extractFunctions (content languageId : string) : list string :=
  if isJsOrTs languageId then
    fold_left pushIfNew (matchAll methodRegex content)
      (matchAll funcDeclRegex content ++ matchAll arrowFuncRegex content)%list
  else if languageId =? "python" then matchAll pythonFuncRegex content
  else [].

Definition extractExports (content languageId : string) : list string :=
  if isJsOrTs languageId then matchAll exportRegex content
  else if languageId =? "python" then
    match search allRegex 0 content with
    | Some st =>
        map (fun item => replaceAll (oneOf quotes) "" (trim item))
            (splitOn "," (group1 st))
    | None => []
    end
  else [].

(** [analyzeFile]: [None] is the [null] of the [catch] branch; only the
    read can throw inside the [try]. *)
Definition analyzeFile (h : Host) (workspaceRoot filePath : string)
  : option CodebaseModule :=
  match readFile h filePath with
  | None => None
  | Some content =>
      let relativePath := path_relative (cwd h) workspaceRoot filePath in
      let fileName := path_basename filePath in
      let ext := path_extname filePath in
      let languageId := getLanguageId ext in
      Some {| source := filePath;
              relativePath := relativePath;
              fileName := fileName;
              languageId := languageId;
              fileCategory := classifyFile relativePath fileName;
              dependencies :=
                extractDependencies h workspaceRoot content filePath languageId;
              dependents := [];
              functions := extractFunctions content languageId;
              exports := extractExports content languageId |}
  end.

(** *** Discovery *)

Definition ignoredEntry (name : string) : bool :=
  startsWith name "." ||
  (name =? "node_modules") ||
  (name =? "dist") ||
  (name =? "build") ||
  (name =? ".git").

(** [walkDir]: a failing [readdir] is caught and contributes nothing.
    [fuel] bounds the depth of the recursion. *)
Fixpoint walkDir (fuel : nat) (h : Host) (dir : string) : Run (list string) :=
  match fuel with
  | O => Starved
  | S fuel' =>
      match readdir h dir with
      | None => Done []
      | Some entries =>
          fold_left
            (fun acc entry =>
               files <- acc ;;
               let fullPath := path_join [dir; d_name entry] in
               if ignoredEntry (d_name entry) then Done files
               else if isDirectory (d_kind entry) then
                 sub <- walkDir fuel' h fullPath ;; Done (files ++ sub)%list
               else if isFile (d_kind entry) then
                 if memberOf (path_extname (d_name entry)) supportedExtensions
                 then Done (files ++ [fullPath])%list
                 else Done files
               else Done files)
            entries (Done [])
      end
  end.

Definition getAllSupportedFiles (fuel : nat) (h : Host) (workspaceRoot : string)
  : Run (list string) :=
  walkDir fuel h workspaceRoot.

Definition withinSelected (h : Host) (selectedPath file : string) : bool :=
  let fileRelative := path_relative (cwd h) selectedPath file in
  negb (startsWith fileRelative "..") && negb (isAbsolute fileRelative).

(** [getFilesFromPaths]: the [stat] of a selected path is awaited outside
    any [try]. *)
Fixpoint collectSelected (fuel : nat) (h : Host) (workspaceRoot : string)
    (selectedPaths : list string) (files : list string) : Run (list string) :=
  match selectedPaths with
  | [] => Done files
  | selectedPath :: more =>
      match stat h selectedPath with
      | None =>
          Raise ("ENOENT: no such file or directory, stat '" ++ selectedPath ++ "'")
      | Some k =>
          if isFile k then
            collectSelected fuel h workspaceRoot more (files ++ [selectedPath])%list
          else if isDirectory k then
            dirFiles <- getAllSupportedFiles fuel h workspaceRoot ;;
            collectSelected fuel h workspaceRoot more
              (files ++ filter (withinSelected h selectedPath) dirFiles)%list
          else collectSelected fuel h workspaceRoot more files
      end
  end.

Definition getFilesFromPaths (fuel : nat) (h : Host) (workspaceRoot : string)
    (selectedPaths : list string) : Run (list string) :=
  files <- collectSelected fuel h workspaceRoot selectedPaths [] ;;
  Done (dedupe files).

(** *** Dependent linking.  The loops read keys and dependency lists, which
    linking never changes, and mutate the [dependents] array of the target
    object held by the map. *)

Definition addDependent (src : string) (m : CodebaseModule) : CodebaseModule :=
  if memberOf src (dependents m) then m
  else {| source := source m;
          relativePath := relativePath m;
          fileName := fileName m;
          languageId := languageId m;
          fileCategory := fileCategory m;
          dependencies := dependencies m;
          dependents := (dependents m ++ [src])%list;
          functions := functions m;
          exports := exports m |}.

Definition linkDependency (src : string) (modules : ModuleMap)
    (dep : CodebaseDependency) : ModuleMap :=
  match resolved dep with
  | Some r =>
      if nonEmpty r && mhas r modules
      then mupdate r (addDependent src) modules
      else modules
  | None => modules
  end.

Definition resolveDependencies (modules : ModuleMap) : ModuleMap :=
  fold_left
    (fun acc entry =>
       fold_left (linkDependency (fst entry)) (dependencies (snd entry)) acc)
    modules modules.

(** The loop over [filesToAnalyze]. *)
Definition analyzeFiles (h : Host) (workspaceRoot : string) (files : list string)
  : ModuleMap :=
  fold_left
    (fun modules filePath =>
       match analyzeFile h workspaceRoot filePath with
       | Some m => mset (source m) m modules
       | None => modules
       end)
    files [].

(** [analyzeCodebase(selectedPaths?)]; the map is cleared on entry, so the
    result does not depend on an earlier call. *)
Definition analyzeCodebase (fuel : nat) (h : Host) (workspaceRoot : string)
    (selectedPaths : option (list string)) : Run ModuleMap :=
  filesToAnalyze <-
    match selectedPaths with
    | Some paths => getFilesFromPaths fuel h workspaceRoot paths
    | None => getAllSupportedFiles fuel h workspaceRoot
    end ;;
  Done (resolveDependencies (analyzeFiles h workspaceRoot filesToAnalyze)).

(* ================================================================== *)
(** ** Numerals: [n.toString(radix)] and the [${n}] of a template *)
(* ================================================================== *)

Definition digitChar (d : nat) : ascii :=
  if Nat.ltb d 10 then ascii_of_nat (48 + d) else ascii_of_nat (87 + d).

Fixpoint digitsRadix (fuel radix n : nat) (acc : string) : string :=
  match fuel with
  | O => acc
  | S fuel' =>
      let acc' := String (digitChar (Nat.modulo n radix)) acc in
      if Nat.eqb (Nat.div n radix) 0 then acc'
      else digitsRadix fuel' radix (Nat.div n radix) acc'
  end.

Definition toStringRadix (radix n : nat) : string :=
  digitsRadix (S n) radix n "".

Definition natToString (n : nat) : string := toStringRadix 10 n.

(** [toUpperCase], used on base-36 numerals only. *)
Definition toUpperCase (s : string) : string := mapString upperChar s.

(* ================================================================== *)
(** ** Plain JavaScript objects used as dictionaries

    [Object.keys] lists array-index keys first, in ascending order, then
    the other keys in creation order; the association list is kept in
    that order.  A key that is not an own property may still be found on
    [Object.prototype]. *)
(* ================================================================== *)

Definition isDigit (c : ascii) : bool := between 48 57 (code c).

Definition digitsValue (l : list ascii) : N :=
  fold_left (fun acc c => (acc * 10 + N.of_nat (code c - 48))%N) l 0%N.

(** The value of a key that is an array index (a canonical numeral
    below 2^32 - 1). *)
Definition arrayIndex (k : string) : option N :=
  match chars k with
  | [] => None
  | c :: cs =>
      if forallb isDigit (c :: cs)
         && (negb (Ascii.eqb c "0") || Nat.eqb (List.length cs) 0)
         && Nat.leb (List.length cs) 9
         && N.leb (digitsValue (c :: cs)) 4294967294
      then Some (digitsValue (c :: cs))
      else None
  end.

Fixpoint insertIndexKey {V} (n : N) (k : string) (v : V) (o : JsMap V) : JsMap V :=
  match o with
  | [] => [(k, v)]
  | (k', v') :: o' =>
      match arrayIndex k' with
      | Some n' =>
          if N.ltb n n' then (k, v) :: o
          else (k', v') :: insertIndexKey n k v o'
      | None => (k, v) :: o
      end
  end.

(** Creation of a property that the object does not own yet. *)
Definition objAdd {V} (k : string) (v : V) (o : JsMap V) : JsMap V :=
  match arrayIndex k with
  | Some n => insertIndexKey n k v o
  | None => (o ++ [(k, v)])%list
  end.

Definition objectPrototypeKeys : list string :=
  ["constructor"; "__defineGetter__"; "__defineSetter__"; "hasOwnProperty";
   "__lookupGetter__"; "__lookupSetter__"; "isPrototypeOf";
   "propertyIsEnumerable"; "toString"; "valueOf"; "__proto__";
   "toLocaleString"].

Inductive Property (V : Type) :=
| OwnProperty (v : V)
| InheritedProperty
| NoProperty.
Arguments OwnProperty {V} v.
Arguments InheritedProperty {V}.
Arguments NoProperty {V}.

(** [o[k]] *)
Definition getProperty {V} (k : string) (o : JsMap V) : Property V :=
  match mget k o with
  | Some v => OwnProperty v
  | None =>
      if memberOf k objectPrototypeKeys then InheritedProperty else NoProperty
  end.

(* ================================================================== *)
(** ** CodebaseMermaidGenerator *)
(* ================================================================== *)

Record Generator := {
  modules : ModuleMap;
  workspaceRoot : string;
  namesHashMap : JsMap string;
  minify : bool;
  nodeIdToModule : JsMap CodebaseModule
}.

(** [new CodebaseMermaidGenerator(modules, workspaceRoot, minify)] *)
Definition newGenerator (ms : ModuleMap) (root : string) (mini : bool) : Generator :=
  {| modules := ms; workspaceRoot := root; namesHashMap := [];
     minify := mini; nodeIdToModule := [] |}.

Definition hashToReadableNodeName (nodeName : string) : string :=
  let s1 :=
    if nodeName =? "." then "__currentPath__"
    else if startsWith nodeName "./"
         then "__currentPath__" ++ substring 2 (String.length nodeName - 2) nodeName
         else nodeName in
  let s2 :=
    if s1 =? ".." then "__prevPath__"
    else if startsWith s1 "../"
         then "__prevPath__" ++ substring 3 (String.length s1 - 3) s1
         else s1 in
  replaceAll (oneOf "[]/.@~-") "_" s2.

(** [paths.slice(0, i + 1).join(path.sep)] for every [i]. *)
Definition pathPrefixes (paths : list string) : list string :=
  map (fun i => join sep (firstn (S i) paths)) (seq 0 (List.length paths)).

(** First loop of [hashModuleNames]: the set [allPaths]. *)
Definition collectPaths (ms : ModuleMap) : list string :=
  fold_left
    (fun allPaths m =>
       let paths := segments (relativePath m) in
       sadd (relativePath m)
            (fold_left (fun acc p => sadd p acc) (pathPrefixes paths) allPaths))
    (mvalues ms) [].

Definition minifiedId (count : nat) : string :=
  "N" ++ toUpperCase (toStringRadix 36 count).

(** Second loop: an identifier for every path that has none yet. *)
Definition assignIds (mini : bool) (allPaths : list string)
    (names : JsMap string) : JsMap string * nat :=
  fold_left
    (fun st rel =>
       let '(names, count) := st in
       if mhas rel names then (names, count)
       else if mini then (mset rel (minifiedId count) names, S count)
       else (mset rel (hashToReadableNodeName rel) names, count))
    allPaths (names, 0).

(** Third loop: absolute paths share the identifier of the relative path. *)
Definition mapAbsolutePaths (ms : ModuleMap)
    (st : JsMap string * JsMap CodebaseModule)
  : JsMap string * JsMap CodebaseModule :=
  fold_left
    (fun st entry =>
       let '(names, byId) := st in
       let '(filePath, m) := entry in
       match mget (relativePath m) names with
       | Some hashedId =>
           if nonEmpty hashedId
           then (mset filePath hashedId names, mset hashedId m byId)
           else (names, byId)
       | None => (names, byId)
       end)
    ms st.

Definition hashModuleNames (g : Generator) : Generator :=
  let allPaths := collectPaths (modules g) in
  let '(names, _) := assignIds (minify g) allPaths (namesHashMap g) in
  let '(names', byId) := mapAbsolutePaths (modules g) (names, nodeIdToModule g) in
  {| modules := modules g; workspaceRoot := workspaceRoot g;
     namesHashMap := names'; minify := minify g; nodeIdToModule := byId |}.

(** The tree of [convertSubgraphSources]. *)
#[local] Set Warnings "-register-all".
Inductive SubgraphNode :=
| SubgraphItem (node : option string) (text : string)
               (children : JsMap SubgraphNode).

Definition Subgraphs := JsMap SubgraphNode.

(** One [paths.reduce(...)]: [None] is the [TypeError] raised when the
    accumulator has become [undefined], which happens after a segment
    found on [Object.prototype]. *)
Fixpoint insertPath (names : JsMap string) (paths : list string) (index : nat)
    (remaining : list string) (children : Subgraphs) : option Subgraphs :=
  match remaining with
  | [] => Some children
  | currentPath :: more =>
      match getProperty currentPath children with
      | OwnProperty (SubgraphItem nd txt sub) =>
          match insertPath names paths (S index) more sub with
          | Some sub' => Some (mset currentPath (SubgraphItem nd txt sub') children)
          | None => None
          end
      | NoProperty =>
          let nodePath := join sep (firstn (S index) paths) in
          match insertPath names paths (S index) more [] with
          | Some sub' =>
              Some (objAdd currentPath
                      (SubgraphItem (mget nodePath names) currentPath sub')
                      children)
          | None => None
          end
      | InheritedProperty =>
          match more with
          | [] => Some children
          | _ :: _ => None
          end
      end
  end.

Definition convertSubgraphSources (g : Generator) : option Subgraphs :=
  fold_left
    (fun acc m =>
       match acc with
       | Some tree =>
           let paths := segments (relativePath m) in
           insertPath (namesHashMap g) paths 0 paths tree
       | None => None
       end)
    (mvalues (modules g)) (Some []).

(** An edge [{ from: { node, text }, to: { node, text } }]. *)
Record EdgeEnd := { endNode : string; endText : string }.
Record Edge := { edgeFrom : EdgeEnd; edgeTo : EdgeEnd }.

(** [edges.some((e) => e.from.node === fromNode && e.to.node === toNode)] *)
Definition edgeExists (fromNode toNode : string) (edges : list Edge) : bool :=
  existsb (fun e => (endNode (edgeFrom e) =? fromNode) &&
                    (endNode (edgeTo e) =? toNode)) edges.

(** The body of the inner loop of [convertEdgeSources]. *)
Definition addEdge (names : JsMap string) (from : EdgeEnd) (edges : list Edge)
    (dep : CodebaseDependency) : list Edge :=
  if truthy (resolved dep) && valid dep then
    match resolved dep with
    | Some r =>
        match mget r names with
        | Some toNode =>
            if nonEmpty toNode then
              if edgeExists (endNode from) toNode edges then edges
              else (edges ++ [{| edgeFrom := from;
                                 edgeTo := {| endNode := toNode;
                                              endText := path_basename r |} |}])%list
            else edges
        | None => edges
        end
    | None => edges
    end
  else edges.

Definition convertEdgeSources (g : Generator) : list Edge :=
  fold_left
    (fun edges entry =>
       let '(filePath, m) := entry in
       match mget filePath (namesHashMap g) with
       | Some fromNode =>
           if nonEmpty fromNode then
             let from := {| endNode := fromNode;
                            endText := path_basename (relativePath m) |} in
             fold_left (addEdge (namesHashMap g) from) (dependencies m) edges
           else edges
       | None => edges
       end)
    (modules g) [].

Definition escapeMermaidText (text : string) : string :=
  replaceAll (isChar "010") " "
    (replaceAll (isChar ">") "#62;"
       (replaceAll (isChar "<") "#60;"
          (replaceAll (isChar "034") "#quot;" text))).

Definition renderNode (nodeId : option string) (text : string) : string :=
  let escapedText :=
    if Nat.ltb 0 (String.length text) then escapeMermaidText text else " " in
  interpolate nodeId ++ "[" ++ dquote ++ escapedText ++ dquote ++ "]".

(** ["  ".repeat(depth)] *)
Fixpoint repeatString (s : string) (n : nat) : string :=
  match n with
  | O => ""
  | S n' => s ++ repeatString s n'
  end.

Fixpoint renderItem (mini : bool) (depth : nat) (item : SubgraphNode) : string :=
  match item with
  | SubgraphItem nd txt sub =>
      let indent := if mini then "" else repeatString "  " depth in
      let children :=
        join newline (map (fun kv => renderItem mini (S depth) (snd kv)) sub) in
      if children =? "" then indent ++ renderNode nd txt
      else indent ++ "subgraph " ++ renderNode nd txt ++ newline
           ++ children ++ newline
           ++ indent ++ "end"
  end.

Definition renderSubgraphs (mini : bool) (src : Subgraphs) (depth : nat) : string :=
  join newline (map (fun kv => renderItem mini depth (snd kv)) src).

Definition edgeLine (edge : Edge) : string :=
  endNode (edgeFrom edge) ++ "-->" ++ endNode (edgeTo edge).

Definition renderEdges (edges : list Edge) : string :=
  join newline (map edgeLine edges).

Definition renderClassDefinitions : string :=
  "classDef coreStyle fill:#90EE90,stroke:#00AA00,stroke-width:2px,color:#000" ++ newline ++
  "classDef reportStyle fill:#FFB6C1,stroke:#CC00CC,stroke-width:2px,color:#000" ++ newline ++
  "classDef configStyle fill:#87CEEB,stroke:#0066FF,stroke-width:2px,color:#000" ++ newline ++
  "classDef toolStyle fill:#FFD700,stroke:#FF6600,stroke-width:2px,color:#000" ++ newline ++
  "classDef entryStyle fill:#F5F5F5,stroke:#666666,stroke-width:2px,color:#000".

Definition getNodeStyleClass (category : FileCategory) : string :=
  match category with
  | core => "coreStyle"
  | report => "reportStyle"
  | config => "configStyle"
  | tool => "toolStyle"
  | entry => "entryStyle"
  end.

Definition renderNodeStyles (g : Generator) : string :=
  fold_left
    (fun styles entry =>
       styles ++ newline ++ "class " ++ fst entry ++ " "
              ++ getNodeStyleClass (fileCategory (snd entry)))
    (nodeIdToModule g) "".

(** What follows [linkStyle <index>] for one edge. *)
Definition edgeStyleSuffix (g : Generator) (edge : Edge) : string :=
  match mget (endNode (edgeFrom edge)) (nodeIdToModule g),
        mget (endNode (edgeTo edge)) (nodeIdToModule g) with
  | Some fromModule, Some toModule =>
      let edgeType :=
        classifyEdge (fileCategory fromModule) (fileCategory toModule)
                     (relativePath fromModule) (relativePath toModule) in
      let edgeColor := getEdgeColor edgeType in
      match getEdgeStyle edgeType with
      | dashed => " stroke:" ++ edgeColor ++ ",stroke-width:2px,stroke-dasharray: 5 5"
      | solid => " stroke:" ++ edgeColor ++ ",stroke-width:2px"
      end
  | _, _ => " stroke:#0066CC,stroke-width:2px"
  end.

(** The loop of [renderEdgeStyles], from a given text and counter. *)
Definition edgeStylesLoop (g : Generator) (edges : list Edge)
    (st : string * nat) : string * nat :=
  fold_left
    (fun st edge =>
       let '(styles, edgeIndex) := st in
       (styles ++ newline ++ "linkStyle " ++ natToString edgeIndex
               ++ edgeStyleSuffix g edge,
        S edgeIndex))
    edges st.

Definition renderEdgeStyles (g : Generator) (edges : list Edge) : string :=
  fst (edgeStylesLoop g edges ("", 0)).

(** [generate()]: the generator after the call, and the text unless the
    call throws. *)
Definition generate (g0 : Generator) : Generator * option string :=
  let g := hashModuleNames g0 in
  match convertSubgraphSources g with
  | None => (g, None)
  | Some subgraphs =>
      let edges := convertEdgeSources g in
      let classDefs := renderClassDefinitions in
      let nodeStyles := renderNodeStyles g in
      let edgeStyles := renderEdgeStyles g edges in
      (g, Some ("flowchart LR" ++ newline ++ newline
                ++ classDefs ++ newline
                ++ renderSubgraphs (minify g) subgraphs 0 ++ newline
                ++ renderEdges edges ++ newline
                ++ nodeStyles ++ newline
                ++ edgeStyles))
  end.

(* ================================================================== *)
(** ** CodebaseGraphBuilder *)
(* ================================================================== *)

Record CodebaseGraphBuilder := {
  builderModules : ModuleMap;
  builderRoot : string
}.

(** [generateMermaid()]: a new generator for every call. *)
Definition generateMermaid (b : CodebaseGraphBuilder) : option string :=
  snd (generate (newGenerator (builderModules b) (builderRoot b) true)).

(* ================================================================== *)
(** * Specification-level definitions

    What the specification says in its own words, to be compared with
    the functions above. *)
(* ================================================================== *)

(** The ordered rule table of [classifyFile]. *)
Definition categoryRules : list ((string -> string -> bool) * FileCategory) :=
  [(entryRule, entry); (reportRule, report); (toolRule, tool);
   (configRule, config); (coreRule, core)].

(** First matching rule wins. *)
Fixpoint firstMatch (rules : list ((string -> string -> bool) * FileCategory))
    (default : FileCategory) (lowerPath lowerFileName : string) : FileCategory :=
  match rules with
  | [] => default
  | (test, category) :: more =>
      if test lowerPath lowerFileName then category
      else firstMatch more default lowerPath lowerFileName
  end.

(** The file names the entry rule tests by equality. *)
Definition entryFileNames : list string :=
  ["index.ts"; "index.js"; "index.tsx"; "index.jsx"; "index.mjs"; "__init__.py"].

(** Edge emission before deduplication: the edge a dependency asks for. *)
Definition candidateEdge (names : JsMap string) (from : EdgeEnd)
    (dep : CodebaseDependency) : option Edge :=
  match resolved dep with
  | Some r =>
      if nonEmpty r && valid dep then
        match mget r names with
        | Some toNode =>
            if nonEmpty toNode
            then Some {| edgeFrom := from;
                         edgeTo := {| endNode := toNode;
                                      endText := path_basename r |} |}
            else None
        | None => None
        end
      else None
  | None => None
  end.

Fixpoint filterMap {A B} (f : A -> option B) (l : list A) : list B :=
  match l with
  | [] => []
  | x :: l' =>
      match f x with
      | Some y => y :: filterMap f l'
      | None => filterMap f l'
      end
  end.

(** The candidates of one module, in the order of its dependency list. *)
Definition moduleCandidates (names : JsMap string)
    (entry : string * CodebaseModule) : list Edge :=
  match mget (fst entry) names with
  | Some fromNode =>
      if nonEmpty fromNode then
        filterMap
          (candidateEdge names
             {| endNode := fromNode;
                endText := path_basename (relativePath (snd entry)) |})
          (dependencies (snd entry))
      else []
  | None => []
  end.

(** All candidates, modules in map order. *)
Definition candidateEdges (g : Generator) : list Edge :=
  flat_map (moduleCandidates (namesHashMap g)) (modules g).

Definition sameEnds (a b : Edge) : bool :=
  (endNode (edgeFrom a) =? endNode (edgeFrom b)) &&
  (endNode (edgeTo a) =? endNode (edgeTo b)).

Definition edgeKey (e : Edge) : string * string :=
  (endNode (edgeFrom e), endNode (edgeTo e)).

(** First occurrence wins: an edge is kept and the later edges between
    the same two nodes are dropped. *)
Fixpoint keepFirst (l : list Edge) : list Edge :=
  match l with
  | [] => []
  | e :: l' => e :: filter (fun c => negb (sameEnds e c)) (keepFirst l')
  end.

(** The style directive of the edge created at position [i]. *)
Definition styleDirective (g : Generator) (i : nat) (edge : Edge) : string :=
  "linkStyle " ++ natToString i ++ edgeStyleSuffix g edge.

Fixpoint styleDirectivesFrom (g : Generator) (i : nat) (edges : list Edge)
  : list string :=
  match edges with
  | [] => []
  | e :: more => styleDirective g i e :: styleDirectivesFrom g (S i) more
  end.

Definition styleDirectives (g : Generator) (edges : list Edge) : list string :=
  styleDirectivesFrom g 0 edges.

(** Concatenation of the lines of a block in which every line is
    preceded by a line break. *)
Fixpoint precededLines (lines : list string) : string :=
  match lines with
  | [] => ""
  | l :: more => newline ++ l ++ precededLines more
  end.

(** The step of the edge loop on an edge that passed the guards. *)
Definition pushEdge (edges : list Edge) (e : Edge) : list Edge :=
  if edgeExists (endNode (edgeFrom e)) (endNode (edgeTo e)) edges
  then edges else (edges ++ [e])%list.

(** A test that depends on the two end nodes only. *)
Definition respectsEnds (q : Edge -> bool) : Prop :=
  forall a b, sameEnds a b = true -> q a = q b.

Definition freshFor (acc : list Edge) (e : Edge) : bool :=
  negb (existsb (fun c => sameEnds c e) acc).

(** [s] contains the code unit [c]. *)
Fixpoint hasChar (c : ascii) (s : string) : bool :=
  match s with
  | EmptyString => false
  | String a s' => Ascii.eqb a c || hasChar c s'
  end.

(** A module with some of its dependency records left out. *)
Definition keepDependencies (keep : CodebaseDependency -> bool)
    (m : CodebaseModule) : CodebaseModule :=
  {| source := source m;
     relativePath := relativePath m;
     fileName := fileName m;
     languageId := languageId m;
     fileCategory := fileCategory m;
     dependencies := filter keep (dependencies m);
     dependents := dependents m;
     functions := functions m;
     exports := exports m |}.

Definition pruneMap (keep : CodebaseDependency -> bool)
    (ms : JsMap CodebaseModule) : JsMap CodebaseModule :=
  map (fun entry => (fst entry, keepDependencies keep (snd entry))) ms.

(** The dependency records that carry a resolved path. *)
Definition isResolved (dep : CodebaseDependency) : bool := isSome (resolved dep).

(** A module with its list of dependents replaced. *)
Definition withDependents (ds : list string) (m : CodebaseModule) : CodebaseModule :=
  {| source := source m;
     relativePath := relativePath m;
     fileName := fileName m;
     languageId := languageId m;
     fileCategory := fileCategory m;
     dependencies := dependencies m;
     dependents := ds;
     functions := functions m;
     exports := exports m |}.

(** The dependency records whose target, if any, is a key of the map. *)
Definition targetInMap (ms : ModuleMap) (dep : CodebaseDependency) : bool :=
  match resolved dep with
  | Some r => mhas r ms
  | None => true
  end.

(** What dependent linking maintains, [built] being the map it starts
    from: same keys in the same order, every module unchanged but for its
    dependents, which are distinct keys of the map, each owed to a
    dependency of that module resolved onto this one. *)
Definition linkInvariant (built acc : ModuleMap) : Prop :=
  mkeys acc = mkeys built /\
  forall k m, In (k, m) acc ->
    (exists m0, In (k, m0) built /\ m = withDependents (dependents m) m0) /\
    NoDup (dependents m) /\
    forall d, In d (dependents m) ->
      In d (mkeys built) /\
      exists md dep, In (d, md) built /\ In dep (dependencies md) /\
                     resolved dep = Some k.

(** The lines of a text, and those that are [linkStyle] directives. *)
Definition linesOf (s : string) : list string := splitOn "010" s.

Definition isDirectiveLine (l : string) : bool := startsWith l "linkStyle ".

Definition directiveLines (text : string) : list string :=
  filter isDirectiveLine (linesOf text).

(** Every code unit of [s] satisfies [p]. *)
Fixpoint allChars (p : ascii -> bool) (s : string) : bool :=
  match s with
  | EmptyString => true
  | String a s' => p a && allChars p s'
  end.

(** A minified identifier: the letter N, then digits and capital letters. *)
Definition isIdChar (a : ascii) : bool :=
  between 48 57 (code a) || between 65 90 (code a).

Definition minified (s : string) : Prop :=
  exists t, s = String "N" t /\ allChars isIdChar t = true.

(** Every identifier held by a tree is a value of the table ([undefined]
    apart). *)
Fixpoint treeIds (P : string -> Prop) (t : SubgraphNode) : Prop :=
  match t with
  | SubgraphItem nd _ sub =>
      match nd with
      | Some id => P id
      | None => True
      end /\
      (fix forest (l : JsMap SubgraphNode) : Prop :=
         match l with
         | [] => True
         | kv :: l' => treeIds P (snd kv) /\ forest l'
         end) sub
  end.

Fixpoint forestIds (P : string -> Prop) (l : JsMap SubgraphNode) : Prop :=
  match l with
  | [] => True
  | kv :: l' => treeIds P (snd kv) /\ forestIds P l'
  end.

(** A sequence of [set] calls on one map. *)
Definition applyOps {V} (ops : list (string * V)) (m : JsMap V) : JsMap V :=
  fold_left (fun acc kv => mset (fst kv) (snd kv) acc) ops m.

(** The [set] calls of the third loop of [hashModuleNames], read off a
    fixed table. *)
Definition absoluteOps (table : JsMap string) (ms : ModuleMap)
  : list (string * string * CodebaseModule) :=
  filterMap
    (fun entry : string * CodebaseModule =>
       match mget (relativePath (snd entry)) table with
       | Some hashedId =>
           if nonEmpty hashedId then Some (fst entry, hashedId, snd entry)
           else None
       | None => None
       end)
    ms.

(** No key of the module map is also one of the collected relative
    paths. *)
Definition keysApart (ms : ModuleMap) : bool :=
  forallb (fun k => negb (memberOf k (collectPaths ms))) (mkeys ms).

(* ================================================================== *)
(** * A sample workspace

    [/ws/src/a.ts] imports [./b] twice (once with [import], once with
    [require]), the package [lodash] and the directory [./shared/lib];
    [/ws/pkg/mod.py] imports its sibling [utils]. *)
(* ================================================================== *)

Definition sampleFiles : JsMap string :=
  [("/ws/src/a.ts",
    "import {x} from './b'" ++ newline ++
    "import lodash from 'lodash'" ++ newline ++
    "const y = require('./b');" ++ newline ++
    "import z from './shared/lib'");
   ("/ws/src/b.ts", "export const x = 1;");
   ("/ws/src/shared/lib/index.ts", "export function f() {}");
   ("/ws/pkg/mod.py", "from utils import helper");
   ("/ws/pkg/utils.py", "def helper(): pass")].

Definition dirent (name : string) (kind : FileKind) : Dirent :=
  {| d_name := name; d_kind := kind |}.

Definition sampleDirs : JsMap (list Dirent) :=
  [("/ws", [dirent "src" Directory; dirent "pkg" Directory;
            dirent ".git" Directory]);
   ("/ws/src", [dirent "a.ts" RegularFile; dirent "b.ts" RegularFile;
                dirent "shared" Directory]);
   ("/ws/src/shared", [dirent "lib" Directory]);
   ("/ws/src/shared/lib", [dirent "index.ts" RegularFile]);
   ("/ws/pkg", [dirent "mod.py" RegularFile; dirent "utils.py" RegularFile]);
   ("/ws/.git", [])].

Definition sampleHost : Host :=
  {| cwd := "/";
     stat := fun p => if mhas p sampleFiles then Some RegularFile
                      else if mhas p sampleDirs then Some Directory
                      else None;
     readdir := fun p => mget p sampleDirs;
     readFile := fun p => mget p sampleFiles |}.

Definition sampleModules : ModuleMap :=
  resolveDependencies (analyzeFiles sampleHost "/ws" (mkeys sampleFiles)).

Definition sampleGenerator : Generator :=
  hashModuleNames (newGenerator sampleModules "/ws" true).

(* ================================================================== *)
(** * Further specification-level definitions *)
(* ================================================================== *)

(** The files of a list that can be read. *)
Definition readable (h : Host) (f : string) : bool := isSome (readFile h f).


(** The value of a numeral in a given radix, digits first, then letters
    of either case: what [parseInt(s, radix)] computes on a numeral. *)
Definition digitValue (c : ascii) : nat :=
  let n := code c in
  if Nat.leb n 57 then n - 48 else if Nat.leb n 90 then n - 55 else n - 87.

Fixpoint parseRadixFrom (radix acc : nat) (s : string) : nat :=
  match s with
  | EmptyString => acc
  | String c s' => parseRadixFrom radix (acc * radix + digitValue c) s'
  end.

Definition parseRadix (radix : nat) (s : string) : nat := parseRadixFrom radix 0 s.

(** A property of every node of a tree, told the path of keys that
    leads to the node from the root of the forest. *)
Fixpoint treeAt (Q : list string -> option string -> string -> Prop)
    (prefix : list string) (k : string) (t : SubgraphNode) : Prop :=
  match t with
  | SubgraphItem nd txt sub =>
      Q (prefix ++ [k])%list nd txt /\
      (fix forest (l : JsMap SubgraphNode) : Prop :=
         match l with
         | [] => True
         | kv :: l' => treeAt Q (prefix ++ [k])%list (fst kv) (snd kv) /\ forest l'
         end) sub
  end.

Fixpoint forestAt (Q : list string -> option string -> string -> Prop)
    (prefix : list string) (l : JsMap SubgraphNode) : Prop :=
  match l with
  | [] => True
  | kv :: l' => treeAt Q prefix (fst kv) (snd kv) /\ forestAt Q prefix l'
  end.

(** The node held at a path of keys: it carries the identifier the
    table gives to that path, which is defined, and its text is the last
    key, which is no member of [Object.prototype]. *)
Definition nodeAt (names : JsMap string) (path : list string)
    (nd : option string) (txt : string) : Prop :=
  nd = mget (join sep path) names /\ nd <> None /\
  last path "" = txt /\ memberOf txt objectPrototypeKeys = false.

(** A path one of whose segments but the last names a member of
    [Object.prototype]. *)
Definition inheritedKey (seg : string) : bool := memberOf seg objectPrototypeKeys.

Definition pathThrows (segs : list string) : bool :=
  existsb inheritedKey (removelast segs).

(** Directory entries the walk descends into, and entries it reports. *)
Definition subdirectoryEntry (entry : Dirent) : bool :=
  negb (ignoredEntry (d_name entry)) && isDirectory (d_kind entry).

Definition supportedEntry (entry : Dirent) : bool :=
  negb (ignoredEntry (d_name entry)) && isFile (d_kind entry) &&
  memberOf (path_extname (d_name entry)) supportedExtensions.

(** What one entry of [dir] adds to the list of files, [walk] being the
    recursive call. *)
Definition entryFiles (walk : string -> Run (list string)) (dir : string)
    (entry : Dirent) : Run (list string) :=
  if subdirectoryEntry entry then walk (path_join [dir; d_name entry])
  else if supportedEntry entry then Done [path_join [dir; d_name entry]]
  else Done [].

(** [d'] is [d] or lies below it, through readable directories whose
    names are not ignored. *)
Inductive reaches (h : Host) : string -> string -> Prop :=
| reaches_here (d : string) : reaches h d d
| reaches_below (d : string) (entries : list Dirent) (entry : Dirent) (d' : string) :
    readdir h d = Some entries -> In entry entries ->
    subdirectoryEntry entry = true ->
    reaches h (path_join [d; d_name entry]) d' ->
    reaches h d d'.

(** [f] is a supported file listed in a directory reached from [dir]. *)
Definition walked (h : Host) (dir f : string) : Prop :=
  exists d entries entry,
    reaches h dir d /\ readdir h d = Some entries /\ In entry entries /\
    supportedEntry entry = true /\ f = path_join [d; d_name entry].

(** The directories below [dir] are nested less than [fuel] deep. *)
Fixpoint shallow (fuel : nat) (h : Host) (dir : string) : bool :=
  match fuel with
  | O => false
  | S fuel' =>
      match readdir h dir with
      | None => true
      | Some entries =>
          forallb (fun entry =>
                     if subdirectoryEntry entry
                     then shallow fuel' h (path_join [dir; d_name entry])
                     else true)
                  entries
      end
  end.

(** The body of the loop of [walkDir] over the entries of [dir], [walk]
    being the recursive call. *)
Definition walkStep (walk : string -> Run (list string)) (dir : string)
    (acc : Run (list string)) (entry : Dirent) : Run (list string) :=
  files <- acc ;;
  let fullPath := path_join [dir; d_name entry] in
  if ignoredEntry (d_name entry) then Done files
  else if isDirectory (d_kind entry) then
    sub <- walk fullPath ;; Done (files ++ sub)%list
  else if isFile (d_kind entry) then
    if memberOf (path_extname (d_name entry)) supportedExtensions
    then Done (files ++ [fullPath])%list
    else Done files
  else Done files.

(** Every match of the expression consumes input. *)
Fixpoint consuming (r : regex) : bool :=
  match r with
  | Chr _ | Cls _ => true
  | Seq a b => consuming a || consuming b
  | Alt a b => consuming a && consuming b
  | Group a => consuming a
  | _ => false
  end.

(** Every match of the expression sets group 1. *)
Fixpoint capturing (r : regex) : bool :=
  match r with
  | Group _ => true
  | Seq a b => capturing a || capturing b
  | Alt a b => capturing a && capturing b
  | _ => false
  end.

(** [C] holds of whatever a group of the expression captures. *)
Fixpoint captures (C : string -> Prop) (r : regex) : Prop :=
  match r with
  | Group a =>
      forall st st', In st' (rmatch a st) ->
                     C (substring 0 (pos st' - pos st) (rest st))
  | Seq a b => captures C a /\ captures C b
  | Alt a b => captures C a /\ captures C b
  | Star a => captures C a
  | _ => True
  end.

(** [st'] is [st] after reading the text [w]. *)
Definition reads (w : string) (st st' : mstate) : Prop :=
  rest st = w ++ rest st' /\ pos st' = pos st + String.length w.

(** Group 1 is as it was, or holds a text of which [C] holds. *)
Definition keeps (C : string -> Prop) (st st' : mstate) : Prop :=
  cap st' = cap st \/ exists c, cap st' = Some c /\ C c.

(** A non-empty text all of whose code units satisfy [p]. *)
Definition run (p : ascii -> bool) (c : string) : Prop :=
  c <> "" /\ allChars p c = true.

(** The global expressions the extractor loops over. *)
Definition loopRegexes : list regex :=
  [importRegex; requireRegex; pythonImportRegex; funcDeclRegex;
   arrowFuncRegex; methodRegex; pythonFuncRegex; exportRegex].

(** The node found by following a path of keys from the root of a
    forest. *)
Fixpoint lookupPath (tree : Subgraphs) (path : list string)
  : option SubgraphNode :=
  match path with
  | [] => None
  | k :: rest =>
      match mget k tree with
      | Some (SubgraphItem nd txt sub) =>
          match rest with
          | [] => Some (SubgraphItem nd txt sub)
          | _ :: _ => lookupPath sub rest
          end
      | None => None
      end
  end.

(* ================================================================== *)
(** * The page of the diagram (FlowchartViewProvider)

    [getWebviewContent] places the diagram text in the page as
    [mermaidCode.replace(/<\/script>/gi, '<\\/script>')]. *)
(* ================================================================== *)

(** The letters A-Z lowered, which is how the flag [i] compares the
    letters of the pattern. *)
Definition asciiLower (c : ascii) : ascii :=
  let n := code c in
  if between 65 90 n then ascii_of_nat (n + 32) else c.

(** [s] begins with the lower-case text [p], letter case of [s] apart. *)
Fixpoint prefixCI (p s : string) : bool :=
  match p, s with
  | EmptyString, _ => true
  | String a p', String b s' => Ascii.eqb a (asciiLower b) && prefixCI p' s'
  | String _ _, EmptyString => false
  end.

(** The replacement, from left to right; [skip] counts the code units
    of the match in progress that are still to be passed over. *)
Fixpoint neutralizeFrom (skip : nat) (s : string) : string :=
  match s with
  | EmptyString => EmptyString
  | String a s' =>
      match skip with
      | S k => neutralizeFrom k s'
      | O =>
          if prefixCI "</script>" s
          then "<\/script>" ++ neutralizeFrom 8 s'
          else String a (neutralizeFrom 0 s')
      end
  end.

Definition neutralizeScriptEnd (mermaidCode : string) : string :=
  neutralizeFrom 0 mermaidCode.
(* ================================================================== *)
(** * Properties *)
(* ================================================================== *)

(** ** Strings *)

Lemma prefix_app_l (a b s : string) :
  String.prefix (a ++ b) s = true -> String.prefix a s = true.
Proof.
  revert s. induction a as [|c a IH]; intros s H.
  - destruct s; reflexivity.
  - destruct s as [|d s]; simpl in *; [discriminate H|].
    destruct (ascii_dec c d); [auto | discriminate H].
Qed.

Lemma includes_unfold (s sub : string) :
  includes s sub =
  if String.prefix sub s then true
  else match s with
       | EmptyString => false
       | String _ s' => includes s' sub
       end.
Proof. destruct s; reflexivity. Qed.

Lemma includes_app_l (s a b : string) :
  includes s (a ++ b) = true -> includes s a = true.
Proof.
  induction s as [|c s IH]; intros H;
    rewrite includes_unfold in H; rewrite includes_unfold;
    destruct (String.prefix (a ++ b) _) eqn:E.
  - now rewrite (prefix_app_l _ _ _ E).
  - discriminate H.
  - now rewrite (prefix_app_l _ _ _ E).
  - rewrite (IH H). now destruct (String.prefix a (String c s)).
Qed.

Lemma string_app_assoc (a b c : string) : (a ++ b) ++ c = a ++ (b ++ c).
Proof. induction a as [|x a IH]; simpl; [reflexivity | now rewrite IH]. Qed.

Lemma string_app_nil_r (a : string) : a ++ "" = a.
Proof. induction a as [|x a IH]; simpl; [reflexivity | now rewrite IH]. Qed.

Lemma hasChar_app (c : ascii) (a b : string) :
  hasChar c (a ++ b) = hasChar c a || hasChar c b.
Proof.
  induction a as [|x a IH]; simpl; [reflexivity|].
  now rewrite IH, orb_assoc.
Qed.

Lemma splitOn_nonempty (c : ascii) (s : string) : splitOn c s <> [].
Proof.
  induction s as [|a s IH]; simpl; [discriminate|].
  destruct (Ascii.eqb a c); [discriminate|].
  destruct (splitOn c s); [contradiction | discriminate].
Qed.

(** Splitting after a prefix that holds no separator. *)
Lemma splitOn_app_free (c : ascii) (a b : string) :
  hasChar c a = false ->
  splitOn c (a ++ b)
  = match splitOn c b with
    | [] => [a]
    | w :: ws => (a ++ w) :: ws
    end.
Proof.
  induction a as [|x a IH]; simpl; intros H.
  - pose proof (splitOn_nonempty c b) as N.
    destruct (splitOn c b); [contradiction | reflexivity].
  - apply orb_false_iff in H. destruct H as [Hx Ha].
    rewrite Hx, (IH Ha).
    now destruct (splitOn c b).
Qed.

(** ** The models at work *)

Example toLowerCase_mixed : toLowerCase "Src/Index.TS" = "src/index.ts".
Proof. reflexivity. Qed.

Example import_scan :
  matchAll importRegex
    ("import lodash from " ++ dquote ++ "lodash" ++ dquote ++ ";" ++ newline ++
     "import {x, y} from './b'" ++ newline ++
     "import * as z from '../c/d'; const q = require('./e')")
  = ["lodash"; "./b"; "../c/d"].
Proof. vm_compute. reflexivity. Qed.

Example require_scan :
  matchAll requireRegex "const q = require( './e' ); require(x)" = ["./e"].
Proof. vm_compute. reflexivity. Qed.

Example python_scan :
  matchAll pythonImportRegex
    ("import os.path" ++ newline ++ "  from .utils import helper" ++ newline ++
     "x = 1 import foo")
  = ["os.path"; ".utils"].
Proof. vm_compute. reflexivity. Qed.

Example python_module_names :
  map pythonModuleName ["os.path"; ".utils"; "utils"] = ["os"; ""; "utils"].
Proof. reflexivity. Qed.

Example path_dirname_cases :
  map path_dirname ["/ws/pkg/mod.py"; "a/b"; "/a"; "a"; "/ws/src/dir/"; ""]
  = ["/ws/pkg"; "a"; "/"; "."; "/ws/src"; "."].
Proof. reflexivity. Qed.

Example path_basename_cases :
  map path_basename ["/ws/pkg/mod.py"; "a/b/"; "/"; "index.ts"]
  = ["mod.py"; "b"; ""; "index.ts"].
Proof. reflexivity. Qed.

Example path_extname_cases :
  map path_extname ["/ws/pkg/mod.py"; ".bashrc"; "a."; ".."; "a.b.c"; "Makefile"]
  = [".py"; ""; "."; ""; ".c"; ""].
Proof. reflexivity. Qed.

Example path_resolve_cases :
  map (path_resolve "/home") [["/ws/src"; "./b"]; ["/ws/src"; "../lib/x"];
                              ["/ws/src"; "../../.."]; ["rel"; "x/"];
                              ["/ws"; "/abs/y"]]
  = ["/ws/src/b"; "/ws/lib/x"; "/"; "/home/rel/x"; "/abs/y"].
Proof. reflexivity. Qed.

Example path_join_cases :
  map path_join [["/ws"; "/src/x"]; ["/ws/"; "x/"]; [""; ""]; ["a"; "../../b"];
                 ["/ws/src/shared/lib"; "index.ts"]]
  = ["/ws/src/x"; "/ws/x/"; "."; "../b"; "/ws/src/shared/lib/index.ts"].
Proof. reflexivity. Qed.

Example path_relative_cases :
  map (fun ft => path_relative "/home" (fst ft) (snd ft))
      [("/ws", "/ws/src/a.ts"); ("/ws", "/ws"); ("/ws/a", "/ws/b/c");
       ("/ws/src", "/ws"); ("/ws/src", "/ws/srcfoo/x")]
  = ["src/a.ts"; ""; "../b/c"; ".."; "../srcfoo/x"].
Proof. reflexivity. Qed.

Example minified_ids : map minifiedId [0; 9; 10; 35; 36; 1295] =
                       ["N0"; "N9"; "NA"; "NZ"; "N10"; "NZZ"].
Proof. vm_compute. reflexivity. Qed.

Example readable_names :
  map hashToReadableNodeName ["."; "./a-b"; ".."; "../x.ts"; "src/a.ts"]
  = ["__currentPath__"; "__currentPath__a_b"; "__prevPath__";
     "__prevPath__x_ts"; "src_a_ts"].
Proof. reflexivity. Qed.

(** The sample workspace, analysed and rendered. *)
Example sample_analysis :
  analyzeCodebase 5 sampleHost "/ws" None = Done sampleModules.
Proof. vm_compute. reflexivity. Qed.

Example sample_dependents :
  map (fun entry => (fst entry, dependents (snd entry))) sampleModules
  = [("/ws/src/a.ts", []);
     ("/ws/src/b.ts", ["/ws/src/a.ts"]);
     ("/ws/src/shared/lib/index.ts", ["/ws/src/a.ts"]);
     ("/ws/pkg/mod.py", []);
     ("/ws/pkg/utils.py", [])].
Proof. vm_compute. reflexivity. Qed.

Example sample_edges :
  map edgeLine (convertEdgeSources sampleGenerator) = ["N1-->N2"; "N1-->N5"].
Proof. vm_compute. reflexivity. Qed.

Example sample_style_block :
  renderEdgeStyles sampleGenerator (convertEdgeSources sampleGenerator)
  = newline ++ "linkStyle 0 stroke:#0066CC,stroke-width:2px"
    ++ newline ++ "linkStyle 1 stroke:#0066CC,stroke-width:2px".
Proof. vm_compute. reflexivity. Qed.

(** A directory named like a property of [Object.prototype] makes
    [convertSubgraphSources] throw. *)
Example prototype_segment_throws :
  generateMermaid
    {| builderModules :=
         analyzeFiles
           {| cwd := "/"; stat := fun _ => None; readdir := fun _ => None;
              readFile := fun _ => Some "" |}
           "/ws" ["/ws/constructor/a.ts"];
       builderRoot := "/ws" |}
  = None.
Proof. vm_compute. reflexivity. Qed.

(** ** FileTypeClassifier *)

Lemma entryRule_names (lp lf : string) :
  In lf entryFileNames -> entryRule lp lf = true.
Proof.
  unfold entryFileNames; simpl.
  intros [H|[H|[H|[H|[H|[H|[]]]]]]]; subst lf; reflexivity.
Qed.

Lemma entryRule_options (lp lf : string) :
  includes lf "options" = true -> entryRule lp lf = true.
Proof.
  intros H. unfold entryRule. rewrite H.
  rewrite !orb_true_r. reflexivity.
Qed.

Lemma entryRule_path (lp lf : string) :
  includes lp "/main/" = true \/ includes lp "/entry/" = true ->
  entryRule lp lf = true.
Proof.
  unfold entryRule. intros [H|H]; rewrite H; rewrite ?orb_true_r; reflexivity.
Qed.

Lemma options_compatible_has_options (lf : string) :
  includes lf "options-compatible" = true -> includes lf "options" = true.
Proof. apply (includes_app_l lf "options" "-compatible"). Qed.

(** C9, as amended.  [classifyFile] evaluates the rules entry, report,
    tool, config, core in that order, the first match wins and the
    default is entry; the entry rule holds of the file names index.ts,
    index.js, index.tsx, index.jsx, index.mjs and __init__.py (compared
    in lower case) and of every path containing /main/ or /entry/, so
    each of these is classified entry whatever the rest of the path. *)
Theorem classifyFile_entry_rule (relativePath fileName : string) :
  classifyFile relativePath fileName
  = firstMatch categoryRules entry
      (toLowerCase relativePath) (toLowerCase fileName)
  /\ (In (toLowerCase fileName) entryFileNames \/
      includes (toLowerCase relativePath) "/main/" = true \/
      includes (toLowerCase relativePath) "/entry/" = true ->
      classifyFile relativePath fileName = entry).
Proof.
  split; [reflexivity|].
  intros H. unfold classifyFile.
  destruct H as [H|H].
  - now rewrite (entryRule_names _ _ H).
  - now rewrite (entryRule_path _ _ H).
Qed.

Lemma classifyFile_entry_rule_witness :
  In (toLowerCase "Index.TSX") entryFileNames /\
  classifyFile "src/report/Index.TSX" "Index.TSX" = entry.
Proof.
  assert (H : In (toLowerCase "Index.TSX") entryFileNames)
    by (vm_compute; tauto).
  split; [exact H|].
  apply (proj2 (classifyFile_entry_rule "src/report/Index.TSX" "Index.TSX")).
  left. exact H.
Defined.

(** C9 as stated fails: index.py carries a supported extension and, in a
    report directory, is classified report. *)
Lemma index_star_not_always_entry :
  ~ (forall relativePath ext : string,
        In ext supportedExtensions ->
        classifyFile relativePath ("index" ++ ext) = entry).
Proof.
  intros H.
  assert (E : classifyFile "lib/report/index.py" ("index" ++ ".py") = entry).
  { apply H. simpl. tauto. }
  vm_compute in E. discriminate E.
Qed.

(** C10.  A file name whose lower-case form contains "options" is
    classified entry for every path; hence so is one containing
    "options-compatible", the tool rule is only reached with that test
    false, and a file classified tool owes it to one of the six other
    tests of the tool rule. *)
Theorem options_file_name_is_entry (relativePath fileName : string) :
  let lowerPath := toLowerCase relativePath in
  let lowerFileName := toLowerCase fileName in
  (includes lowerFileName "options" = true ->
   classifyFile relativePath fileName = entry) /\
  (includes lowerFileName "options-compatible" = true ->
   classifyFile relativePath fileName = entry) /\
  (entryRule lowerPath lowerFileName = false ->
   includes lowerFileName "options-compatible" = false) /\
  (classifyFile relativePath fileName = tool ->
   toolRuleHead lowerPath lowerFileName = true).
Proof.
  intros lp lf.
  assert (A : includes lf "options" = true ->
              classifyFile relativePath fileName = entry).
  { intros H. unfold classifyFile. fold lp lf.
    now rewrite (entryRule_options lp lf H). }
  assert (B : entryRule lp lf = false ->
              includes lf "options-compatible" = false).
  { intros H. destruct (includes lf "options-compatible") eqn:E; [|reflexivity].
    rewrite (entryRule_options lp lf (options_compatible_has_options lf E)) in H.
    discriminate H. }
  repeat split.
  - exact A.
  - intros H. apply A. now apply options_compatible_has_options.
  - exact B.
  - unfold classifyFile. fold lp lf.
    destruct (entryRule lp lf) eqn:E; [intros X; discriminate X|].
    destruct (reportRule lp lf); [intros X; discriminate X|].
    destruct (toolRule lp lf) eqn:T.
    + intros _. unfold toolRule in T. rewrite (B eq_refl) in T.
      now rewrite orb_false_r in T.
    + destruct (configRule lp lf); [intros X; discriminate X|].
      destruct (coreRule lp lf); intros X; discriminate X.
Qed.

Lemma options_file_name_is_entry_witness :
  includes (toLowerCase "Options-Compatible.js") "options" = true /\
  classifyFile "src/tools/Options-Compatible.js" "Options-Compatible.js" = entry.
Proof.
  split; [reflexivity|].
  apply (proj1 (options_file_name_is_entry
                  "src/tools/Options-Compatible.js" "Options-Compatible.js")).
  reflexivity.
Defined.

(** ** Import resolution *)

Section Resolution.

Variable h : Host.
Variable root : string.

(** The loops stop at the first hit and report the candidates tried. *)
Lemma tryExtensions_miss (base : string) (exts : list string) :
  (forall ext, In ext exts -> existsFile h (base ++ ext) = false) ->
  tryExtensions h base exts = (None, map (append base) exts).
Proof.
  induction exts as [|ext more IH]; intros Hno; simpl; [reflexivity|].
  rewrite (Hno ext (or_introl eq_refl)).
  rewrite IH; [reflexivity|].
  intros e He. apply Hno. now right.
Qed.

Lemma tryExtensions_hit (base : string) (exts : list string) (n : nat) (ext : string) :
  nth_error exts n = Some ext ->
  existsFile h (base ++ ext) = true ->
  (forall k e, k < n -> nth_error exts k = Some e ->
               existsFile h (base ++ e) = false) ->
  tryExtensions h base exts
  = (Some (base ++ ext), map (append base) (firstn (S n) exts)).
Proof.
  revert n. induction exts as [|e0 more IH]; intros n Hn Hyes Hno.
  - destruct n; discriminate Hn.
  - destruct n as [|n].
    + injection Hn as ->. cbn [tryExtensions]. rewrite Hyes. reflexivity.
    + cbn [tryExtensions].
      rewrite (Hno 0 e0 (Nat.lt_0_succ n) eq_refl).
      rewrite (IH n Hn Hyes).
      * reflexivity.
      * intros k e Hk He. apply (Hno (S k) e); [lia | exact He].
Qed.

Lemma tryIndexFiles_miss (base : string) (names : list string) :
  (forall i, In i names -> existsSync h (path_join [base; i]) = false) ->
  tryIndexFiles h base names
  = (None, map (fun i => path_join [base; i]) names).
Proof.
  induction names as [|i more IH]; intros Hno; [reflexivity|].
  cbn [tryIndexFiles map].
  rewrite (Hno i (or_introl eq_refl)).
  rewrite IH; [reflexivity|].
  intros e He. apply Hno. now right.
Qed.

Lemma tryIndexFiles_hit (base : string) (names : list string) (n : nat) (i : string) :
  nth_error names n = Some i ->
  existsSync h (path_join [base; i]) = true ->
  (forall k e, k < n -> nth_error names k = Some e ->
               existsSync h (path_join [base; e]) = false) ->
  tryIndexFiles h base names
  = (Some (path_join [base; i]),
     map (fun i => path_join [base; i]) (firstn (S n) names)).
Proof.
  revert n. induction names as [|e0 more IH]; intros n Hn Hyes Hno.
  - destruct n; discriminate Hn.
  - destruct n as [|n].
    + injection Hn as ->. cbn [tryIndexFiles]. rewrite Hyes. reflexivity.
    + cbn [tryIndexFiles].
      rewrite (Hno 0 e0 (Nat.lt_0_succ n) eq_refl).
      rewrite (IH n Hn Hyes).
      * reflexivity.
      * intros k e Hk He. apply (Hno (S k) e); [lia | exact He].
Qed.

Lemma resolveModulePath_external (modulePath fromFile : string) :
  startsWith modulePath "." = false ->
  startsWith modulePath "/" = false ->
  resolveModulePathTraced h root modulePath fromFile = (None, []).
Proof.
  intros Hdot Hslash. unfold resolveModulePathTraced.
  now rewrite Hdot, Hslash.
Qed.

Lemma resolvePythonModule_bare (modulePath fromFile : string) :
  includes modulePath "/" = false ->
  includes modulePath backslash = false ->
  resolvePythonModuleTraced h root modulePath fromFile = (None, []).
Proof.
  intros Hs Hb. unfold resolvePythonModuleTraced.
  now rewrite Hs, Hb.
Qed.

(** Every dependency record is built by [mkDependency]: it is valid
    exactly when it carries a resolved path. *)
Lemma extractDependencies_valid (content filePath languageId : string)
    (dep : CodebaseDependency) :
  In dep (extractDependencies h root content filePath languageId) ->
  valid dep = isSome (resolved dep).
Proof.
  unfold extractDependencies.
  destruct (isJsOrTs languageId).
  - intros H. apply in_app_or in H.
    destruct H as [H|H]; apply in_map_iff in H;
      destruct H as [mp [<- _]]; reflexivity.
  - destruct (languageId =? "python").
    + intros H. apply in_map_iff in H.
      destruct H as [mp [<- _]]; reflexivity.
    + intros [].
Qed.

Lemma extractDependencies_js (content filePath languageId : string)
    (dep : CodebaseDependency) :
  isJsOrTs languageId = true ->
  In dep (extractDependencies h root content filePath languageId) ->
  resolved dep = resolveModulePath h root (module dep) filePath.
Proof.
  unfold extractDependencies. intros ->.
  intros H. apply in_app_or in H.
  destruct H as [H|H]; apply in_map_iff in H;
    destruct H as [mp [<- _]]; reflexivity.
Qed.

End Resolution.

(** ** Edge emission *)

Lemma fold_left_flat_map {A B C} (f : A -> C -> A) (g : B -> list C)
    (l : list B) (a : A) :
  fold_left f (flat_map g l) a
  = fold_left (fun acc x => fold_left f (g x) acc) l a.
Proof.
  revert a. induction l as [|x l IH]; intros a; simpl; [reflexivity|].
  now rewrite fold_left_app, IH.
Qed.

Lemma fold_left_filterMap {A B C} (f : A -> C -> A) (c : B -> option C)
    (l : list B) (a : A) :
  fold_left f (filterMap c l) a
  = fold_left (fun acc x => match c x with
                            | Some y => f acc y
                            | None => acc
                            end) l a.
Proof.
  revert a. induction l as [|x l IH]; intros a; simpl; [reflexivity|].
  destruct (c x); simpl; apply IH.
Qed.

Lemma fold_left_ext {A B} (f g : A -> B -> A) (l : list B) (a : A) :
  (forall acc x, f acc x = g acc x) -> fold_left f l a = fold_left g l a.
Proof.
  intros E. revert a. induction l as [|x l IH]; intros a; simpl; [reflexivity|].
  now rewrite E, IH.
Qed.

Lemma addEdge_candidate (names : JsMap string) (from : EdgeEnd)
    (edges : list Edge) (dep : CodebaseDependency) :
  addEdge names from edges dep
  = match candidateEdge names from dep with
    | Some e => pushEdge edges e
    | None => edges
    end.
Proof.
  unfold addEdge, candidateEdge, pushEdge.
  destruct (resolved dep) as [r|]; simpl; [|reflexivity].
  destruct (nonEmpty r && valid dep); [|reflexivity].
  destruct (mget r names) as [toNode|]; [|reflexivity].
  destruct (nonEmpty toNode); reflexivity.
Qed.

Lemma convertEdgeSources_pushEdge (g : Generator) :
  convertEdgeSources g = fold_left pushEdge (candidateEdges g) [].
Proof.
  unfold convertEdgeSources, candidateEdges.
  rewrite fold_left_flat_map.
  apply fold_left_ext. intros acc [filePath m].
  unfold moduleCandidates. cbn [fst snd].
  destruct (mget filePath (namesHashMap g)) as [fromNode|]; [|reflexivity].
  destruct (nonEmpty fromNode); [|reflexivity].
  rewrite fold_left_filterMap.
  apply fold_left_ext. intros acc' dep. apply addEdge_candidate.
Qed.

Lemma edgeExists_sameEnds (e : Edge) (edges : list Edge) :
  edgeExists (endNode (edgeFrom e)) (endNode (edgeTo e)) edges
  = existsb (fun c => sameEnds c e) edges.
Proof. reflexivity. Qed.

Lemma sameEnds_sym (a b : Edge) : sameEnds a b = sameEnds b a.
Proof.
  unfold sameEnds.
  now rewrite (String.eqb_sym (endNode (edgeFrom a))),
              (String.eqb_sym (endNode (edgeTo a))).
Qed.

Lemma sameEnds_key (a b : Edge) : sameEnds a b = true <-> edgeKey a = edgeKey b.
Proof.
  unfold sameEnds, edgeKey. rewrite andb_true_iff, !String.eqb_eq.
  split; [intros [-> ->]; reflexivity | intros E; now injection E].
Qed.

Lemma sameEnds_trans (a b c : Edge) :
  sameEnds a b = true -> sameEnds b c = sameEnds a c.
Proof.
  intros H. apply sameEnds_key in H.
  unfold sameEnds, edgeKey in *. injection H as -> ->. reflexivity.
Qed.

Lemma filter_filter_comm {A} (p q : A -> bool) (l : list A) :
  filter p (filter q l) = filter q (filter p l).
Proof.
  induction l as [|x l IH]; simpl; [reflexivity|].
  destruct (q x) eqn:Q, (p x) eqn:P; simpl; rewrite ?Q, ?P, IH; reflexivity.
Qed.

Lemma filter_absorb (q : Edge -> bool) (c : Edge) (l : list Edge) :
  respectsEnds q -> q c = false ->
  filter q (filter (fun x => negb (sameEnds c x)) l) = filter q l.
Proof.
  intros R Hc. induction l as [|x l IH]; simpl; [reflexivity|].
  destruct (sameEnds c x) eqn:S; simpl.
  - rewrite <- (R c x S), Hc. exact IH.
  - destruct (q x); now rewrite IH.
Qed.

Lemma keepFirst_filter (q : Edge -> bool) (l : list Edge) :
  respectsEnds q -> keepFirst (filter q l) = filter q (keepFirst l).
Proof.
  intros R. induction l as [|c l IH]; simpl; [reflexivity|].
  destruct (q c) eqn:Q; simpl.
  - rewrite IH. f_equal. apply filter_filter_comm.
  - rewrite IH. symmetry. now apply filter_absorb.
Qed.

Lemma freshFor_respects (acc : list Edge) : respectsEnds (freshFor acc).
Proof.
  intros a b H. unfold freshFor. f_equal.
  induction acc as [|c acc IH]; simpl; [reflexivity|].
  rewrite IH. f_equal.
  rewrite (sameEnds_sym c a), (sameEnds_sym c b).
  symmetry. now apply sameEnds_trans.
Qed.

Lemma freshFor_snoc (acc : list Edge) (e x : Edge) :
  freshFor (acc ++ [e]) x = freshFor acc x && negb (sameEnds e x).
Proof.
  unfold freshFor. rewrite existsb_app. simpl.
  rewrite orb_false_r, negb_orb. reflexivity.
Qed.

Lemma filter_andb {A} (p q : A -> bool) (l : list A) :
  filter (fun x => p x && q x) l = filter q (filter p l).
Proof.
  induction l as [|x l IH]; simpl; [reflexivity|].
  destruct (p x); simpl; [destruct (q x); now rewrite IH | exact IH].
Qed.

Lemma pushEdge_keepFirst (l acc : list Edge) :
  fold_left pushEdge l acc
  = (acc ++ keepFirst (filter (freshFor acc) l))%list.
Proof.
  revert acc. induction l as [|e l IH]; intros acc; simpl.
  - now rewrite app_nil_r.
  - unfold pushEdge at 2. rewrite edgeExists_sameEnds.
    unfold freshFor at 1.
    destruct (existsb (fun c => sameEnds c e) acc) eqn:E; simpl.
    + apply IH.
    + rewrite IH, <- app_assoc. simpl. do 2 f_equal.
      rewrite (filter_ext _ _ (freshFor_snoc acc e)).
      rewrite filter_andb.
      apply keepFirst_filter.
      intros a b H. f_equal.
      rewrite (sameEnds_sym e a), (sameEnds_sym e b).
      symmetry. now apply sameEnds_trans.
Qed.

Lemma convertEdgeSources_keepFirst (g : Generator) :
  convertEdgeSources g = keepFirst (candidateEdges g).
Proof.
  rewrite convertEdgeSources_pushEdge, pushEdge_keepFirst. simpl.
  f_equal. induction (candidateEdges g) as [|e l IH]; simpl; [reflexivity|].
  now rewrite IH.
Qed.

Lemma keepFirst_In (l : list Edge) (e : Edge) :
  In e (keepFirst l) -> In e l.
Proof.
  revert e. induction l as [|c l IH]; intros e; simpl; [tauto|].
  intros [H|H]; [now left|].
  apply filter_In in H. right. apply IH. tauto.
Qed.

Lemma keepFirst_keys_NoDup (l : list Edge) : NoDup (map edgeKey (keepFirst l)).
Proof.
  induction l as [|c l IH]; simpl; [constructor|].
  constructor.
  - intros H. apply in_map_iff in H. destruct H as [x [K Hx]].
    apply filter_In in Hx. destruct Hx as [_ Hx].
    symmetry in K. apply sameEnds_key in K. rewrite K in Hx. discriminate Hx.
  - clear -IH. induction (keepFirst l) as [|x k IHk]; simpl; [constructor|].
    inversion IH as [|? ? Hx Hk]; subst.
    destruct (negb (sameEnds c x)); simpl; [|now apply IHk].
    constructor; [|now apply IHk].
    intros H. apply Hx. apply in_map_iff in H. destruct H as [y [K Hy]].
    apply in_map_iff. exists y. split; [exact K|].
    apply filter_In in Hy. tauto.
Qed.

Lemma keepFirst_covers (l : list Edge) (c : Edge) :
  In c l -> exists e, In e (keepFirst l) /\ edgeKey e = edgeKey c.
Proof.
  induction l as [|x l IH]; simpl; [tauto|].
  intros [->|H].
  - exists c. split; [now left | reflexivity].
  - destruct (IH H) as [e [He K]].
    destruct (sameEnds x e) eqn:S.
    + exists x. split; [now left|].
      apply sameEnds_key in S. congruence.
    + exists e. split; [|exact K].
      right. apply filter_In. split; [exact He|]. now rewrite S.
Qed.

(** The kept edge is the first candidate between its two nodes. *)
Lemma keepFirst_first (l : list Edge) (e : Edge) :
  In e (keepFirst l) ->
  exists before after,
    l = (before ++ e :: after)%list /\
    forall c, In c before -> edgeKey c <> edgeKey e.
Proof.
  revert e. induction l as [|x l IH]; intros e; simpl; [tauto|].
  intros [->|H].
  - exists [], l. split; [reflexivity | intros c []].
  - apply filter_In in H. destruct H as [H S].
    destruct (IH e H) as [before [after [-> Hb]]].
    exists (x :: before), after. split; [reflexivity|].
    intros c [<-|Hc]; [|now apply Hb].
    intros K. apply sameEnds_key in K. rewrite K in S. discriminate S.
Qed.

(** ** Edge styles *)

Section EdgeStyles.

Variable g : Generator.

Lemma edgeStylesLoop_spec (edges : list Edge) (styles : string) (i : nat) :
  edgeStylesLoop g edges (styles, i)
  = (styles ++ precededLines (styleDirectivesFrom g i edges),
     i + List.length edges).
Proof.
  revert styles i. induction edges as [|e more IH]; intros styles i.
  - simpl. now rewrite string_app_nil_r, Nat.add_0_r.
  - unfold edgeStylesLoop in *. cbn [fold_left].
    rewrite IH. cbn [styleDirectivesFrom precededLines List.length].
    unfold styleDirective.
    rewrite !string_app_assoc. f_equal. lia.
Qed.

Lemma renderEdgeStyles_spec (edges : list Edge) :
  renderEdgeStyles g edges = precededLines (styleDirectives g edges).
Proof.
  unfold renderEdgeStyles. now rewrite edgeStylesLoop_spec.
Qed.

Lemma styleDirectivesFrom_length (edges : list Edge) (i : nat) :
  List.length (styleDirectivesFrom g i edges) = List.length edges.
Proof.
  revert i. induction edges as [|e more IH]; intros i; simpl;
    [reflexivity | now rewrite IH].
Qed.

Lemma styleDirectivesFrom_nth (edges : list Edge) (i k : nat) (e : Edge) :
  nth_error edges k = Some e ->
  nth_error (styleDirectivesFrom g i edges) k = Some (styleDirective g (i + k) e).
Proof.
  revert i k. induction edges as [|x more IH]; intros i k H.
  - destruct k; discriminate H.
  - destruct k as [|k]; simpl in *.
    + injection H as ->. now rewrite Nat.add_0_r.
    + rewrite (IH (S i) k H). do 2 f_equal. lia.
Qed.

End EdgeStyles.

Lemma digitChar_not_newline (d : nat) : d < 36 -> Ascii.eqb (digitChar d) "010" = false.
Proof.
  intros H.
  do 36 (destruct d as [|d]; [reflexivity|]).
  lia.
Qed.

Lemma digitsRadix_no_newline (fuel radix n : nat) (acc : string) :
  0 < radix -> radix <= 36 ->
  hasChar "010" acc = false ->
  hasChar "010" (digitsRadix fuel radix n acc) = false.
Proof.
  intros Hr0 Hr. revert n acc.
  induction fuel as [|fuel IH]; intros n acc Hacc; simpl; [exact Hacc|].
  assert (D : hasChar "010" (String (digitChar (Nat.modulo n radix)) acc) = false).
  { simpl. rewrite Hacc, digitChar_not_newline; [reflexivity|].
    pose proof (Nat.mod_upper_bound n radix). lia. }
  destruct (Nat.eqb (Nat.div n radix) 0); [exact D | now apply IH].
Qed.

Lemma natToString_no_newline (n : nat) : hasChar "010" (natToString n) = false.
Proof.
  unfold natToString, toStringRadix.
  apply digitsRadix_no_newline; [lia | lia | reflexivity].
Qed.

Lemma edgeStyleSuffix_no_newline (g : Generator) (e : Edge) :
  hasChar "010" (edgeStyleSuffix g e) = false.
Proof.
  unfold edgeStyleSuffix.
  destruct (mget (endNode (edgeFrom e)) (nodeIdToModule g)) as [fm|];
    [|reflexivity].
  destruct (mget (endNode (edgeTo e)) (nodeIdToModule g)) as [tm|];
    [|reflexivity].
  destruct (classifyEdge _ _ _ _); reflexivity.
Qed.

Lemma styleDirective_no_newline (g : Generator) (i : nat) (e : Edge) :
  hasChar "010" (styleDirective g i e) = false.
Proof.
  unfold styleDirective.
  rewrite !hasChar_app, natToString_no_newline, edgeStyleSuffix_no_newline.
  reflexivity.
Qed.

Lemma splitOn_precededLines (lines : list string) :
  (forall l, In l lines -> hasChar "010" l = false) ->
  splitOn "010" (precededLines lines) = "" :: lines.
Proof.
  induction lines as [|l more IH]; intros H; [reflexivity|].
  cbn [precededLines]. unfold newline.
  change (String "010" "" ++ l ++ precededLines more)
    with (String "010" (l ++ precededLines more)).
  cbn [splitOn]. rewrite Ascii.eqb_refl. f_equal.
  rewrite splitOn_app_free by (apply H; now left).
  rewrite IH by (intros x Hx; apply H; now right).
  now rewrite string_app_nil_r.
Qed.

Lemma styleDirectivesFrom_no_newline (g : Generator) (edges : list Edge) (i : nat) :
  forall l, In l (styleDirectivesFrom g i edges) -> hasChar "010" l = false.
Proof.
  revert i. induction edges as [|e more IH]; intros i l; simpl; [tauto|].
  intros [<-|H]; [apply styleDirective_no_newline | now apply (IH (S i))].
Qed.

(** ** The rendered text *)

Lemma insertPath_plain (names : JsMap string) (paths remaining : list string)
    (index : nat) (children : Subgraphs) :
  (forall seg, In seg remaining -> memberOf seg objectPrototypeKeys = false) ->
  exists tree, insertPath names paths index remaining children = Some tree.
Proof.
  revert index children.
  induction remaining as [|seg more IH]; intros index children Hplain.
  - now exists children.
  - cbn [insertPath]. unfold getProperty.
    assert (Hmore : forall s, In s more -> memberOf s objectPrototypeKeys = false)
      by (intros s Hs; apply Hplain; now right).
    destruct (mget seg children) as [[nd txt sub]|].
    + destruct (IH (S index) sub Hmore) as [t ->]. eauto.
    + rewrite (Hplain seg (or_introl eq_refl)).
      destruct (IH (S index) [] Hmore) as [t ->]. eauto.
Qed.

(** Rendering succeeds unless a path segment names a property of
    [Object.prototype]. *)
Lemma generate_plain (ms : ModuleMap) (root : string) (mini : bool) :
  (forall k m seg, In (k, m) ms -> In seg (segments (relativePath m)) ->
                   memberOf seg objectPrototypeKeys = false) ->
  exists text, snd (generate (newGenerator ms root mini)) = Some text.
Proof.
  intros Hplain. unfold generate.
  set (g := hashModuleNames (newGenerator ms root mini)).
  assert (E : exists tree, convertSubgraphSources g = Some tree).
  { unfold convertSubgraphSources.
    assert (M : modules g = ms).
    { unfold g, hashModuleNames. cbn [modules newGenerator].
      destruct (assignIds _ _ _) as [n c].
      destruct (mapAbsolutePaths _ _) as [n' b]. reflexivity. }
    rewrite M. generalize (namesHashMap g). intros names.
    assert (G : forall (l : list CodebaseModule) (t : Subgraphs),
               (forall m seg, In m l -> In seg (segments (relativePath m)) ->
                              memberOf seg objectPrototypeKeys = false) ->
               exists tree,
                 fold_left
                   (fun acc m =>
                      match acc with
                      | Some tree =>
                          let paths := segments (relativePath m) in
                          insertPath names paths 0 paths tree
                      | None => None
                      end) l (Some t) = Some tree).
    { induction l as [|m l IH]; intros t Hl; [now exists t|].
      cbn [fold_left].
      destruct (insertPath_plain names (segments (relativePath m))
                  (segments (relativePath m)) 0 t) as [t' E'].
      { intros seg Hs. apply (Hl m seg); [now left | exact Hs]. }
      cbv zeta. rewrite E'. apply IH.
      intros m' seg Hm'. apply Hl. now right. }
    apply G. intros m seg Hm Hs. unfold mvalues in Hm.
    apply in_map_iff in Hm. destruct Hm as [[k m'] [<- Hin]].
    now apply (Hplain k m' seg). }
  destruct E as [tree ->]. eexists. reflexivity.
Qed.

Lemma hashModuleNames_fields (g : Generator) :
  modules (hashModuleNames g) = modules g /\
  workspaceRoot (hashModuleNames g) = workspaceRoot g /\
  minify (hashModuleNames g) = minify g.
Proof.
  unfold hashModuleNames.
  destruct (assignIds _ _ _) as [n c].
  destruct (mapAbsolutePaths _ _) as [n' b]. repeat split.
Qed.

Lemma generate_text (g0 : Generator) (text : string) :
  snd (generate g0) = Some text ->
  let g := hashModuleNames g0 in
  exists subgraphs,
    convertSubgraphSources g = Some subgraphs /\
    text = "flowchart LR" ++ newline ++ newline
           ++ renderClassDefinitions ++ newline
           ++ renderSubgraphs (minify g0) subgraphs 0 ++ newline
           ++ join newline (map edgeLine (convertEdgeSources g)) ++ newline
           ++ renderNodeStyles g ++ newline
           ++ precededLines (styleDirectives g (convertEdgeSources g)).
Proof.
  intros H g. unfold generate in H. fold g in H.
  destruct (convertSubgraphSources g) as [tree|]; [|discriminate H].
  exists tree. split; [reflexivity|].
  cbn [snd] in H. injection H as <-.
  rewrite renderEdgeStyles_spec.
  destruct (hashModuleNames_fields g0) as [_ [_ M]].
  unfold g. rewrite M. reflexivity.
Qed.

(** ** Dependencies that ask for no edge do not show in the text *)

Lemma fold_left_map {A B C} (f : A -> C -> A) (p : B -> C) (l : list B) (a : A) :
  fold_left f (map p l) a = fold_left (fun acc x => f acc (p x)) l a.
Proof.
  revert a. induction l as [|x l IH]; intros a; simpl; [reflexivity | apply IH].
Qed.

Lemma fold_left_filter_noop {A B} (f : A -> B -> A) (keep : B -> bool)
    (l : list B) (a : A) :
  (forall x acc, In x l -> keep x = false -> f acc x = acc) ->
  fold_left f (filter keep l) a = fold_left f l a.
Proof.
  revert a. induction l as [|x l IH]; intros a H; simpl; [reflexivity|].
  destruct (keep x) eqn:K; simpl.
  - apply IH. intros y acc Hy. apply H. now right.
  - rewrite (H x a (or_introl eq_refl) K).
    apply IH. intros y acc Hy. apply H. now right.
Qed.

Section Prune.

Variable keep : CodebaseDependency -> bool.

Lemma mset_pruneMap (k : string) (m : CodebaseModule) (b : JsMap CodebaseModule) :
  mset k (keepDependencies keep m) (pruneMap keep b) = pruneMap keep (mset k m b).
Proof.
  induction b as [|[k' v] b IH]; simpl; [reflexivity|].
  destruct (k' =? k); simpl; [reflexivity | now rewrite IH].
Qed.

Lemma mget_pruneMap (k : string) (b : JsMap CodebaseModule) :
  mget k (pruneMap keep b) = option_map (keepDependencies keep) (mget k b).
Proof.
  induction b as [|[k' v] b IH]; simpl; [reflexivity|].
  destruct (k' =? k); [reflexivity | exact IH].
Qed.

Lemma collectPaths_pruneMap (ms : ModuleMap) :
  collectPaths (pruneMap keep ms) = collectPaths ms.
Proof.
  unfold collectPaths, mvalues, pruneMap.
  rewrite !map_map, !fold_left_map. reflexivity.
Qed.

Lemma mapAbsolutePaths_pruneMap (ms : ModuleMap) (names : JsMap string)
    (byId : JsMap CodebaseModule) :
  mapAbsolutePaths (pruneMap keep ms) (names, pruneMap keep byId)
  = (fst (mapAbsolutePaths ms (names, byId)),
     pruneMap keep (snd (mapAbsolutePaths ms (names, byId)))).
Proof.
  revert names byId. induction ms as [|[k m] ms IH]; intros names byId;
    [reflexivity|].
  unfold mapAbsolutePaths in *. cbn [pruneMap map fold_left fst snd].
  cbn [keepDependencies relativePath].
  destruct (mget (relativePath m) names) as [hashedId|]; [|apply IH].
  destruct (nonEmpty hashedId); [|apply IH].
  rewrite mset_pruneMap. apply IH.
Qed.

Lemma hashModuleNames_pruneMap (ms : ModuleMap) (root : string) (mini : bool) :
  let g := hashModuleNames (newGenerator ms root mini) in
  hashModuleNames (newGenerator (pruneMap keep ms) root mini)
  = {| modules := pruneMap keep ms;
       workspaceRoot := root;
       namesHashMap := namesHashMap g;
       minify := mini;
       nodeIdToModule := pruneMap keep (nodeIdToModule g) |}.
Proof.
  unfold hashModuleNames. cbn [modules namesHashMap minify nodeIdToModule
                                 workspaceRoot newGenerator].
  rewrite collectPaths_pruneMap.
  destruct (assignIds mini (collectPaths ms) []) as [names c].
  pose proof (mapAbsolutePaths_pruneMap ms names []) as E.
  change (pruneMap keep []) with (@nil (string * CodebaseModule)) in E.
  rewrite E.
  destruct (mapAbsolutePaths ms _) as [names' byId].
  reflexivity.
Qed.

Variable ms : ModuleMap.
Variable root : string.
Variable mini : bool.

Let g := hashModuleNames (newGenerator ms root mini).
Let g' := hashModuleNames (newGenerator (pruneMap keep ms) root mini).

(** The records left out are those the edge loop passes over. *)
Hypothesis dropped_ask_nothing :
  forall k m dep, In (k, m) ms -> In dep (dependencies m) -> keep dep = false ->
    forall from edges, addEdge (namesHashMap g) from edges dep = edges.

Lemma pruned_names : namesHashMap g' = namesHashMap g.
Proof. unfold g'. now rewrite hashModuleNames_pruneMap. Qed.

Lemma pruned_modules : modules g' = pruneMap keep ms /\ modules g = ms.
Proof.
  unfold g', g. rewrite hashModuleNames_pruneMap. split; [reflexivity|].
  apply (hashModuleNames_fields (newGenerator ms root mini)).
Qed.

Lemma pruned_byId : nodeIdToModule g' = pruneMap keep (nodeIdToModule g).
Proof. unfold g'. now rewrite hashModuleNames_pruneMap. Qed.

Lemma pruned_subgraphs : convertSubgraphSources g' = convertSubgraphSources g.
Proof.
  unfold convertSubgraphSources.
  destruct pruned_modules as [-> ->]. rewrite pruned_names.
  unfold mvalues, pruneMap. rewrite !map_map, !fold_left_map. reflexivity.
Qed.

Lemma pruned_edges : convertEdgeSources g' = convertEdgeSources g.
Proof.
  unfold convertEdgeSources.
  destruct pruned_modules as [-> ->]. rewrite pruned_names.
  unfold pruneMap. rewrite fold_left_map.
  assert (G : forall (l : ModuleMap) (acc : list Edge),
             (forall k m, In (k, m) l -> In (k, m) ms) ->
             fold_left
               (fun edges x =>
                  let '(filePath, m0) :=
                    (fst x, keepDependencies keep (snd x)) in
                  match mget filePath (namesHashMap g) with
                  | Some fromNode =>
                      if nonEmpty fromNode then
                        fold_left
                          (addEdge (namesHashMap g)
                             {| endNode := fromNode;
                                endText := path_basename (relativePath m0) |})
                          (dependencies m0) edges
                      else edges
                  | None => edges
                  end) l acc
             = fold_left
                 (fun edges entry =>
                    let '(filePath, m0) := entry in
                    match mget filePath (namesHashMap g) with
                    | Some fromNode =>
                        if nonEmpty fromNode then
                          fold_left
                            (addEdge (namesHashMap g)
                               {| endNode := fromNode;
                                  endText := path_basename (relativePath m0) |})
                            (dependencies m0) edges
                        else edges
                    | None => edges
                    end) l acc).
  { induction l as [|[k m] l IH]; intros acc Hl; [reflexivity|].
    cbn [fold_left fst snd keepDependencies relativePath dependencies].
    rewrite <- IH by (intros k' m' H'; apply Hl; now right).
    f_equal.
    destruct (mget k (namesHashMap g)) as [fromNode|]; [|reflexivity].
    destruct (nonEmpty fromNode); [|reflexivity].
    apply fold_left_filter_noop.
    intros dep acc' Hdep K.
    apply (dropped_ask_nothing k m dep); auto. apply Hl. now left. }
  apply G. auto.
Qed.

Lemma pruned_nodeStyles : renderNodeStyles g' = renderNodeStyles g.
Proof.
  unfold renderNodeStyles. rewrite pruned_byId.
  unfold pruneMap. rewrite fold_left_map. reflexivity.
Qed.

Lemma pruned_suffix (e : Edge) : edgeStyleSuffix g' e = edgeStyleSuffix g e.
Proof.
  unfold edgeStyleSuffix. rewrite pruned_byId, !mget_pruneMap.
  destruct (mget (endNode (edgeFrom e)) (nodeIdToModule g)); [|reflexivity].
  destruct (mget (endNode (edgeTo e)) (nodeIdToModule g)); reflexivity.
Qed.

Lemma pruned_edgeStyles (edges : list Edge) :
  renderEdgeStyles g' edges = renderEdgeStyles g edges.
Proof.
  rewrite !renderEdgeStyles_spec. unfold styleDirectives.
  generalize 0. induction edges as [|e more IH]; intros i; [reflexivity|].
  cbn [styleDirectivesFrom precededLines]. unfold styleDirective.
  now rewrite pruned_suffix, IH.
Qed.

(** Leaving the records out changes nothing in the rendered text. *)
Lemma generate_pruned :
  snd (generate (newGenerator (pruneMap keep ms) root mini))
  = snd (generate (newGenerator ms root mini)).
Proof.
  unfold generate. fold g g'.
  rewrite pruned_subgraphs.
  destruct (convertSubgraphSources g) as [tree|]; [|reflexivity].
  cbn [snd].
  rewrite pruned_edges, pruned_nodeStyles, pruned_edgeStyles.
  destruct (hashModuleNames_fields (newGenerator ms root mini)) as [_ [_ M]].
  destruct (hashModuleNames_fields (newGenerator (pruneMap keep ms) root mini))
    as [_ [_ M']].
  fold g in M. fold g' in M'. rewrite M, M'. reflexivity.
Qed.

End Prune.

Lemma addEdge_unresolved (names : JsMap string) (from : EdgeEnd)
    (edges : list Edge) (dep : CodebaseDependency) :
  resolved dep = None -> addEdge names from edges dep = edges.
Proof. intros H. unfold addEdge. now rewrite H. Qed.

Lemma generate_without_unresolved (ms : ModuleMap) (root : string) (mini : bool) :
  snd (generate (newGenerator (pruneMap isResolved ms) root mini))
  = snd (generate (newGenerator ms root mini)).
Proof.
  apply generate_pruned.
  intros k m dep _ _ K from edges. apply addEdge_unresolved.
  unfold isResolved in K. now destruct (resolved dep).
Qed.

(** ** Claims on import resolution *)

(** C5.  A JavaScript or TypeScript import path that begins neither with
    a dot nor with a slash is external: resolution returns none and hands
    no path to the file system; every dependency record extracted for
    such a path has no resolved path and is not valid; the edge loop
    passes over a record without resolved path; and the rendered text is
    the text of the same map with all such records left out. *)
Theorem external_module_short_circuit (h : Host) (root modulePath : string) :
  startsWith modulePath "." = false ->
  startsWith modulePath "/" = false ->
  (forall fromFile,
      resolveModulePathTraced h root modulePath fromFile = (None, []))
  /\ (forall content filePath languageId dep,
        isJsOrTs languageId = true ->
        In dep (extractDependencies h root content filePath languageId) ->
        module dep = modulePath ->
        resolved dep = None /\ valid dep = false)
  /\ (forall names from edges dep,
        resolved dep = None -> addEdge names from edges dep = edges)
  /\ (forall ms root' mini,
        snd (generate (newGenerator (pruneMap isResolved ms) root' mini))
        = snd (generate (newGenerator ms root' mini))).
Proof.
  intros Hdot Hslash.
  split; [|split; [|split]].
  - intros fromFile. now apply resolveModulePath_external.
  - intros content filePath languageId dep Hjs Hin Hmod.
    assert (R : resolved dep = None).
    { rewrite (extractDependencies_js h root _ _ _ dep Hjs Hin), Hmod.
      unfold resolveModulePath.
      now rewrite resolveModulePath_external. }
    split; [exact R|].
    now rewrite (extractDependencies_valid h root _ _ _ dep Hin), R.
  - intros names from edges dep. apply addEdge_unresolved.
  - intros ms root' mini. apply generate_without_unresolved.
Qed.

Lemma external_module_short_circuit_witness :
  extractDependencies sampleHost "/ws"
    ("import lodash from " ++ dquote ++ "lodash" ++ dquote)
    "/ws/src/a.ts" "typescript"
  = [mkDependency "lodash" None "import"]
  /\ resolveModulePathTraced sampleHost "/ws" "lodash" "/ws/src/a.ts" = (None, []).
Proof.
  split; [vm_compute; reflexivity|].
  apply (proj1 (external_module_short_circuit sampleHost "/ws" "lodash"
                  eq_refl eq_refl)).
Defined.

Lemma nth_error_map_inv {A B} (f : A -> B) (l : list A) (n : nat) (y : B) :
  nth_error (map f l) n = Some y ->
  exists x, nth_error l n = Some x /\ y = f x.
Proof.
  rewrite nth_error_map. destruct (nth_error l n) as [x|]; simpl; intros H.
  - injection H as <-. now exists x.
  - discriminate H.
Qed.

(** C6.  For an import path that begins with a dot or a slash, let
    [base] be the path it denotes.  The file candidates are [base]
    followed by nothing, .js, .ts, .jsx, .tsx, .mjs, .cjs, in this order,
    and the first one that is an existing regular file is the result,
    the later ones not being looked at.  Only when none is are the
    index candidates index.js, index.ts, index.jsx, index.tsx inside
    [base] tried, in this order, the first that exists being the result;
    when none exists the result is none. *)
Theorem resolution_order (h : Host) (root modulePath fromFile : string) :
  startsWith modulePath "." || startsWith modulePath "/" = true ->
  let base := moduleBase h root modulePath fromFile in
  let fileCandidates :=
    map (append base) [""; ".js"; ".ts"; ".jsx"; ".tsx"; ".mjs"; ".cjs"] in
  let indexCandidates :=
    map (fun i => path_join [base; i])
        ["index.js"; "index.ts"; "index.jsx"; "index.tsx"] in
  (forall n c,
      nth_error fileCandidates n = Some c ->
      existsFile h c = true ->
      (forall k c', k < n -> nth_error fileCandidates k = Some c' ->
                    existsFile h c' = false) ->
      resolveModulePathTraced h root modulePath fromFile
      = (Some c, firstn (S n) fileCandidates))
  /\ ((forall c, In c fileCandidates -> existsFile h c = false) ->
      (forall n c,
          nth_error indexCandidates n = Some c ->
          existsSync h c = true ->
          (forall k c', k < n -> nth_error indexCandidates k = Some c' ->
                        existsSync h c' = false) ->
          resolveModulePathTraced h root modulePath fromFile
          = (Some c, (fileCandidates ++ firstn (S n) indexCandidates)%list))
      /\ ((forall c, In c indexCandidates -> existsSync h c = false) ->
          resolveModulePathTraced h root modulePath fromFile
          = (None, (fileCandidates ++ indexCandidates)%list))).
Proof.
  intros Hrel base fileCandidates indexCandidates.
  assert (G : negb (startsWith modulePath ".") && negb (startsWith modulePath "/")
              = false).
  { apply orb_true_iff in Hrel. destruct Hrel as [-> | ->];
      [reflexivity | apply andb_false_r]. }
  unfold resolveModulePathTraced. rewrite G. fold base.
  change extensions with [""; ".js"; ".ts"; ".jsx"; ".tsx"; ".mjs"; ".cjs"].
  change indexExtensions with ["index.js"; "index.ts"; "index.jsx"; "index.tsx"].
  split; [|intros Hnone; split].
  - intros n c Hn Hyes Hno.
    apply nth_error_map_inv in Hn. destruct Hn as [ext [Hn ->]].
    rewrite (tryExtensions_hit h base _ n ext Hn Hyes).
    + unfold fileCandidates. now rewrite firstn_map.
    + intros k e Hk He. apply (Hno k); [exact Hk|].
      unfold fileCandidates. now apply map_nth_error.
  - intros n c Hn Hyes Hno.
    rewrite tryExtensions_miss.
    + apply nth_error_map_inv in Hn. destruct Hn as [i [Hn ->]].
      rewrite (tryIndexFiles_hit h base _ n i Hn Hyes).
      * unfold indexCandidates. now rewrite firstn_map.
      * intros k e Hk He. apply (Hno k); [exact Hk|].
        unfold indexCandidates.
        now apply (map_nth_error (fun i => path_join [base; i])).
    + intros ext He. apply Hnone. unfold fileCandidates. now apply in_map.
  - intros Hnoidx.
    rewrite tryExtensions_miss.
    + rewrite tryIndexFiles_miss; [reflexivity|].
      intros i Hi. apply Hnoidx. unfold indexCandidates.
      now apply (in_map (fun i => path_join [base; i])).
    + intros ext He. apply Hnone. unfold fileCandidates. now apply in_map.
Qed.

(** The scenario of C6: [./shared/lib] is a directory holding index.ts,
    and there is no file shared/lib.ts. *)
Lemma resolution_order_witness :
  resolveModulePathTraced sampleHost "/ws" "./shared/lib" "/ws/src/a.ts"
  = (Some "/ws/src/shared/lib/index.ts",
     ["/ws/src/shared/lib"; "/ws/src/shared/lib.js"; "/ws/src/shared/lib.ts";
      "/ws/src/shared/lib.jsx"; "/ws/src/shared/lib.tsx";
      "/ws/src/shared/lib.mjs"; "/ws/src/shared/lib.cjs";
      "/ws/src/shared/lib/index.js"; "/ws/src/shared/lib/index.ts"]).
Proof.
  destruct (resolution_order sampleHost "/ws" "./shared/lib" "/ws/src/a.ts"
              eq_refl) as [_ H].
  assert (Hnone : forall c,
             In c (map (append (moduleBase sampleHost "/ws" "./shared/lib"
                                  "/ws/src/a.ts"))
                       [""; ".js"; ".ts"; ".jsx"; ".tsx"; ".mjs"; ".cjs"]) ->
             existsFile sampleHost c = false).
  { intros c Hc. vm_compute in Hc.
    repeat (destruct Hc as [<-|Hc]; [vm_compute; reflexivity|]).
    destruct Hc. }
  destruct (H Hnone) as [Hidx _].
  rewrite (Hidx 1 "/ws/src/shared/lib/index.ts").
  - vm_compute. reflexivity.
  - vm_compute. reflexivity.
  - vm_compute. reflexivity.
  - intros k c' Hk Hc'. destruct k as [|k]; [|lia].
    vm_compute in Hc'. injection Hc' as <-. vm_compute. reflexivity.
Defined.

(** C1, as amended.  The candidate module of [from utils import helper]
    is [utils]; a Python module name that holds no path separator is
    passed over as standard library or external: resolution returns none
    without handing any path to the file system, so the one dependency
    record extracted has no resolved path and is not valid, whatever
    files exist. *)
Theorem python_bare_import_is_skipped (h : Host) (root fromFile : string) :
  (forall modulePath,
      includes modulePath "/" = false ->
      includes modulePath backslash = false ->
      resolvePythonModuleTraced h root modulePath fromFile = (None, []))
  /\ extractDependencies h root "from utils import helper" fromFile "python"
     = [{| module := "utils"; resolved := None;
           dependencyTypes := ["import"]; valid := false |}].
Proof.
  split.
  - intros modulePath. apply resolvePythonModule_bare.
  - unfold extractDependencies.
    change (isJsOrTs "python") with false.
    change ("python" =? "python") with true. cbv iota.
    change (matchAll pythonImportRegex "from utils import helper")
      with ["utils"].
    cbn [map]. change (pythonModuleName "utils") with "utils".
    unfold mkDependency, resolvePythonModule.
    now rewrite resolvePythonModule_bare.
Qed.

Lemma python_bare_import_is_skipped_witness :
  resolvePythonModuleTraced sampleHost "/ws" "utils" "/ws/pkg/mod.py" = (None, []).
Proof.
  apply (proj1 (python_bare_import_is_skipped sampleHost "/ws" "/ws/pkg/mod.py"));
    reflexivity.
Defined.

(** C1 as stated fails: pkg/utils.py exists as a regular file, and the
    dependency extracted from pkg/mod.py is neither resolved to it nor
    valid. *)
Lemma python_sibling_import_unresolved :
  existsFile sampleHost "/ws/pkg/utils.py" = true /\
  option_map dependencies (analyzeFile sampleHost "/ws" "/ws/pkg/mod.py")
  = Some [{| module := "utils"; resolved := None;
             dependencyTypes := ["import"]; valid := false |}] /\
  ~ (exists m dep,
        analyzeFile sampleHost "/ws" "/ws/pkg/mod.py" = Some m /\
        In dep (dependencies m) /\
        resolved dep = Some "/ws/pkg/utils.py" /\ valid dep = true).
Proof.
  split; [vm_compute; reflexivity|].
  split; [vm_compute; reflexivity|].
  intros [m [dep [Hm [Hdep [Hres _]]]]].
  vm_compute in Hm. injection Hm as <-.
  cbn [dependencies] in Hdep. destruct Hdep as [<-|[]].
  discriminate Hres.
Qed.

(** ** Insertion-ordered maps *)

Lemma fold_left_invariant {A B} (P : A -> Prop) (f : A -> B -> A)
    (l : list B) (a : A) :
  P a ->
  (forall acc x, In x l -> P acc -> P (f acc x)) ->
  P (fold_left f l a).
Proof.
  revert a. induction l as [|x l IH]; intros a Ha Hstep; simpl; [exact Ha|].
  apply IH.
  - apply Hstep; [now left | exact Ha].
  - intros acc y Hy. apply Hstep. now right.
Qed.

Lemma memberOf_In (x : string) (l : list string) :
  memberOf x l = true <-> In x l.
Proof.
  unfold memberOf. rewrite existsb_exists. split.
  - intros [y [Hy E]]. apply String.eqb_eq in E. now subst.
  - intros H. exists x. split; [exact H | apply String.eqb_refl].
Qed.

Lemma mhas_In {V} (k : string) (m : JsMap V) :
  mhas k m = true <-> In k (mkeys m).
Proof.
  unfold mhas, mkeys. induction m as [|[k' v] m IH]; simpl.
  - split; [discriminate | tauto].
  - destruct (String.eqb_spec k' k) as [->|N].
    + split; [now left | reflexivity].
    + rewrite IH. split; [now right | intros [E|H]; [contradiction | exact H]].
Qed.

Lemma mget_In {V} (k : string) (v : V) (m : JsMap V) :
  mget k m = Some v -> In (k, v) m.
Proof.
  induction m as [|[k' v'] m IH]; simpl; [discriminate|].
  destruct (String.eqb_spec k' k) as [->|N].
  - intros H. injection H as ->. now left.
  - intros H. right. now apply IH.
Qed.

Lemma mget_None {V} (k : string) (m : JsMap V) :
  mget k m = None <-> ~ In k (mkeys m).
Proof.
  rewrite <- mhas_In. unfold mhas. destruct (mget k m); split; intros H.
  - discriminate H.
  - now contradiction H.
  - intros X. discriminate X.
  - reflexivity.
Qed.

Lemma mkeys_mupdate {V} (k : string) (f : V -> V) (m : JsMap V) :
  mkeys (mupdate k f m) = mkeys m.
Proof.
  unfold mkeys. induction m as [|[k' v] m IH]; simpl; [reflexivity|].
  destruct (k' =? k); simpl; [reflexivity | now rewrite IH].
Qed.

Lemma In_mupdate {V} (k r : string) (v : V) (f : V -> V) (m : JsMap V) :
  In (k, v) (mupdate r f m) ->
  In (k, v) m \/ (k = r /\ exists old, In (r, old) m /\ v = f old).
Proof.
  induction m as [|[k' v'] m IH]; simpl; [tauto|].
  destruct (String.eqb_spec k' r) as [->|N]; simpl.
  - intros [E|H]; [|now left; right].
    injection E as <- <-. right. split; [reflexivity|].
    exists v'. split; [now left | reflexivity].
  - intros [E|H]; [now left; left|].
    destruct (IH H) as [H'|[-> [old [Ho ->]]]]; [now left; right|].
    right. split; [reflexivity|]. exists old. split; [now right | reflexivity].
Qed.

Lemma mkeys_mset {V} (k : string) (v : V) (m : JsMap V) :
  forall x, In x (mkeys (mset k v m)) <-> x = k \/ In x (mkeys m).
Proof.
  unfold mkeys. induction m as [|[k' v'] m IH]; intros x; simpl.
  - split; [intros [E|[]]; now left | intros [E|[]]; now left].
  - destruct (String.eqb_spec k' k) as [->|N]; simpl.
    + split; [intros [E|H]; auto | intros [E|[E|H]]; auto].
    + rewrite IH. split; [intros [E|[E|H]]; auto | intros [E|[E|H]]; auto].
Qed.

Lemma In_mset {V} (k k' : string) (v v' : V) (m : JsMap V) :
  In (k, v) (mset k' v' m) -> (k = k' /\ v = v') \/ In (k, v) m.
Proof.
  induction m as [|[k0 v0] m IH]; simpl.
  - intros [E|[]]. injection E as <- <-. now left.
  - destruct (k0 =? k'); simpl.
    + intros [E|H]; [injection E as <- <-; now left | now right; right].
    + intros [E|H]; [now right; left|].
      destruct (IH H) as [H'|H']; [now left | now right; right].
Qed.

(** ** Paths: what is absolute and what is not *)

Lemma splitOn_free (c : ascii) (p s : string) :
  In s (splitOn c p) -> hasChar c s = false.
Proof.
  revert s. induction p as [|a p IH]; intros s; simpl.
  - intros [<-|[]]. reflexivity.
  - destruct (Ascii.eqb a c) eqn:E.
    + intros [<-|H]; [reflexivity | now apply IH].
    + destruct (splitOn c p) as [|w ws] eqn:S.
      * intros [<-|[]]. simpl. now rewrite E.
      * intros [<-|H].
        -- simpl. rewrite E. apply IH. now left.
        -- apply IH. now right.
Qed.

Lemma segments_spec (p s : string) :
  In s (segments p) -> nonEmpty s = true /\ hasChar sepChar s = false.
Proof.
  unfold segments. intros H. apply filter_In in H. destruct H as [H N].
  split; [exact N | now apply (splitOn_free sepChar p)].
Qed.

Lemma isAbsolute_cons (a : ascii) (s : string) :
  isAbsolute (String a s) = Ascii.eqb a sepChar.
Proof.
  unfold isAbsolute, startsWith. cbn [String.prefix].
  destruct (ascii_dec "/" a) as [<-|N].
  - now destruct s.
  - symmetry. apply Ascii.eqb_neq. intros E. apply N. now rewrite E.
Qed.

(** A non-empty name without separator is not absolute. *)
Lemma plain_not_absolute (s : string) :
  hasChar sepChar s = false -> isAbsolute s = false.
Proof.
  destruct s as [|a s]; [reflexivity|].
  rewrite isAbsolute_cons. cbn [hasChar].
  intros H. apply orb_false_iff in H. tauto.
Qed.

Lemma isAbsolute_app (s t : string) :
  nonEmpty s = true -> isAbsolute (s ++ t) = isAbsolute s.
Proof.
  destruct s as [|a s]; [discriminate|]. intros _.
  cbn [append]. now rewrite !isAbsolute_cons.
Qed.

Lemma isAbsolute_nonEmpty (s : string) : isAbsolute s = true -> nonEmpty s = true.
Proof. destruct s; [discriminate | reflexivity]. Qed.

Lemma join_not_absolute (l : list string) :
  (forall s, In s l -> nonEmpty s = true /\ isAbsolute s = false) ->
  isAbsolute (join sep l) = false.
Proof.
  destruct l as [|x rest]; [reflexivity|]. intros H.
  destruct (H x (or_introl eq_refl)) as [N A].
  destruct rest as [|y rest']; [exact A|].
  cbn [join]. now rewrite isAbsolute_app.
Qed.

Lemma dropCommon_suffix (a b : list string) :
  forall s, In s (snd (dropCommon a b)) -> In s b.
Proof.
  revert b. induction a as [|x a IH]; intros b s; simpl.
  - destruct b; exact (fun H => H).
  - destruct b as [|y b]; [exact (fun H => H)|].
    destruct (x =? y); [|exact (fun H => H)].
    intros H. right. now apply IH.
Qed.

Lemma path_relative_not_absolute (wd from to : string) :
  isAbsolute (path_relative wd from to) = false.
Proof.
  unfold path_relative.
  destruct (from =? to); [reflexivity|].
  destruct (path_resolve wd [from] =? path_resolve wd [to]); [reflexivity|].
  pose proof (dropCommon_suffix (segments (path_resolve wd [from]))
                (segments (path_resolve wd [to]))) as S.
  destruct (dropCommon _ _) as [up down]. cbn [snd] in S.
  apply join_not_absolute. intros s Hs.
  apply in_app_or in Hs. destruct Hs as [Hs|Hs].
  - apply in_map_iff in Hs. destruct Hs as [_ [<- _]]. split; reflexivity.
  - destruct (segments_spec _ _ (S s Hs)) as [N F].
    split; [exact N | now apply plain_not_absolute].
Qed.

Lemma resolveLoop_absolute (candidates : list string) (acc : string) :
  (exists c, In c candidates /\ isAbsolute c = true) ->
  snd (resolveLoop candidates acc) = true.
Proof.
  revert acc. induction candidates as [|p more IH]; intros acc [c [Hc A]].
  - destruct Hc.
  - cbn [resolveLoop].
    destruct (p =? "") eqn:E.
    + apply IH. destruct Hc as [->|Hc]; [|now exists c].
      apply String.eqb_eq in E. subst c. discriminate A.
    + destruct (isAbsolute p) eqn:Ap; [reflexivity|].
      apply IH. destruct Hc as [->|Hc]; [congruence | now exists c].
Qed.

Lemma path_resolve_absolute (wd : string) (args : list string) :
  isAbsolute wd = true -> isAbsolute (path_resolve wd args) = true.
Proof.
  intros A. unfold path_resolve.
  pose proof (resolveLoop_absolute (rev args ++ [wd]) "") as R.
  destruct (resolveLoop (rev args ++ [wd]) "") as [rp abs]. cbn [snd] in R.
  rewrite R; [apply isAbsolute_cons|].
  exists wd. split; [apply in_or_app; right; now left | exact A].
Qed.

Lemma path_normalize_absolute (p : string) :
  isAbsolute p = true -> isAbsolute (path_normalize p) = true.
Proof.
  intros A. unfold path_normalize.
  destruct (p =? "") eqn:E.
  - apply String.eqb_eq in E. subst p. discriminate A.
  - rewrite A.
    destruct (normalizeString p (negb true) =? ""); [reflexivity|].
    apply isAbsolute_cons.
Qed.

Lemma path_join_absolute (a b : string) :
  isAbsolute a = true -> isAbsolute (path_join [a; b]) = true.
Proof.
  intros A. unfold path_join. cbn [filter].
  rewrite (isAbsolute_nonEmpty a A).
  apply path_normalize_absolute.
  destruct (nonEmpty b); cbn [join]; [|exact A].
  now rewrite isAbsolute_app by (now apply isAbsolute_nonEmpty).
Qed.

(** ** Dependent linking *)

Lemma In_firstn {A} (n : nat) (l : list A) (x : A) :
  In x (firstn n l) -> In x l.
Proof.
  revert n. induction l as [|y l IH]; intros [|n]; simpl; try tauto.
  intros [E|H]; [now left | right; now apply (IH n)].
Qed.

Lemma withDependents_id (m : CodebaseModule) : withDependents (dependents m) m = m.
Proof. now destruct m. Qed.

Lemma withDependents_again (a b : list string) (m old : CodebaseModule) :
  old = withDependents b m -> withDependents a old = withDependents a m.
Proof. intros ->. reflexivity. Qed.

Lemma addDependent_spec (src : string) (m : CodebaseModule) :
  addDependent src m
  = withDependents (if memberOf src (dependents m) then dependents m
                    else (dependents m ++ [src])%list) m.
Proof.
  unfold addDependent. destruct (memberOf src (dependents m)).
  - symmetry. apply withDependents_id.
  - reflexivity.
Qed.

Lemma linkDependency_outside (src : string) (acc : ModuleMap)
    (dep : CodebaseDependency) (r : string) :
  resolved dep = Some r -> mhas r acc = false ->
  linkDependency src acc dep = acc.
Proof.
  intros R H. unfold linkDependency. rewrite R, H.
  now rewrite andb_false_r.
Qed.

Lemma mhas_same_keys {V W} (k : string) (a : JsMap V) (b : JsMap W) :
  mkeys a = mkeys b -> mhas k a = mhas k b.
Proof.
  intros E.
  destruct (mhas k a) eqn:A, (mhas k b) eqn:B; try reflexivity.
  - apply mhas_In in A. rewrite E in A. apply mhas_In in A. congruence.
  - apply mhas_In in B. rewrite <- E in B. apply mhas_In in B. congruence.
Qed.

Section Linking.

Variable built : ModuleMap.

Lemma linkDependency_invariant (src : string) (msrc : CodebaseModule)
    (dep : CodebaseDependency) (acc : ModuleMap) :
  In (src, msrc) built -> In dep (dependencies msrc) ->
  linkInvariant built acc ->
  linkInvariant built (linkDependency src acc dep).
Proof.
  intros Hsrc Hdep [Hkeys Hall]. unfold linkDependency.
  destruct (resolved dep) as [r|] eqn:R; [|now split].
  destruct (nonEmpty r && mhas r acc); [|now split].
  split; [now rewrite mkeys_mupdate|].
  intros k m Hin. apply In_mupdate in Hin.
  destruct Hin as [Hin | [-> [old [Hold ->]]]]; [now apply Hall|].
  destruct (Hall r old Hold) as [[m0 [Hm0 Eold]] [Hnd Hprov]].
  rewrite addDependent_spec.
  set (ds := if memberOf src (dependents old) then dependents old
             else (dependents old ++ [src])%list).
  change (dependents (withDependents ds old)) with ds.
  split; [|split].
  - exists m0. split; [exact Hm0|].
    exact (withDependents_again ds _ m0 old Eold).
  - unfold ds. destruct (memberOf src (dependents old)) eqn:M; [exact Hnd|].
    apply NoDup_app; [exact Hnd | constructor; [tauto | constructor] |].
    intros a Ha [<-|[]].
    apply memberOf_In in Ha. congruence.
  - intros d Hd.
    assert (Hd' : In d (dependents old) \/ d = src).
    { unfold ds in Hd.
      destruct (memberOf src (dependents old)); [now left|].
      apply in_app_or in Hd. destruct Hd as [Hd|[<-|[]]]; [now left | now right]. }
    destruct Hd' as [Hd'| ->]; [now apply Hprov|].
    split.
    + unfold mkeys. apply in_map_iff. now exists (src, msrc).
    + now exists msrc, dep.
Qed.

Hypothesis fresh : forall k m, In (k, m) built -> dependents m = [].

Lemma linkInvariant_start : linkInvariant built built.
Proof.
  split; [reflexivity|].
  intros k m Hin. rewrite (fresh k m Hin).
  split; [|split; [constructor | intros d []]].
  exists m. split; [exact Hin|].
  rewrite <- (fresh k m Hin). symmetry. apply withDependents_id.
Qed.

Lemma resolveDependencies_invariant :
  linkInvariant built (resolveDependencies built).
Proof.
  unfold resolveDependencies.
  apply fold_left_invariant; [apply linkInvariant_start|].
  intros acc [src msrc] Hsrc Hacc. cbn [fst snd].
  apply fold_left_invariant; [exact Hacc|].
  intros acc' dep Hdep Hacc'.
  now apply (linkDependency_invariant src msrc).
Qed.

End Linking.

(** *** What the analyzer puts into the map *)

Lemma analyzeFile_source (h : Host) (root filePath : string) (m : CodebaseModule) :
  analyzeFile h root filePath = Some m ->
  source m = filePath /\
  dependents m = [] /\
  relativePath m = path_relative (cwd h) root filePath /\
  exists content,
    readFile h filePath = Some content /\
    dependencies m
    = extractDependencies h root content filePath
        (getLanguageId (path_extname filePath)).
Proof.
  unfold analyzeFile. destruct (readFile h filePath) as [content|];
    [|discriminate].
  intros E. injection E as <-. cbn. repeat split. now exists content.
Qed.

Lemma analyzeFiles_entries (h : Host) (root : string) (files : list string) :
  forall k m, In (k, m) (analyzeFiles h root files) ->
              analyzeFile h root k = Some m /\ In k files.
Proof.
  unfold analyzeFiles.
  apply (fold_left_invariant
           (fun acc : ModuleMap =>
              forall k m, In (k, m) acc ->
                          analyzeFile h root k = Some m /\ In k files)).
  - intros k m [].
  - intros acc filePath Hf Hacc k m.
    destruct (analyzeFile h root filePath) as [m'|] eqn:E; [|apply Hacc].
    intros Hin. apply In_mset in Hin.
    destruct Hin as [[-> ->]|Hin]; [|now apply Hacc].
    destruct (analyzeFile_source _ _ _ _ E) as [-> _]. now split.
Qed.

Lemma tryExtensions_result (h : Host) (base : string) (exts : list string) (r : string) :
  fst (tryExtensions h base exts) = Some r -> exists ext, r = base ++ ext.
Proof.
  induction exts as [|ext more IH]; simpl; [discriminate|].
  destruct (existsFile h (base ++ ext)).
  - intros E. injection E as <-. now exists ext.
  - destruct (tryExtensions h base more) as [r' t]. exact IH.
Qed.

Lemma tryIndexFiles_result (h : Host) (base : string) (names : list string) (r : string) :
  fst (tryIndexFiles h base names) = Some r ->
  exists i, r = path_join [base; i].
Proof.
  induction names as [|i more IH]; [discriminate|].
  cbn [tryIndexFiles].
  destruct (existsSync h (path_join [base; i])).
  - intros E. injection E as <-. now exists i.
  - destruct (tryIndexFiles h base more) as [r' t]. exact IH.
Qed.

Section AbsoluteResults.

Variable h : Host.
Variable root : string.
Hypothesis cwd_absolute : isAbsolute (cwd h) = true.
Hypothesis root_absolute : isAbsolute root = true.

Lemma moduleBase_absolute (modulePath fromFile : string) :
  isAbsolute (moduleBase h root modulePath fromFile) = true.
Proof.
  unfold moduleBase. destruct (startsWith modulePath "/").
  - now apply path_join_absolute.
  - now apply path_resolve_absolute.
Qed.

Lemma resolveModulePath_absolute (modulePath fromFile r : string) :
  resolveModulePath h root modulePath fromFile = Some r -> isAbsolute r = true.
Proof.
  unfold resolveModulePath, resolveModulePathTraced.
  destruct (negb (startsWith modulePath ".") && negb (startsWith modulePath "/"));
    [discriminate|].
  pose proof (moduleBase_absolute modulePath fromFile) as B.
  set (base := moduleBase h root modulePath fromFile) in *.
  pose proof (tryExtensions_result h base extensions) as TE.
  destruct (tryExtensions h base extensions) as [[w|] probes]; cbn [fst] in *.
  - intros E. injection E as <-.
    destruct (TE w eq_refl) as [ext ->].
    rewrite isAbsolute_app; [exact B | now apply isAbsolute_nonEmpty].
  - pose proof (tryIndexFiles_result h base indexExtensions) as TI.
    destruct (tryIndexFiles h base indexExtensions) as [r' probes'].
    cbn [fst] in *. intros ->.
    destruct (TI r eq_refl) as [i ->].
    now apply path_join_absolute.
Qed.

Lemma resolvePythonModule_absolute (modulePath fromFile r : string) :
  resolvePythonModule h root modulePath fromFile = Some r -> isAbsolute r = true.
Proof.
  unfold resolvePythonModule, resolvePythonModuleTraced.
  destruct (negb (includes modulePath "/") && negb (includes modulePath backslash));
    [discriminate|].
  assert (B : isAbsolute (pythonBase h root modulePath fromFile) = true).
  { unfold pythonBase.
    destruct (startsWith modulePath "."); now apply path_resolve_absolute. }
  set (base := pythonBase h root modulePath fromFile) in *.
  destruct (existsFile h (base ++ ".py")).
  - intros E. injection E as <-.
    rewrite isAbsolute_app; [exact B | now apply isAbsolute_nonEmpty].
  - destruct (existsSync h (path_join [base; "__init__.py"])); [|discriminate].
    intros E. injection E as <-. now apply path_join_absolute.
Qed.

Lemma extractDependencies_absolute (content filePath languageId r : string)
    (dep : CodebaseDependency) :
  In dep (extractDependencies h root content filePath languageId) ->
  resolved dep = Some r -> isAbsolute r = true.
Proof.
  unfold extractDependencies.
  destruct (isJsOrTs languageId).
  - intros H. apply in_app_or in H.
    destruct H as [H|H]; apply in_map_iff in H;
      destruct H as [mp [<- _]]; apply resolveModulePath_absolute.
  - destruct (languageId =? "python"); [|intros []].
    intros H. apply in_map_iff in H.
    destruct H as [mp [<- _]]. apply resolvePythonModule_absolute.
Qed.

End AbsoluteResults.

(** ** The keys of the identifier table *)

Lemma sadd_In (x y : string) (l : list string) :
  In x (sadd y l) <-> x = y \/ In x l.
Proof.
  unfold sadd. destruct (memberOf y l) eqn:M.
  - apply memberOf_In in M. split; [now right | intros [->|H]; assumption].
  - rewrite in_app_iff. simpl. split.
    + intros [H|[E|[]]]; [now right | now left].
    + intros [E|H]; [right; now left | now left].
Qed.

Lemma fold_sadd_In (l acc : list string) (x : string) :
  In x (fold_left (fun acc p => sadd p acc) l acc) -> In x l \/ In x acc.
Proof.
  revert acc. induction l as [|y l IH]; intros acc; simpl; [now right|].
  intros H. destruct (IH _ H) as [H'|H']; [now left; right|].
  apply sadd_In in H'. destruct H' as [->|H']; [now left; left | now right].
Qed.

Lemma collectPaths_elem (ms : ModuleMap) (p : string) :
  In p (collectPaths ms) ->
  exists k m, In (k, m) ms /\
    (p = relativePath m \/
     exists i, p = join sep (firstn (S i) (segments (relativePath m)))).
Proof.
  unfold collectPaths. revert p.
  apply (fold_left_invariant
           (fun acc : list string =>
              forall p, In p acc ->
                exists k m, In (k, m) ms /\
                  (p = relativePath m \/
                   exists i, p = join sep (firstn (S i) (segments (relativePath m)))))).
  - intros p [].
  - intros acc m Hm Hacc p Hp.
    unfold mvalues in Hm. apply in_map_iff in Hm.
    destruct Hm as [[k m'] [E Hin]]. cbn [snd] in E. subst m'.
    apply sadd_In in Hp. destruct Hp as [->|Hp]; [exists k, m; now auto|].
    apply fold_sadd_In in Hp. destruct Hp as [Hp|Hp]; [|now apply Hacc].
    unfold pathPrefixes in Hp. apply in_map_iff in Hp.
    destruct Hp as [i [<- _]]. exists k, m. split; [exact Hin|].
    right. now exists i.
Qed.

Lemma assignIds_keys (mini : bool) (l : list string) (names : JsMap string) (x : string) :
  In x (mkeys (fst (assignIds mini l names))) -> In x l \/ In x (mkeys names).
Proof.
  unfold assignIds.
  apply (fold_left_invariant
           (fun st : JsMap string * nat =>
              In x (mkeys (fst st)) -> In x l \/ In x (mkeys names))).
  - now right.
  - intros [acc count] rel Hrel Hacc. cbn [fst] in *.
    destruct (mhas rel acc); [exact Hacc|].
    destruct mini; cbn [fst]; intros H; apply mkeys_mset in H;
      (destruct H as [->|H]; [now left | now apply Hacc]).
Qed.

Lemma mapAbsolutePaths_keys (ms : ModuleMap) (names : JsMap string)
    (byId : JsMap CodebaseModule) (x : string) :
  In x (mkeys (fst (mapAbsolutePaths ms (names, byId)))) ->
  In x (mkeys ms) \/ In x (mkeys names).
Proof.
  unfold mapAbsolutePaths.
  apply (fold_left_invariant
           (fun st : JsMap string * JsMap CodebaseModule =>
              In x (mkeys (fst st)) -> In x (mkeys ms) \/ In x (mkeys names))).
  - now right.
  - intros [acc b] [filePath m] Hin Hacc. cbn [fst] in *.
    destruct (mget (relativePath m) acc) as [hashedId|]; [|exact Hacc].
    destruct (nonEmpty hashedId); [|exact Hacc].
    cbn [fst]. intros H. apply mkeys_mset in H.
    destruct H as [->|H]; [|now apply Hacc].
    left. unfold mkeys. apply in_map_iff. now exists (filePath, m).
Qed.

Lemma hashModuleNames_keys (ms : ModuleMap) (root : string) (mini : bool) (x : string) :
  In x (mkeys (namesHashMap (hashModuleNames (newGenerator ms root mini)))) ->
  In x (collectPaths ms) \/ In x (mkeys ms).
Proof.
  unfold hashModuleNames. cbn [modules namesHashMap minify nodeIdToModule newGenerator].
  pose proof (assignIds_keys mini (collectPaths ms) [] x) as A.
  destruct (assignIds mini (collectPaths ms) []) as [names c]. cbn [fst] in A.
  pose proof (mapAbsolutePaths_keys ms names [] x) as B.
  destruct (mapAbsolutePaths ms _) as [names' byId]. cbn [fst namesHashMap] in *.
  intros H. destruct (B H) as [H'|H']; [now right|].
  destruct (A H') as [H''|[]]. now left.
Qed.

Lemma collectPaths_not_absolute (ms : ModuleMap) (p : string) :
  (forall k m, In (k, m) ms -> isAbsolute (relativePath m) = false) ->
  In p (collectPaths ms) -> isAbsolute p = false.
Proof.
  intros Hrel Hp. apply collectPaths_elem in Hp.
  destruct Hp as [k [m [Hin [->|[i ->]]]]]; [now apply (Hrel k)|].
  apply join_not_absolute. intros s Hs. apply In_firstn in Hs.
  destruct (segments_spec _ _ Hs) as [N F].
  split; [exact N | now apply plain_not_absolute].
Qed.

(** An absolute path that is no key of the map has no identifier. *)
Lemma no_identifier_outside_map (ms : ModuleMap) (root : string) (mini : bool)
    (r : string) :
  (forall k m, In (k, m) ms -> isAbsolute (relativePath m) = false) ->
  isAbsolute r = true -> mhas r ms = false ->
  mget r (namesHashMap (hashModuleNames (newGenerator ms root mini))) = None.
Proof.
  intros Hrel A H. apply mget_None. intros K.
  apply hashModuleNames_keys in K. destruct K as [K|K].
  - rewrite (collectPaths_not_absolute ms r Hrel K) in A. discriminate A.
  - apply mhas_In in K. congruence.
Qed.

Lemma addEdge_no_identifier (names : JsMap string) (from : EdgeEnd)
    (edges : list Edge) (dep : CodebaseDependency) (r : string) :
  resolved dep = Some r -> mget r names = None ->
  addEdge names from edges dep = edges.
Proof.
  intros R N. unfold addEdge. rewrite R, N.
  now destruct (truthy (Some r) && valid dep).
Qed.

(** ** Claim on backlinks *)

Section AnalyzedMap.

Variable h : Host.
Variable root : string.
Variable files : list string.

Let built := analyzeFiles h root files.
Let linked := resolveDependencies built.

Lemma built_fresh : forall k m, In (k, m) built -> dependents m = [].
Proof.
  intros k m Hin. apply analyzeFiles_entries in Hin. destruct Hin as [E _].
  now destruct (analyzeFile_source _ _ _ _ E) as [_ [D _]].
Qed.

Lemma linked_invariant : linkInvariant built linked.
Proof. apply resolveDependencies_invariant. exact built_fresh. Qed.

(** A module of the linked map is the analysis of its key, but for its
    dependents. *)
Lemma linked_origin (k : string) (m : CodebaseModule) :
  In (k, m) linked ->
  exists m0, analyzeFile h root k = Some m0 /\
             m = withDependents (dependents m) m0.
Proof.
  intros Hin. destruct linked_invariant as [_ Hall].
  destruct (Hall k m Hin) as [[m0 [Hm0 E]] _].
  exists m0. split; [|exact E].
  now apply analyzeFiles_entries in Hm0.
Qed.

Lemma linked_relative (k : string) (m : CodebaseModule) :
  In (k, m) linked -> isAbsolute (relativePath m) = false.
Proof.
  intros Hin. destruct (linked_origin k m Hin) as [m0 [E ->]].
  cbn [withDependents relativePath].
  destruct (analyzeFile_source _ _ _ _ E) as [_ [_ [-> _]]].
  apply path_relative_not_absolute.
Qed.

Hypothesis cwd_absolute : isAbsolute (cwd h) = true.
Hypothesis root_absolute : isAbsolute root = true.

Lemma linked_resolved_absolute (k r : string) (m : CodebaseModule)
    (dep : CodebaseDependency) :
  In (k, m) linked -> In dep (dependencies m) -> resolved dep = Some r ->
  isAbsolute r = true.
Proof.
  intros Hin Hdep R. destruct (linked_origin k m Hin) as [m0 [E Em]].
  rewrite Em in Hdep. cbn [withDependents dependencies] in Hdep.
  destruct (analyzeFile_source _ _ _ _ E) as [_ [_ [_ [content [_ D]]]]].
  rewrite D in Hdep.
  now apply (extractDependencies_absolute h root cwd_absolute root_absolute
               _ _ _ r dep Hdep).
Qed.

Lemma linked_outside_no_edge (k r : string) (m : CodebaseModule)
    (dep : CodebaseDependency) (mini : bool) :
  In (k, m) linked -> In dep (dependencies m) -> resolved dep = Some r ->
  mhas r linked = false ->
  forall from edges,
    addEdge (namesHashMap (hashModuleNames (newGenerator linked root mini)))
            from edges dep = edges.
Proof.
  intros Hin Hdep R Hout from edges.
  apply (addEdge_no_identifier _ _ _ _ r R).
  apply no_identifier_outside_map.
  - exact linked_relative.
  - exact (linked_resolved_absolute k r m dep Hin Hdep R).
  - exact Hout.
Qed.

End AnalyzedMap.

(** C4.  Let [linked] be the module map after dependent linking of the
    files analysed.  Every entry of the dependents of a module is a key
    of the map, occurs there once, and is owed to a dependency of the
    module under that key which resolves onto this module.  A dependency
    with a resolved path that is no key of the map is passed over by the
    linking loop; and, the working directory and the workspace root being
    absolute paths, it is passed over by the edge loop too, and the
    rendered text is the text of the same map with all such dependencies
    left out. *)
Theorem no_dangling_backlinks (h : Host) (root : string) (files : list string) :
  let built := analyzeFiles h root files in
  let linked := resolveDependencies built in
  (forall k m, In (k, m) linked ->
     NoDup (dependents m) /\
     forall d, In d (dependents m) ->
       mhas d linked = true /\
       exists md dep,
         In (d, md) built /\ In dep (dependencies md) /\ resolved dep = Some k)
  /\ (forall k dep r acc,
        resolved dep = Some r -> mhas r linked = false ->
        mkeys acc = mkeys linked ->
        linkDependency k acc dep = acc)
  /\ (isAbsolute (cwd h) = true ->
      isAbsolute root = true ->
      (forall k m dep r mini from edges,
          In (k, m) linked -> In dep (dependencies m) ->
          resolved dep = Some r -> mhas r linked = false ->
          addEdge (namesHashMap (hashModuleNames (newGenerator linked root mini)))
                  from edges dep = edges) /\
      (forall mini,
          snd (generate (newGenerator (pruneMap (targetInMap linked) linked)
                           root mini))
          = snd (generate (newGenerator linked root mini)))).
Proof.
  intros built linked.
  pose proof (linked_invariant h root files) as [Hkeys Hall].
  fold built linked in Hkeys, Hall.
  split; [|split].
  - intros k m Hin. destruct (Hall k m Hin) as [_ [Hnd Hprov]].
    split; [exact Hnd|].
    intros d Hd. destruct (Hprov d Hd) as [Hkey Hdep].
    split; [|exact Hdep].
    apply mhas_In. now rewrite Hkeys.
  - intros k dep r acc R Hout Hacc.
    apply (linkDependency_outside k acc dep r R).
    now rewrite (mhas_same_keys r acc linked Hacc).
  - intros Hcwd Hroot. split.
    + intros k m dep r mini from edges Hin Hdep R Hout.
      now apply (linked_outside_no_edge h root files Hcwd Hroot k r m dep mini).
    + intros mini. apply generate_pruned.
      intros k m dep Hin Hdep K from edges.
      unfold targetInMap in K.
      destruct (resolved dep) as [r|] eqn:R; [|discriminate K].
      now apply (linked_outside_no_edge h root files Hcwd Hroot k r m dep mini).
Qed.

(** Only [/ws/src/a.ts] is analysed: its import of [./b] is valid, its
    target is no key of the map, and it asks for no edge. *)
Lemma no_dangling_backlinks_witness :
  let linked := resolveDependencies (analyzeFiles sampleHost "/ws" ["/ws/src/a.ts"]) in
  let dep := mkDependency "./b" (Some "/ws/src/b.ts") "import" in
  valid dep = true /\
  mhas "/ws/src/b.ts" linked = false /\
  forall from edges,
    addEdge (namesHashMap (hashModuleNames (newGenerator linked "/ws" true)))
            from edges dep = edges.
Proof.
  intros linked dep.
  split; [reflexivity|]. split; [reflexivity|].
  destruct (no_dangling_backlinks sampleHost "/ws" ["/ws/src/a.ts"])
    as [_ [_ B]].
  destruct (B eq_refl eq_refl) as [B' _].
  destruct (analyzeFile sampleHost "/ws" "/ws/src/a.ts") as [m|] eqn:E;
    [|vm_compute in E; discriminate E].
  intros from edges.
  apply (B' "/ws/src/a.ts" (withDependents [] m) dep "/ws/src/b.ts").
  - vm_compute in E. injection E as <-. vm_compute. left. reflexivity.
  - vm_compute in E. injection E as <-. vm_compute. left. reflexivity.
  - reflexivity.
  - reflexivity.
Defined.

(** ** First-seen identifiers *)

Lemma mset_absent {V} (k : string) (v : V) (m : JsMap V) :
  mhas k m = false -> mset k v m = (m ++ [(k, v)])%list.
Proof.
  unfold mhas. induction m as [|[k' v'] m IH]; simpl; [reflexivity|].
  destruct (k' =? k); [discriminate|].
  intros H. now rewrite IH.
Qed.

Lemma mhas_snoc {V} (x k : string) (v : V) (m : JsMap V) :
  mhas x (m ++ [(k, v)])%list = mhas x m || (k =? x).
Proof.
  unfold mhas. induction m as [|[k' v'] m IH]; simpl.
  - now destruct (k =? x).
  - destruct (k' =? x); [reflexivity | exact IH].
Qed.

Lemma sadd_NoDup (x : string) (l : list string) : NoDup l -> NoDup (sadd x l).
Proof.
  intros H. unfold sadd. destruct (memberOf x l) eqn:M; [exact H|].
  apply NoDup_app; [exact H | constructor; [tauto | constructor] |].
  intros a Ha [<-|[]]. apply memberOf_In in Ha. congruence.
Qed.

Lemma collectPaths_NoDup (ms : ModuleMap) : NoDup (collectPaths ms).
Proof.
  unfold collectPaths.
  apply fold_left_invariant; [constructor|].
  intros acc m _ Hacc. apply sadd_NoDup.
  apply fold_left_invariant; [exact Hacc|].
  intros acc' p _ H. now apply sadd_NoDup.
Qed.

(** Paths without identifier receive the counter values in list order. *)
Lemma assignIds_fresh (l : list string) (names : JsMap string) (count : nat) :
  NoDup l ->
  (forall x, In x l -> mhas x names = false) ->
  fold_left
    (fun st rel =>
       let '(names, count) := st in
       if mhas rel names then (names, count)
       else if true then (mset rel (minifiedId count) names, S count)
       else (mset rel (hashToReadableNodeName rel) names, count))
    l (names, count)
  = ((names ++ combine l (map minifiedId (seq count (List.length l))))%list,
     count + List.length l).
Proof.
  revert names count. induction l as [|x l IH]; intros names count Hnd Hfresh.
  - simpl. now rewrite app_nil_r, Nat.add_0_r.
  - cbn [fold_left]. rewrite (Hfresh x (or_introl eq_refl)).
    inversion Hnd as [|? ? Hx Hl]; subst.
    rewrite mset_absent by (apply Hfresh; now left).
    rewrite IH.
    + cbn [List.length seq map combine]. rewrite <- app_assoc. cbn [app].
      f_equal. lia.
    + exact Hl.
    + intros y Hy. rewrite mhas_snoc, (Hfresh y (or_intror Hy)).
      cbn [orb]. apply String.eqb_neq. intros ->. contradiction.
Qed.

Lemma mget_combine_nth (l : list string) (ids : list string) (i : nat) (p : string) :
  NoDup l -> List.length ids = List.length l ->
  nth_error l i = Some p ->
  mget p (combine l ids) = nth_error ids i.
Proof.
  revert ids i. induction l as [|x l IH]; intros ids i Hnd Hlen Hn.
  - destruct i; discriminate Hn.
  - destruct ids as [|d ids]; [discriminate Hlen|].
    inversion Hnd as [|? ? Hx Hl]; subst.
    destruct i as [|i]; cbn [nth_error combine mget] in *.
    + injection Hn as ->. now rewrite String.eqb_refl.
    + destruct (String.eqb_spec x p) as [->|N].
      * exfalso. apply Hx. now apply (nth_error_In l i).
      * apply IH; auto.
Qed.

(** ** Claim on batch resilience *)

Lemma walkDir_never_raises (fuel : nat) (h : Host) (dir e : string) :
  walkDir fuel h dir <> Raise e.
Proof.
  revert dir e. induction fuel as [|fuel IH]; intros dir e; [discriminate|].
  cbn [walkDir]. destruct (readdir h dir) as [entries|]; [|discriminate].
  apply (fold_left_invariant (fun r : Run (list string) => r <> Raise e));
    [discriminate|].
  intros acc entry _ Hacc.
  destruct acc as [fs|e'|]; cbn [bind]; [|exact Hacc|discriminate].
  destruct (ignoredEntry (d_name entry)); [discriminate|].
  destruct (isDirectory (d_kind entry)).
  - pose proof (IH (path_join [dir; d_name entry])) as W.
    destruct (walkDir fuel h (path_join [dir; d_name entry])) as [sub|e''|];
      cbn [bind]; [discriminate | | discriminate].
    now contradiction (W e'').
  - destruct (isFile (d_kind entry)); [|discriminate].
    destruct (memberOf _ supportedExtensions); discriminate.
Qed.

(** Without selected paths the analysis never rejects. *)
Lemma analyzeCodebase_workspace_never_raises (fuel : nat) (h : Host)
    (root e : string) :
  analyzeCodebase fuel h root None <> Raise e.
Proof.
  unfold analyzeCodebase, getAllSupportedFiles.
  pose proof (walkDir_never_raises fuel h root) as W.
  destruct (walkDir fuel h root) as [fs|e'|]; cbn [bind];
    [discriminate | | discriminate].
  now contradiction (W e').
Qed.

(** A file that cannot be read leaves no trace in the map. *)
Lemma analyzeFiles_unreadable (h : Host) (root f : string)
    (before after : list string) :
  readFile h f = None ->
  analyzeFiles h root (before ++ f :: after)
  = analyzeFiles h root (before ++ after).
Proof.
  intros H. unfold analyzeFiles. rewrite !fold_left_app. cbn [fold_left].
  unfold analyzeFile at 2. now rewrite H.
Qed.

(** C8 at its failing input: one selected path exists and one does not;
    the [stat] of the second rejects and so does the analysis, whatever
    the recursion bound. *)
Theorem selected_path_stat_failure_aborts (fuel : nat) :
  stat sampleHost "/ws/src/b.ts" = Some RegularFile /\
  stat sampleHost "/ws/missing.ts" = None /\
  analyzeCodebase fuel sampleHost "/ws" (Some ["/ws/src/b.ts"; "/ws/missing.ts"])
  = Raise "ENOENT: no such file or directory, stat '/ws/missing.ts'".
Proof. repeat split. Qed.

(** ** The lines of the rendered text *)

Lemma splitOn_app_sep (c : ascii) (a b : string) :
  splitOn c (a ++ String c b) = (splitOn c a ++ splitOn c b)%list.
Proof.
  induction a as [|x a IH].
  - cbn [append splitOn app]. now rewrite Ascii.eqb_refl.
  - cbn [append splitOn]. rewrite IH.
    destruct (Ascii.eqb x c); [reflexivity|].
    pose proof (splitOn_nonempty c a) as N.
    destruct (splitOn c a); [contradiction | reflexivity].
Qed.

Lemma linesOf_app_newline (a b : string) :
  linesOf (a ++ newline ++ b) = (linesOf a ++ linesOf b)%list.
Proof. apply splitOn_app_sep. Qed.

Lemma linesOf_newline (b : string) : linesOf (newline ++ b) = "" :: linesOf b.
Proof. exact (linesOf_app_newline "" b). Qed.

Lemma linesOf_single (s : string) : hasChar "010" s = false -> linesOf s = [s].
Proof.
  intros H. unfold linesOf.
  rewrite <- (string_app_nil_r s) at 1.
  rewrite (splitOn_app_free "010" s "" H). cbn [splitOn].
  now rewrite string_app_nil_r.
Qed.

Lemma directiveLines_app_newline (a b : string) :
  directiveLines (a ++ newline ++ b)
  = (directiveLines a ++ directiveLines b)%list.
Proof. unfold directiveLines. now rewrite linesOf_app_newline, filter_app. Qed.

Lemma directiveLines_newline (b : string) :
  directiveLines (newline ++ b) = directiveLines b.
Proof. unfold directiveLines. now rewrite linesOf_newline. Qed.

Lemma directiveLines_single (s : string) :
  hasChar "010" s = false -> isDirectiveLine s = false -> directiveLines s = [].
Proof.
  intros H D. unfold directiveLines. rewrite (linesOf_single s H).
  cbn [filter]. now rewrite D.
Qed.

Lemma directiveLines_join (parts : list string) :
  (forall p, In p parts -> directiveLines p = []) ->
  directiveLines (join newline parts) = [].
Proof.
  induction parts as [|x rest IH]; intros H; [reflexivity|].
  destruct rest as [|y rest']; [apply H; now left|].
  change (join newline (x :: y :: rest'))
    with (x ++ newline ++ join newline (y :: rest')).
  rewrite directiveLines_app_newline, (H x (or_introl eq_refl)).
  apply IH. intros p Hp. apply H. now right.
Qed.

Lemma directiveLines_preceded (lines : list string) :
  (forall l, In l lines -> directiveLines l = []) ->
  directiveLines (precededLines lines) = [].
Proof.
  induction lines as [|l more IH]; intros H; [reflexivity|].
  cbn [precededLines]. rewrite directiveLines_newline.
  destruct more as [|l' more'].
  - cbn [precededLines]. rewrite string_app_nil_r. apply H. now left.
  - change (precededLines (l' :: more'))
      with (newline ++ l' ++ precededLines more').
    rewrite directiveLines_app_newline, (H l (or_introl eq_refl)).
    rewrite <- directiveLines_newline. apply IH.
    intros x Hx. apply H. now right.
Qed.

Lemma prefix_app_self (p x : string) : String.prefix p (p ++ x) = true.
Proof.
  induction p as [|a p IH]; [now destruct x|].
  cbn [append String.prefix].
  destruct (ascii_dec a a) as [_|N]; [exact IH | contradiction].
Qed.

Lemma styleDirective_is_directive (g : Generator) (i : nat) (e : Edge) :
  isDirectiveLine (styleDirective g i e) = true.
Proof. apply prefix_app_self. Qed.

Lemma directiveLines_styleBlock (g : Generator) (edges : list Edge) :
  directiveLines (precededLines (styleDirectives g edges))
  = styleDirectives g edges.
Proof.
  unfold directiveLines, linesOf.
  rewrite splitOn_precededLines by apply styleDirectivesFrom_no_newline.
  cbn [filter isDirectiveLine startsWith String.prefix].
  unfold styleDirectives. generalize 0.
  induction edges as [|e more IH]; intros i; [reflexivity|].
  cbn [styleDirectivesFrom filter].
  now rewrite styleDirective_is_directive, IH.
Qed.

(** *** Minified identifiers *)

Lemma allChars_app (p : ascii -> bool) (a b : string) :
  allChars p (a ++ b) = allChars p a && allChars p b.
Proof.
  induction a as [|x a IH]; [reflexivity|].
  cbn [append allChars]. now rewrite IH, andb_assoc.
Qed.

Lemma upper_digit_isIdChar (d : nat) :
  d < 36 -> isIdChar (upperChar (digitChar d)) = true.
Proof.
  intros H.
  do 36 (destruct d as [|d]; [reflexivity|]).
  lia.
Qed.

Lemma digitsRadix_upper (fuel n : nat) (acc : string) :
  allChars isIdChar (mapString upperChar acc) = true ->
  allChars isIdChar (mapString upperChar (digitsRadix fuel 36 n acc)) = true.
Proof.
  revert n acc. induction fuel as [|fuel IH]; intros n acc H; [exact H|].
  cbn [digitsRadix].
  assert (D : allChars isIdChar
                (mapString upperChar
                   (String (digitChar (Nat.modulo n 36)) acc)) = true).
  { cbn [mapString allChars]. rewrite H, upper_digit_isIdChar; [reflexivity|].
    apply Nat.mod_upper_bound. discriminate. }
  destruct (Nat.eqb (Nat.div n 36) 0); [exact D | now apply IH].
Qed.

Lemma minifiedId_minified (count : nat) : minified (minifiedId count).
Proof.
  exists (toUpperCase (toStringRadix 36 count)). split; [reflexivity|].
  apply digitsRadix_upper. reflexivity.
Qed.

Lemma isIdChar_not_newline (t : string) :
  allChars isIdChar t = true -> hasChar "010" t = false.
Proof.
  induction t as [|a t IH]; [reflexivity|].
  cbn [allChars hasChar]. intros H. apply andb_true_iff in H.
  destruct H as [Ha Ht]. rewrite (IH Ht), orb_false_r.
  destruct (Ascii.eqb_spec a "010") as [->|N]; [discriminate Ha | reflexivity].
Qed.

Lemma minified_no_newline (s : string) : minified s -> hasChar "010" s = false.
Proof.
  intros [t [-> H]]. cbn [hasChar]. now rewrite (isIdChar_not_newline t H).
Qed.

Lemma minified_not_directive (s x : string) :
  minified s -> isDirectiveLine (s ++ x) = false.
Proof. intros [t [-> _]]. reflexivity. Qed.

(** *** What a minifying generator holds *)

Lemma In_filterMap {A B} (f : A -> option B) (l : list A) (y : B) :
  In y (filterMap f l) -> exists x, In x l /\ f x = Some y.
Proof.
  induction l as [|x l IH]; simpl; [tauto|].
  destruct (f x) as [y'|] eqn:E.
  - intros [<-|H]; [now exists x; auto|].
    destruct (IH H) as [x' [Hx' E']]. exists x'. auto.
  - intros H. destruct (IH H) as [x' [Hx' E']]. exists x'. auto.
Qed.

Section Minifying.

Variable ms : ModuleMap.
Variable root : string.

Let g := hashModuleNames (newGenerator ms root true).

Lemma minifying_tables :
  (forall k v, In (k, v) (namesHashMap g) -> minified v) /\
  (forall k m, In (k, m) (nodeIdToModule g) -> minified k).
Proof.
  unfold g, hashModuleNames.
  cbn [modules namesHashMap minify nodeIdToModule newGenerator].
  assert (A : forall k v,
             In (k, v) (fst (assignIds true (collectPaths ms) [])) -> minified v).
  { unfold assignIds.
    apply (fold_left_invariant
             (fun st : JsMap string * nat =>
                forall k v, In (k, v) (fst st) -> minified v)).
    - intros k v [].
    - intros [names count] rel _ Hacc. cbn [fst] in *.
      destruct (mhas rel names); [exact Hacc|].
      cbn [fst]. intros k v H. apply In_mset in H.
      destruct H as [[_ ->]|H]; [apply minifiedId_minified | now apply (Hacc k)]. }
  destruct (assignIds true (collectPaths ms) []) as [names c]. cbn [fst] in A.
  assert (B : (forall k v, In (k, v) (fst (mapAbsolutePaths ms (names, []))) ->
                           minified v) /\
              (forall k m, In (k, m) (snd (mapAbsolutePaths ms (names, []))) ->
                           minified k)).
  { unfold mapAbsolutePaths.
    apply (fold_left_invariant
             (fun st : JsMap string * JsMap CodebaseModule =>
                (forall k v, In (k, v) (fst st) -> minified v) /\
                (forall k m, In (k, m) (snd st) -> minified k))).
    - split; [exact A | intros k m []].
    - intros [acc byId] [filePath m] _ [Hn Hb]. cbn [fst snd] in *.
      destruct (mget (relativePath m) acc) as [hashedId|] eqn:E; [|now split].
      destruct (nonEmpty hashedId); [|now split].
      pose proof (Hn _ _ (mget_In _ _ _ E)) as Hid.
      cbn [fst snd]. split.
      + intros k v H. apply In_mset in H.
        destruct H as [[_ ->]|H]; [exact Hid | now apply (Hn k)].
      + intros k m' H. apply In_mset in H.
        destruct H as [[-> _]|H]; [exact Hid | now apply (Hb k m')]. }
  destruct (mapAbsolutePaths ms _) as [names' byId]. exact B.
Qed.

Lemma minifying_lookup (k v : string) :
  mget k (namesHashMap g) = Some v -> minified v.
Proof.
  intros H. apply (proj1 minifying_tables k). now apply mget_In.
Qed.

Lemma minifying_edges (e : Edge) :
  In e (convertEdgeSources g) ->
  minified (endNode (edgeFrom e)) /\ minified (endNode (edgeTo e)).
Proof.
  rewrite convertEdgeSources_keepFirst. intros H. apply keepFirst_In in H.
  unfold candidateEdges in H. apply in_flat_map in H.
  destruct H as [[filePath m] [_ H]].
  unfold moduleCandidates in H. cbn [fst snd] in H.
  destruct (mget filePath (namesHashMap g)) as [fromNode|] eqn:F; [|destruct H].
  destruct (nonEmpty fromNode); [|destruct H].
  apply In_filterMap in H. destruct H as [dep [_ C]].
  unfold candidateEdge in C.
  destruct (resolved dep) as [r|]; [|discriminate C].
  destruct (nonEmpty r && valid dep); [|discriminate C].
  destruct (mget r (namesHashMap g)) as [toNode|] eqn:T; [|discriminate C].
  destruct (nonEmpty toNode); [|discriminate C].
  injection C as <-. cbn [edgeFrom edgeTo endNode].
  split; [exact (minifying_lookup _ _ F) | exact (minifying_lookup _ _ T)].
Qed.

End Minifying.

(** *** Identifiers in the tree *)

Section TreeIds.

Variable P : string -> Prop.

Lemma treeIds_unfold (nd : option string) (txt : string) (sub : JsMap SubgraphNode) :
  treeIds P (SubgraphItem nd txt sub)
  <-> match nd with Some id => P id | None => True end /\ forestIds P sub.
Proof.
  cbn [treeIds]. apply and_iff_compat_l.
  induction sub as [|kv sub IH]; [reflexivity|].
  cbn [forestIds]. now rewrite IH.
Qed.

Lemma forestIds_mget (k : string) (t : SubgraphNode) (l : JsMap SubgraphNode) :
  forestIds P l -> mget k l = Some t -> treeIds P t.
Proof.
  induction l as [|[k' t'] l IH]; [discriminate|].
  cbn [forestIds mget snd]. intros [Ht Hl].
  destruct (k' =? k); [intros E; now injection E as <- | now apply IH].
Qed.

Lemma forestIds_mset (k : string) (t : SubgraphNode) (l : JsMap SubgraphNode) :
  forestIds P l -> treeIds P t -> forestIds P (mset k t l).
Proof.
  intros Hl Ht. induction l as [|[k' t'] l IH]; [now split|].
  cbn [forestIds snd] in Hl. destruct Hl as [Ht' Hl].
  cbn [mset]. destruct (k' =? k); cbn [forestIds snd]; [now split|].
  split; [exact Ht' | now apply IH].
Qed.

Lemma forestIds_app (a b : JsMap SubgraphNode) :
  forestIds P a -> forestIds P b -> forestIds P (a ++ b)%list.
Proof.
  intros Ha Hb. induction a as [|kv a IH]; [exact Hb|].
  cbn [forestIds] in Ha. destruct Ha as [H Ha].
  cbn [app forestIds]. split; [exact H | now apply IH].
Qed.

Lemma forestIds_objAdd (k : string) (t : SubgraphNode) (l : JsMap SubgraphNode) :
  forestIds P l -> treeIds P t -> forestIds P (objAdd k t l).
Proof.
  intros Hl Ht. unfold objAdd.
  destruct (arrayIndex k) as [n|]; [|apply forestIds_app; [exact Hl | now split]].
  induction l as [|[k' t'] l IH]; [now split|].
  cbn [forestIds snd] in Hl. destruct Hl as [Ht' Hl].
  cbn [insertIndexKey].
  destruct (arrayIndex k') as [n'|].
  - destruct (N.ltb n n'); cbn [forestIds snd]; [now repeat split|].
    split; [exact Ht' | now apply IH].
  - cbn [forestIds snd]. now repeat split.
Qed.

Variable names : JsMap string.
Hypothesis names_ok : forall k v, mget k names = Some v -> P v.

Lemma insertPath_ids (paths remaining : list string) (index : nat)
    (children tree : Subgraphs) :
  forestIds P children ->
  insertPath names paths index remaining children = Some tree ->
  forestIds P tree.
Proof.
  revert index children tree.
  induction remaining as [|seg more IH]; intros index children tree Hc.
  - cbn [insertPath]. intros E. now injection E as <-.
  - cbn [insertPath]. unfold getProperty.
    destruct (mget seg children) as [[nd txt sub]|] eqn:G.
    + pose proof (forestIds_mget _ _ _ Hc G) as Ht.
      apply treeIds_unfold in Ht. destruct Ht as [Hnd Hsub].
      destruct (insertPath names paths (S index) more sub) as [sub'|] eqn:E;
        [|discriminate].
      intros X. injection X as <-.
      apply forestIds_mset; [exact Hc|].
      apply treeIds_unfold. split; [exact Hnd | now apply (IH (S index) sub)].
    + destruct (memberOf seg objectPrototypeKeys).
      * destruct more; [|discriminate]. intros X. now injection X as <-.
      * destruct (insertPath names paths (S index) more []) as [sub'|] eqn:E;
          [|discriminate].
        intros X. injection X as <-.
        apply forestIds_objAdd; [exact Hc|].
        apply treeIds_unfold. split.
        -- destruct (mget _ names) as [v|] eqn:M; [now apply (names_ok _ _ M) | exact I].
        -- now apply (IH (S index) []).
Qed.

End TreeIds.

Lemma convertSubgraphSources_ids (P : string -> Prop) (g : Generator)
    (tree : Subgraphs) :
  (forall k v, mget k (namesHashMap g) = Some v -> P v) ->
  convertSubgraphSources g = Some tree -> forestIds P tree.
Proof.
  intros Hnames. unfold convertSubgraphSources. revert tree.
  apply (fold_left_invariant
           (fun acc : option Subgraphs =>
              forall tree, acc = Some tree -> forestIds P tree)).
  - intros tree E. injection E as <-. exact I.
  - intros [t|] m _ Hacc tree; [|discriminate].
    apply (insertPath_ids P (namesHashMap g) Hnames).
    now apply Hacc.
Qed.

(** *** No other line of the text is a directive *)

Lemma replaceAll_newline_free (s : string) :
  hasChar "010" (replaceAll (isChar "010") " " s) = false.
Proof.
  induction s as [|a s IH]; [reflexivity|].
  cbn [replaceAll]. unfold isChar at 1.
  destruct (Ascii.eqb a "010") eqn:E.
  - cbn [append hasChar]. exact IH.
  - cbn [hasChar]. now rewrite E, IH.
Qed.

Lemma renderNode_newline_free (nd : option string) (txt : string) :
  match nd with Some id => minified id | None => True end ->
  hasChar "010" (renderNode nd txt) = false.
Proof.
  intros H. unfold renderNode.
  assert (I : hasChar "010" (interpolate nd) = false).
  { destruct nd as [id|]; [now apply minified_no_newline | reflexivity]. }
  rewrite !hasChar_app, I.
  destruct (Nat.ltb 0 (String.length txt)); [|reflexivity].
  unfold escapeMermaidText. now rewrite replaceAll_newline_free.
Qed.

Lemma renderNode_not_directive (nd : option string) (txt : string) :
  match nd with Some id => minified id | None => True end ->
  isDirectiveLine (renderNode nd txt) = false.
Proof.
  intros H. unfold renderNode.
  destruct nd as [id|]; [now apply minified_not_directive | reflexivity].
Qed.

Lemma renderItem_no_directive :
  forall (t : SubgraphNode) (depth : nat),
    treeIds minified t -> directiveLines (renderItem true depth t) = [].
Proof.
  fix IH 1. intros [nd txt sub] depth H.
  apply treeIds_unfold in H. destruct H as [Hnd Hsub].
  cbn [renderItem].
  assert (C : forall p,
             In p (map (fun kv => renderItem true (S depth) (snd kv)) sub) ->
             directiveLines p = []).
  { clear Hnd. induction sub as [|kv sub' IHs]; intros p Hp; [destruct Hp|].
    cbn [forestIds] in Hsub. destruct Hsub as [Hkv Hsub].
    cbn [map] in Hp. destruct Hp as [<-|Hp].
    - now apply IH.
    - now apply IHs. }
  pose proof (directiveLines_join _ C) as J.
  destruct (join newline (map _ sub) =? "").
  - apply directiveLines_single.
    + now apply renderNode_newline_free.
    + now apply renderNode_not_directive.
  - change ("" ++ "subgraph " ++ renderNode nd txt ++ newline
            ++ join newline (map (fun kv => renderItem true (S depth) (snd kv)) sub)
            ++ newline ++ "" ++ "end")
      with ("subgraph " ++ renderNode nd txt ++ newline
            ++ join newline (map (fun kv => renderItem true (S depth) (snd kv)) sub)
            ++ newline ++ "end").
    rewrite <- (string_app_assoc "subgraph " (renderNode nd txt)).
    rewrite !directiveLines_app_newline, J.
    rewrite directiveLines_single; [reflexivity | | reflexivity].
    rewrite hasChar_app. now rewrite renderNode_newline_free.
Qed.

Lemma renderSubgraphs_no_directive (tree : Subgraphs) :
  forestIds minified tree -> directiveLines (renderSubgraphs true tree 0) = [].
Proof.
  intros H. unfold renderSubgraphs. apply directiveLines_join.
  induction tree as [|kv tree IH]; intros p Hp; [destruct Hp|].
  cbn [forestIds] in H. destruct H as [Hkv H].
  cbn [map] in Hp. destruct Hp as [<-|Hp].
  - now apply renderItem_no_directive.
  - now apply IH.
Qed.

Lemma fold_left_preceded {A} (f : A -> string) (l : list A) (s : string) :
  fold_left (fun styles x => styles ++ newline ++ f x) l s
  = s ++ precededLines (map f l).
Proof.
  revert s. induction l as [|x l IH]; intros s; cbn [fold_left map precededLines].
  - now rewrite string_app_nil_r.
  - rewrite IH. now rewrite !string_app_assoc.
Qed.

Lemma getNodeStyleClass_newline_free (c : FileCategory) :
  hasChar "010" (getNodeStyleClass c) = false.
Proof. destruct c; reflexivity. Qed.

Section MinifiedText.

Variable ms : ModuleMap.
Variable root : string.

Let g := hashModuleNames (newGenerator ms root true).

Lemma renderNodeStyles_no_directive : directiveLines (renderNodeStyles g) = [].
Proof.
  unfold renderNodeStyles.
  rewrite (fold_left_preceded
             (fun entry : string * CodebaseModule =>
                "class " ++ fst entry ++ " "
                ++ getNodeStyleClass (fileCategory (snd entry)))).
  apply directiveLines_preceded. intros l Hl.
  apply in_map_iff in Hl. destruct Hl as [[k m] [<- Hin]]. cbn [fst snd].
  apply directiveLines_single; [|reflexivity].
  rewrite !hasChar_app, getNodeStyleClass_newline_free.
  rewrite (minified_no_newline k); [reflexivity|].
  exact (proj2 (minifying_tables ms root) k m Hin).
Qed.

Lemma edgeLines_no_directive :
  directiveLines (join newline (map edgeLine (convertEdgeSources g))) = [].
Proof.
  apply directiveLines_join. intros p Hp.
  apply in_map_iff in Hp. destruct Hp as [e [<- He]].
  destruct (minifying_edges ms root e He) as [Hf Ht].
  unfold edgeLine. apply directiveLines_single.
  - rewrite !hasChar_app, (minified_no_newline _ Hf), (minified_no_newline _ Ht).
    reflexivity.
  - now apply minified_not_directive.
Qed.

(** The directive lines of the whole text are the style directives. *)
Lemma generate_directive_lines (text : string) :
  snd (generate (newGenerator ms root true)) = Some text ->
  directiveLines text = styleDirectives g (convertEdgeSources g).
Proof.
  intros H. apply generate_text in H. cbv zeta in H. fold g in H.
  destruct H as [tree [Htree ->]].
  cbn [minify newGenerator].
  rewrite (directiveLines_app_newline "flowchart LR").
  rewrite directiveLines_newline.
  rewrite !directiveLines_app_newline.
  rewrite directiveLines_styleBlock.
  rewrite renderNodeStyles_no_directive, edgeLines_no_directive.
  rewrite renderSubgraphs_no_directive.
  - reflexivity.
  - apply (convertSubgraphSources_ids minified g tree); [|exact Htree].
    apply (minifying_lookup ms root).
Qed.

End MinifiedText.

(** ** Claims on rendering *)

(** C2.  After identifier assignment, let the deduplicated edges be
    [edges].  There are exactly as many style directives as edges; the
    directive at position i is [linkStyle i] followed by the style of the
    edge at position i, which is also the edge the i-th edge line draws;
    the lines of the style block are these directives in that order; the
    rendered text ends with the edge lines, the node classes and the
    style block, the last two preceded by a line break; and, identifiers
    being minified as [generateMermaid] asks, the lines of the whole text
    that begin with [linkStyle] are exactly these directives. *)
Theorem edge_styles_follow_edges (ms : ModuleMap) (root : string) (mini : bool) :
  let g := hashModuleNames (newGenerator ms root mini) in
  let edges := convertEdgeSources g in
  let directives := styleDirectives g edges in
  List.length directives = List.length edges
  /\ (forall i e, nth_error edges i = Some e ->
        nth_error directives i = Some (styleDirective g i e) /\
        nth_error (map edgeLine edges) i = Some (edgeLine e))
  /\ splitOn "010" (renderEdgeStyles g edges) = "" :: directives
  /\ (forall text,
        snd (generate (newGenerator ms root mini)) = Some text ->
        (exists subgraphs,
            convertSubgraphSources g = Some subgraphs /\
            text = "flowchart LR" ++ newline ++ newline
                   ++ renderClassDefinitions ++ newline
                   ++ renderSubgraphs mini subgraphs 0 ++ newline
                   ++ join newline (map edgeLine edges) ++ newline
                   ++ renderNodeStyles g ++ newline
                   ++ precededLines directives) /\
        (mini = true -> directiveLines text = directives)).
Proof.
  intros g edges directives.
  split; [apply styleDirectivesFrom_length|].
  split; [|split].
  - intros i e Hn. split.
    + now apply (styleDirectivesFrom_nth g edges 0 i e).
    + now apply map_nth_error.
  - rewrite renderEdgeStyles_spec. apply splitOn_precededLines.
    apply styleDirectivesFrom_no_newline.
  - intros text H. split; [exact (generate_text _ _ H)|].
    intros M. unfold directives, edges, g. subst mini.
    now apply generate_directive_lines.
Qed.

Lemma edge_styles_follow_edges_witness :
  exists e,
    nth_error (convertEdgeSources sampleGenerator) 1 = Some e /\
    nth_error (styleDirectives sampleGenerator
                 (convertEdgeSources sampleGenerator)) 1
    = Some ("linkStyle 1 stroke:#0066CC,stroke-width:2px") /\
    edgeLine e = "N1-->N5".
Proof.
  pose (e := {| edgeFrom := {| endNode := "N1"; endText := "a.ts" |};
                edgeTo := {| endNode := "N5"; endText := "index.ts" |} |}).
  assert (H : nth_error (convertEdgeSources sampleGenerator) 1 = Some e)
    by (vm_compute; reflexivity).
  exists e. split; [exact H|]. split; [|reflexivity].
  destruct (edge_styles_follow_edges sampleModules "/ws" true) as [_ [A _]].
  destruct (A 1 e H) as [B _].
  etransitivity; [exact B|]. vm_compute. reflexivity.
Defined.

(** C3.  The edge loop visits the modules in map order and, within a
    module, the dependencies in list order; every dependency with a
    resolved path, marked valid, whose target has an identifier asks for
    one edge.  The emitted list is this list of candidates with the
    first edge between two nodes kept and the later ones dropped: no two
    emitted edges join the same pair of identifiers, every candidate
    pair is emitted, and an emitted edge is the first candidate of its
    pair. *)
Theorem edge_deduplication (g : Generator) :
  let edges := convertEdgeSources g in
  edges = keepFirst (candidateEdges g)
  /\ NoDup (map edgeKey edges)
  /\ (forall c, In c (candidateEdges g) ->
        exists e, In e edges /\ edgeKey e = edgeKey c)
  /\ (forall e, In e edges ->
        exists before after,
          candidateEdges g = (before ++ e :: after)%list /\
          forall c, In c before -> edgeKey c <> edgeKey e)
  /\ renderEdges edges = join newline (map edgeLine edges).
Proof.
  intros edges. unfold edges. rewrite convertEdgeSources_keepFirst.
  repeat split.
  - apply keepFirst_keys_NoDup.
  - apply keepFirst_covers.
  - apply keepFirst_first.
Qed.

Lemma edge_deduplication_witness :
  List.length (candidateEdges sampleGenerator) = 3 /\
  map edgeKey (convertEdgeSources sampleGenerator)
  = [("N1", "N2"); ("N1", "N5")] /\
  exists e, In e (convertEdgeSources sampleGenerator) /\
            edgeKey e = ("N1", "N2").
Proof.
  split; [vm_compute; reflexivity|].
  split; [vm_compute; reflexivity|].
  pose (c := {| edgeFrom := {| endNode := "N1"; endText := "a.ts" |};
                edgeTo := {| endNode := "N2"; endText := "b.ts" |} |}).
  destruct (edge_deduplication sampleGenerator) as [_ [_ [A _]]].
  apply (A c). vm_compute. tauto.
Defined.

(** ** Calling [generate] again on the same generator *)

Section MapOps.

Context {V : Type}.

Lemma mhas_mset (x k : string) (v : V) (m : JsMap V) :
  mhas x (mset k v m) = (k =? x) || mhas x m.
Proof.
  unfold mhas. induction m as [|[k' v'] m IH]; cbn [mset mget].
  - destruct (k =? x); reflexivity.
  - destruct (String.eqb_spec k' k) as [->|N]; cbn [mget].
    + destruct (k =? x); reflexivity.
    + destruct (String.eqb_spec k' x) as [->|N'].
      * apply String.eqb_neq in N. rewrite String.eqb_sym in N. now rewrite N.
      * exact IH.
Qed.

Lemma mget_mset_other (x k : string) (v : V) (m : JsMap V) :
  k <> x -> mget x (mset k v m) = mget x m.
Proof.
  intros N. induction m as [|[k' v'] m IH]; cbn [mset mget].
  - apply String.eqb_neq in N. now rewrite N.
  - destruct (String.eqb_spec k' k) as [->|N1]; cbn [mget].
    + apply String.eqb_neq in N. now rewrite N.
    + destruct (k' =? x); [reflexivity | exact IH].
Qed.

Lemma mset_mset_same (k : string) (v v' : V) (m : JsMap V) :
  mset k v (mset k v' m) = mset k v m.
Proof.
  induction m as [|[k' w] m IH]; cbn [mset].
  - now rewrite String.eqb_refl.
  - destruct (k' =? k) eqn:E; cbn [mset].
    + now rewrite String.eqb_refl.
    + now rewrite E, IH.
Qed.

Lemma mset_comm_present (k k1 : string) (v v1 : V) (m : JsMap V) :
  k <> k1 -> mhas k1 m = true ->
  mset k1 v1 (mset k v m) = mset k v (mset k1 v1 m).
Proof.
  intros N. unfold mhas. induction m as [|[a b] m IH]; [discriminate|].
  cbn [mget mset].
  destruct (String.eqb_spec a k1) as [->|N1].
  - intros _. apply String.eqb_neq in N. rewrite String.eqb_sym in N.
    rewrite N. cbn [mset]. now rewrite String.eqb_refl, N.
  - intros H. destruct (String.eqb_spec a k) as [->|N2]; cbn [mset].
    + apply String.eqb_neq in N. rewrite N. now rewrite String.eqb_refl.
    + apply String.eqb_neq in N1, N2. rewrite N1, N2. now rewrite (IH H).
Qed.

Lemma applyOps_snoc (ops : list (string * V)) (k : string) (v : V) (m : JsMap V) :
  applyOps (ops ++ [(k, v)]) m = mset k v (applyOps ops m).
Proof. unfold applyOps. now rewrite fold_left_app. Qed.

Lemma applyOps_mhas (ops : list (string * V)) (m : JsMap V) (x : string) :
  mhas x m = true \/ In x (map fst ops) -> mhas x (applyOps ops m) = true.
Proof.
  revert m. induction ops as [|[k v] ops IH]; intros m; cbn [applyOps fold_left map].
  - intros [H|[]]. exact H.
  - intros H. apply IH. cbn [fst snd]. rewrite mhas_mset.
    destruct H as [H|[<-|H]].
    + left. now rewrite H, orb_true_r.
    + left. now rewrite String.eqb_refl.
    + now right.
Qed.

(** A value written before the sequence is overwritten by it, as long
    as the sequence adds no key. *)
Lemma applyOps_absorbs (ops : list (string * V)) (k : string) (v v' : V)
    (m : JsMap V) :
  (forall x, In x (map fst ops) -> mhas x m = true) ->
  mset k v (applyOps ops (mset k v' m)) = mset k v (applyOps ops m).
Proof.
  revert m. induction ops as [|[k1 v1] ops IH]; intros m Hp.
  - cbn [applyOps fold_left]. apply mset_mset_same.
  - unfold applyOps in *. cbn [fold_left fst snd].
    destruct (String.eqb_spec k k1) as [<-|N].
    + now rewrite mset_mset_same.
    + rewrite mset_comm_present by (auto; apply Hp; now left).
      apply IH. intros x Hx. rewrite mhas_mset.
      rewrite (Hp x (or_intror Hx)). apply orb_true_r.
Qed.

Lemma applyOps_idempotent (ops : list (string * V)) (m : JsMap V) :
  applyOps ops (applyOps ops m) = applyOps ops m.
Proof.
  induction ops as [|[k v] ops IH] using rev_ind; [reflexivity|].
  rewrite !applyOps_snoc.
  rewrite applyOps_absorbs.
  - now rewrite IH.
  - intros x Hx. apply applyOps_mhas. now right.
Qed.

End MapOps.

Lemma collectPaths_relative (ms : ModuleMap) (k : string) (m : CodebaseModule) :
  In (k, m) ms -> In (relativePath m) (collectPaths ms).
Proof.
  intros Hin. unfold collectPaths.
  assert (Hm : In m (mvalues ms)).
  { unfold mvalues. apply in_map_iff. now exists (k, m). }
  generalize (@nil string). revert Hm.
  induction (mvalues ms) as [|m' l IH]; intros Hm acc; [destruct Hm|].
  cbn [fold_left]. destruct Hm as [->|Hm]; [|now apply IH].
  assert (G : forall (l' : list CodebaseModule) (acc' : list string),
             In (relativePath m) acc' ->
             In (relativePath m)
               (fold_left
                  (fun allPaths m0 =>
                     sadd (relativePath m0)
                       (fold_left (fun acc0 p => sadd p acc0)
                          (pathPrefixes (segments (relativePath m0))) allPaths))
                  l' acc')).
  { induction l' as [|x l' IH']; intros acc' H; [exact H|].
    cbn [fold_left]. apply IH'. apply sadd_In. right.
    generalize (pathPrefixes (segments (relativePath x))).
    intros ps. revert acc' H.
    induction ps as [|p ps IHp]; intros acc' H; [exact H|].
    cbn [fold_left]. apply IHp. apply sadd_In. now right. }
  apply G. apply sadd_In. now left.
Qed.

Section SameGenerator.

Variable ms : ModuleMap.
Hypothesis apart : keysApart ms = true.

Lemma key_not_relative (k k' : string) (m m' : CodebaseModule) :
  In (k, m) ms -> In (k', m') ms -> k <> relativePath m'.
Proof.
  intros Hk Hk' E.
  unfold keysApart in apart. rewrite forallb_forall in apart.
  assert (K : In k (mkeys ms)).
  { unfold mkeys. apply in_map_iff. now exists (k, m). }
  specialize (apart k K). apply negb_true_iff in apart.
  assert (C : memberOf k (collectPaths ms) = true).
  { apply memberOf_In. rewrite E. now apply (collectPaths_relative ms k'). }
  congruence.
Qed.

(** With keys and relative paths apart, the third loop is a fixed
    sequence of [set] calls on each table. *)
Lemma mapAbsolutePaths_ops (l : ModuleMap) (names : JsMap string)
    (byId : JsMap CodebaseModule) :
  (forall k m, In (k, m) l -> In (k, m) ms) ->
  mapAbsolutePaths l (names, byId)
  = (applyOps (map (fun o => (fst (fst o), snd (fst o))) (absoluteOps names l)) names,
     applyOps (map (fun o => (snd (fst o), snd o)) (absoluteOps names l)) byId).
Proof.
  revert names byId. induction l as [|[k m] l IH]; intros names byId Hl;
    [reflexivity|].
  assert (Hl' : forall k' m', In (k', m') l -> In (k', m') ms)
    by (intros k' m' H; apply Hl; now right).
  assert (Same : forall v, absoluteOps (mset k v names) l = absoluteOps names l).
  { intros v. unfold absoluteOps. clear IH.
    induction l as [|[k' m'] l IHl]; [reflexivity|].
    cbn [filterMap fst snd].
    rewrite mget_mset_other
      by (apply (key_not_relative k k' m m'); [apply Hl; now left | apply Hl; now right; left]).
    rewrite IHl; [reflexivity | | ].
    - intros a b H. apply Hl. destruct H as [H|H]; [now left | now right; right].
    - intros a b H. apply Hl'. now right. }
  unfold mapAbsolutePaths in *. cbn [fold_left].
  unfold absoluteOps at 1 2. cbn [filterMap fst snd].
  destruct (mget (relativePath m) names) as [hashedId|]; [|now apply IH].
  destruct (nonEmpty hashedId); [|now apply IH].
  rewrite (IH _ _ Hl'), Same. reflexivity.
Qed.

Lemma absoluteOps_stable (ops : list (string * string)) (names : JsMap string)
    (l : ModuleMap) :
  (forall k m, In (k, m) l -> In (k, m) ms) ->
  (forall x, In x (map fst ops) -> In x (mkeys ms)) ->
  absoluteOps (applyOps ops names) l = absoluteOps names l.
Proof.
  intros Hl Hops. revert names.
  induction ops as [|[k v] ops IH]; intros names; [reflexivity|].
  unfold applyOps in *. cbn [fold_left fst snd].
  rewrite IH by (intros x Hx; apply Hops; now right).
  assert (K : In k (mkeys ms)) by (apply Hops; now left).
  unfold mkeys in K. apply in_map_iff in K. destruct K as [[k0 m0] [E K]].
  cbn [fst] in E. subst k0.
  unfold absoluteOps. clear IH.
  induction l as [|[k' m'] l IHl]; [reflexivity|].
  cbn [filterMap fst snd].
  rewrite mget_mset_other
    by (apply (key_not_relative k k' m0 m'); [exact K | apply Hl; now left]).
  rewrite IHl; [reflexivity|].
  intros a b H. apply Hl. now right.
Qed.

Lemma absoluteOps_keys (table : JsMap string) (l : ModuleMap) (x : string) :
  In x (map fst (map (fun o : string * string * CodebaseModule =>
                        (fst (fst o), snd (fst o))) (absoluteOps table l))) ->
  In x (mkeys l).
Proof.
  unfold absoluteOps, mkeys.
  induction l as [|[k m] l IH]; [intros []|].
  cbn [filterMap fst snd map].
  destruct (mget (relativePath m) table) as [id|]; [|intros H; right; now apply IH].
  destruct (nonEmpty id); [|intros H; right; now apply IH].
  cbn [map fst snd]. intros [<-|H]; [now left | right; now apply IH].
Qed.

Lemma assignIds_settled (mini : bool) (l : list string) (names : JsMap string) :
  (forall p, In p l -> mhas p names = true) ->
  assignIds mini l names = (names, 0).
Proof.
  intros H. unfold assignIds. induction l as [|p l IH]; [reflexivity|].
  cbn [fold_left]. rewrite (H p (or_introl eq_refl)).
  apply IH. intros q Hq. apply H. now right.
Qed.

Lemma assignIds_covers_from (mini : bool) (l : list string) (p : string)
    (st : JsMap string * nat) :
  In p l \/ mhas p (fst st) = true ->
  mhas p (fst (fold_left
                 (fun st rel =>
                    let '(names, count) := st in
                    if mhas rel names then (names, count)
                    else if mini
                         then (mset rel (minifiedId count) names, S count)
                         else (mset rel (hashToReadableNodeName rel) names, count))
                 l st)) = true.
Proof.
  revert st. induction l as [|q l IH]; intros [names count] H.
  - destruct H as [[]|H]. exact H.
  - cbn [fold_left]. apply IH.
    destruct H as [[->|H]|H]; [right | now left | right].
    + destruct (mhas p names) eqn:E; [exact E|].
      destruct mini; cbn [fst]; rewrite mhas_mset, String.eqb_refl; reflexivity.
    + cbn [fst] in H. destruct (mhas q names); [exact H|].
      destruct mini; cbn [fst]; rewrite mhas_mset, H; apply orb_true_r.
Qed.

Lemma assignIds_covers (mini : bool) (l : list string) (p : string) :
  In p l -> mhas p (fst (assignIds mini l [])) = true.
Proof. intros H. apply assignIds_covers_from. now left. Qed.

Variable root : string.
Variable mini : bool.

Lemma hashModuleNames_closed :
  let names := fst (assignIds mini (collectPaths ms) []) in
  hashModuleNames (newGenerator ms root mini)
  = {| modules := ms;
       workspaceRoot := root;
       namesHashMap :=
         applyOps (map (fun o => (fst (fst o), snd (fst o)))
                       (absoluteOps names ms)) names;
       minify := mini;
       nodeIdToModule :=
         applyOps (map (fun o => (snd (fst o), snd o))
                       (absoluteOps names ms)) [] |}.
Proof.
  unfold hashModuleNames.
  cbn [modules namesHashMap minify nodeIdToModule workspaceRoot newGenerator].
  destruct (assignIds mini (collectPaths ms) []) as [names c]. cbn [fst].
  now rewrite (mapAbsolutePaths_ops ms names [] (fun k m H => H)).
Qed.

(** Identifier assignment has nothing left to do on its own result. *)
Lemma hashModuleNames_again :
  hashModuleNames (hashModuleNames (newGenerator ms root mini))
  = hashModuleNames (newGenerator ms root mini).
Proof.
  rewrite hashModuleNames_closed.
  set (names := fst (assignIds mini (collectPaths ms) [])).
  set (opsN := map (fun o : string * string * CodebaseModule =>
                      (fst (fst o), snd (fst o))) (absoluteOps names ms)).
  set (opsB := map (fun o : string * string * CodebaseModule =>
                      (snd (fst o), snd o)) (absoluteOps names ms)).
  unfold hashModuleNames.
  cbn [modules namesHashMap minify nodeIdToModule workspaceRoot].
  rewrite assignIds_settled.
  - rewrite (mapAbsolutePaths_ops ms _ _ (fun k m H => H)).
    rewrite (absoluteOps_stable opsN names ms (fun k m H => H)).
    + fold opsN opsB. now rewrite !applyOps_idempotent.
    + intros x Hx. unfold opsN in Hx. now apply absoluteOps_keys in Hx.
  - intros p Hp. apply applyOps_mhas. left.
    now apply assignIds_covers.
Qed.

(** A second call on the generator returns the text of the first. *)
Lemma generate_again :
  snd (generate (fst (generate (newGenerator ms root mini))))
  = snd (generate (newGenerator ms root mini)).
Proof.
  assert (F : fst (generate (newGenerator ms root mini))
              = hashModuleNames (newGenerator ms root mini)).
  { unfold generate. now destruct (convertSubgraphSources _). }
  rewrite F. unfold generate at 1. rewrite hashModuleNames_again.
  unfold generate. reflexivity.
Qed.

End SameGenerator.

(** ** Claim on determinism *)

(** Absolute keys keep clear of the relative paths of an analysed map. *)
Lemma analyzed_keysApart (h : Host) (root : string) (files : list string) :
  (forall f, In f files -> isAbsolute f = true) ->
  keysApart (resolveDependencies (analyzeFiles h root files)) = true.
Proof.
  intros Habs. unfold keysApart. apply forallb_forall. intros k Hk.
  apply negb_true_iff.
  destruct (memberOf k (collectPaths _)) eqn:M; [|reflexivity].
  apply memberOf_In in M.
  apply collectPaths_not_absolute in M; [|apply linked_relative].
  destruct (linked_invariant h root files) as [Hkeys _].
  rewrite Hkeys in Hk. unfold mkeys in Hk. apply in_map_iff in Hk.
  destruct Hk as [[k' m] [E Hin]]. cbn [fst] in E. subst k'.
  apply analyzeFiles_entries in Hin. destruct Hin as [_ Hf].
  rewrite (Habs k Hf) in M. discriminate M.
Qed.

(** C7.  Rendering leaves the module map as it was, and rendering the
    map again, which builds a new generator, returns the same text; so
    does a second call of [generate] on the generator of the first, when
    no key of the map is also one of its relative paths (as is the case
    of absolute keys).  Identifiers follow the order in which paths are
    first seen: the distinct paths [allPaths] are collected in map order,
    and the path at position i receives the identifier made of N and the
    base-36 numeral of i. *)
Theorem render_twice_identical (b : CodebaseGraphBuilder) :
  let ms := builderModules b in
  let g := newGenerator ms (builderRoot b) true in
  let allPaths := collectPaths ms in
  modules (fst (generate g)) = ms
  /\ generateMermaid {| builderModules := modules (fst (generate g));
                        builderRoot := builderRoot b |}
     = generateMermaid b
  /\ NoDup allPaths
  /\ assignIds true allPaths []
     = (combine allPaths (map minifiedId (seq 0 (List.length allPaths))),
        List.length allPaths)
  /\ (forall i p,
        nth_error allPaths i = Some p ->
        mget p (fst (assignIds true allPaths [])) = Some (minifiedId i))
  /\ (keysApart ms = true ->
      snd (generate (fst (generate g))) = snd (generate g)).
Proof.
  intros ms g allPaths.
  assert (M : modules (fst (generate g)) = ms).
  { unfold generate.
    destruct (convertSubgraphSources (hashModuleNames g)); cbn [fst];
      apply (hashModuleNames_fields g). }
  assert (A : assignIds true allPaths []
              = (combine allPaths (map minifiedId (seq 0 (List.length allPaths))),
                 List.length allPaths)).
  { unfold assignIds.
    rewrite (assignIds_fresh allPaths [] 0 (collectPaths_NoDup ms));
      [reflexivity | reflexivity]. }
  split; [exact M|]. split; [now rewrite M; destruct b|].
  split; [apply collectPaths_NoDup|]. split; [exact A|].
  split; [|intros K; now apply generate_again].
  intros i p Hn. rewrite A. cbn [fst].
  rewrite (mget_combine_nth allPaths _ i p (collectPaths_NoDup ms)).
  - rewrite nth_error_map, nth_error_seq.
    assert (L : i < List.length allPaths)
      by (apply nth_error_Some; congruence).
    apply Nat.ltb_lt in L. now rewrite L.
  - now rewrite length_map, length_seq.
  - exact Hn.
Qed.

Lemma render_twice_identical_witness :
  nth_error (collectPaths sampleModules) 1 = Some "src/a.ts" /\
  mget "src/a.ts" (fst (assignIds true (collectPaths sampleModules) []))
  = Some "N1" /\
  keysApart sampleModules = true /\
  snd (generate (fst (generate (newGenerator sampleModules "/ws" true))))
  = snd (generate (newGenerator sampleModules "/ws" true)).
Proof.
  assert (H : nth_error (collectPaths sampleModules) 1 = Some "src/a.ts")
    by (vm_compute; reflexivity).
  assert (K : keysApart sampleModules = true) by (vm_compute; reflexivity).
  destruct (render_twice_identical
              {| builderModules := sampleModules; builderRoot := "/ws" |})
    as [_ [_ [_ [_ [A B]]]]].
  split; [exact H|]. split; [exact (A 1 "src/a.ts" H)|].
  split; [exact K | exact (B K)].
Defined.

(* ================================================================== *)
(** * Further properties *)
(* ================================================================== *)

(** ** A resolved path was probed and exists *)








(** ** The module map the analyzer builds *)

Lemma mkeys_mset_sadd {V} (k : string) (v : V) (m : JsMap V) :
  mkeys (mset k v m) = sadd k (mkeys m).
Proof.
  unfold sadd. destruct (memberOf k (mkeys m)) eqn:M.
  - apply memberOf_In in M. unfold mkeys in *.
    induction m as [|[k' v'] m IH]; [destruct M|].
    cbn [mset map fst] in *.
    destruct (String.eqb_spec k' k) as [->|N]; [reflexivity|].
    cbn [map fst]. f_equal. apply IH.
    destruct M as [E|M]; [contradiction | exact M].
  - assert (A : mhas k m = false).
    { destruct (mhas k m) eqn:H; [|reflexivity].
      apply mhas_In in H. apply memberOf_In in H. congruence. }
    rewrite (mset_absent k v m A). unfold mkeys. now rewrite map_app.
Qed.

Lemma dedupe_from (l acc : list string) :
  NoDup acc -> NoDup (fold_left (fun a x => sadd x a) l acc).
Proof.
  revert acc. induction l as [|x l IH]; intros acc H; [exact H|].
  cbn [fold_left]. apply IH. now apply sadd_NoDup.
Qed.

Lemma dedupe_NoDup (l : list string) : NoDup (dedupe l).
Proof. apply dedupe_from. constructor. Qed.

Lemma dedupe_In (l : list string) (x : string) : In x (dedupe l) <-> In x l.
Proof.
  unfold dedupe.
  assert (G : forall acc, In x (fold_left (fun a y => sadd y a) l acc)
                          <-> In x l \/ In x acc).
  { induction l as [|y l IH]; intros acc; cbn [fold_left].
    - simpl. tauto.
    - rewrite IH, sadd_In. simpl. intuition (subst; auto). }
  rewrite G. simpl. tauto.
Qed.

Lemma analyzeFile_readable (h : Host) (root f : string) :
  isSome (analyzeFile h root f) = readable h f.
Proof.
  unfold analyzeFile, readable. now destruct (readFile h f).
Qed.

Lemma analyzeFiles_keys_from (h : Host) (root : string) (files : list string)
    (acc : ModuleMap) :
  mkeys (fold_left
           (fun modules filePath =>
              match analyzeFile h root filePath with
              | Some m => mset (source m) m modules
              | None => modules
              end) files acc)
  = fold_left (fun a x => sadd x a) (filter (readable h) files) (mkeys acc).
Proof.
  revert acc. induction files as [|f files IH]; intros acc; [reflexivity|].
  cbn [fold_left filter]. rewrite IH.
  rewrite <- (analyzeFile_readable h root f).
  destruct (analyzeFile h root f) as [m|] eqn:E; cbn [isSome fold_left];
    [|reflexivity].
  destruct (analyzeFile_source _ _ _ _ E) as [-> _].
  now rewrite mkeys_mset_sadd.
Qed.

Lemma resolveDependencies_keys (ms : ModuleMap) :
  mkeys (resolveDependencies ms) = mkeys ms.
Proof.
  unfold resolveDependencies.
  apply (fold_left_invariant (fun acc : ModuleMap => mkeys acc = mkeys ms));
    [reflexivity|].
  intros acc entry _ Hacc.
  apply (fold_left_invariant (fun acc : ModuleMap => mkeys acc = mkeys ms));
    [exact Hacc|].
  intros acc' dep _ H. unfold linkDependency.
  destruct (resolved dep) as [r|]; [|exact H].
  destruct (nonEmpty r && mhas r acc'); [|exact H].
  now rewrite mkeys_mupdate.
Qed.

Lemma NoDup_keys_mget {V} (m : JsMap V) (k : string) (v : V) :
  NoDup (mkeys m) -> In (k, v) m -> mget k m = Some v.
Proof.
  unfold mkeys. induction m as [|[k' v'] m IH]; [intros _ []|].
  cbn [map fst mget]. intros Hnd Hin. inversion Hnd as [|? ? Hk Hm]; subst.
  destruct Hin as [E|Hin].
  - injection E as -> ->. now rewrite String.eqb_refl.
  - destruct (String.eqb_spec k' k) as [->|N]; [|now apply IH].
    exfalso. apply Hk. apply in_map_iff. now exists (k, v).
Qed.

(** X2.  The keys of the finished module map are the readable files of
    the list analysed, each once, in the order in which they first occur;
    an unreadable file is no key; and the module under a key is the
    analysis of that file, but for its dependents. *)
Theorem module_map_keys (h : Host) (root : string) (files : list string) :
  let linked := resolveDependencies (analyzeFiles h root files) in
  mkeys linked = dedupe (filter (readable h) files)
  /\ NoDup (mkeys linked)
  /\ (forall f, mhas f linked = true <-> In f files /\ readFile h f <> None)
  /\ (forall k m, mget k linked = Some m ->
        exists m0, analyzeFile h root k = Some m0 /\
                   m = withDependents (dependents m) m0 /\ source m = k).
Proof.
  intros linked.
  assert (K : mkeys linked = dedupe (filter (readable h) files)).
  { unfold linked. rewrite resolveDependencies_keys.
    unfold analyzeFiles. now rewrite analyzeFiles_keys_from. }
  split; [exact K|]. split; [rewrite K; apply dedupe_NoDup|]. split.
  - intros f. rewrite mhas_In, K, dedupe_In, filter_In.
    unfold readable. destruct (readFile h f); simpl; split; intros [A B];
      (split; [exact A|]); try discriminate; try reflexivity.
    now contradiction B.
  - intros k m Hm. apply mget_In in Hm.
    destruct (linked_origin h root files k m Hm) as [m0 [E Em]].
    exists m0. split; [exact E|]. split; [exact Em|].
    rewrite Em. cbn [withDependents source].
    now destruct (analyzeFile_source _ _ _ _ E) as [S _].
Qed.

Lemma module_map_keys_witness :
  mget "/ws/src/b.ts" sampleModules <> None /\
  exists m0, analyzeFile sampleHost "/ws" "/ws/src/b.ts" = Some m0.
Proof.
  destruct (mget "/ws/src/b.ts" sampleModules) as [m|] eqn:E;
    [|vm_compute in E; discriminate E].
  split; [discriminate|].
  destruct (module_map_keys sampleHost "/ws" (mkeys sampleFiles))
    as [_ [_ [_ A]]].
  destruct (A "/ws/src/b.ts" m E) as [m0 [H _]]. now exists m0.
Defined.

(** ** Backlinks are complete *)

Lemma fold_left_reaches {A B} (I P : A -> Prop) (f : A -> B -> A)
    (l : list B) (a : A) (x : B) :
  In x l -> I a ->
  (forall acc y, In y l -> I acc -> I (f acc y)) ->
  (forall acc, I acc -> P (f acc x)) ->
  (forall acc y, In y l -> I acc -> P acc -> P (f acc y)) ->
  P (fold_left f l a).
Proof.
  revert a. induction l as [|y l IH]; intros a Hx Ia HI Hest Hkeep; [destruct Hx|].
  cbn [fold_left].
  assert (Ia' : I (f a y)) by (apply HI; [now left | exact Ia]).
  destruct Hx as [->|Hx].
  - assert (Pa : P (f a x)) by now apply Hest.
    clear IH Hest. revert Pa Ia'. generalize (f a x).
    induction l as [|z l IHl]; intros b Pb Ib; [exact Pb|].
    cbn [fold_left]. apply IHl.
    + intros acc w Hw. apply HI. destruct Hw as [E|Hw]; [now left | now right; right].
    + intros acc w Hw. apply Hkeep. destruct Hw as [E|Hw]; [now left | now right; right].
    + apply Hkeep; [right; now left | exact Ib | exact Pb].
    + apply HI; [right; now left | exact Ib].
  - apply IH; auto.
    + intros acc w Hw. apply HI. now right.
    + intros acc w Hw. apply Hkeep. now right.
Qed.

Lemma mget_mupdate {V} (k r : string) (f : V -> V) (m : JsMap V) :
  mget k (mupdate r f m)
  = if r =? k then option_map f (mget k m) else mget k m.
Proof.
  induction m as [|[k' v] m IH]; cbn [mupdate mget].
  - now destruct (r =? k).
  - destruct (String.eqb_spec k' r) as [->|N]; cbn [mget].
    + destruct (r =? k); reflexivity.
    + destruct (String.eqb_spec k' k) as [->|N'].
      * apply String.eqb_neq in N. rewrite String.eqb_sym in N. now rewrite N.
      * exact IH.
Qed.

Lemma addDependent_keeps (src a : string) (m : CodebaseModule) :
  In a (dependents m) -> In a (dependents (addDependent src m)).
Proof.
  intros H. rewrite addDependent_spec. cbn [withDependents dependents].
  destruct (memberOf src (dependents m)); [exact H|].
  apply in_or_app. now left.
Qed.

Lemma addDependent_adds (src : string) (m : CodebaseModule) :
  In src (dependents (addDependent src m)).
Proof.
  rewrite addDependent_spec. cbn [withDependents dependents].
  destruct (memberOf src (dependents m)) eqn:M; [now apply memberOf_In|].
  apply in_or_app. right. now left.
Qed.

Section Backlinks.

Variable built : ModuleMap.
Variables a b : string.

Let hasBacklink (acc : ModuleMap) : Prop :=
  exists mb, mget b acc = Some mb /\ In a (dependents mb).

Let sameKeys (acc : ModuleMap) : Prop := mkeys acc = mkeys built.

Lemma linkDependency_sameKeys (src : string) (dep : CodebaseDependency)
    (acc : ModuleMap) :
  sameKeys acc -> sameKeys (linkDependency src acc dep).
Proof.
  unfold sameKeys, linkDependency. intros H.
  destruct (resolved dep) as [r|]; [|exact H].
  destruct (nonEmpty r && mhas r acc); [|exact H].
  now rewrite mkeys_mupdate.
Qed.

Lemma linkDependency_keeps (src : string) (dep : CodebaseDependency)
    (acc : ModuleMap) :
  hasBacklink acc -> hasBacklink (linkDependency src acc dep).
Proof.
  unfold hasBacklink, linkDependency. intros [mb [G Hin]].
  destruct (resolved dep) as [r|]; [|now exists mb].
  destruct (nonEmpty r && mhas r acc); [|now exists mb].
  rewrite mget_mupdate, G. destruct (r =? b); [|now exists mb].
  exists (addDependent src mb). split; [reflexivity|].
  now apply addDependent_keeps.
Qed.

Lemma linkDependency_links (dep : CodebaseDependency) (acc : ModuleMap) :
  resolved dep = Some b -> nonEmpty b = true -> mhas b built = true ->
  sameKeys acc -> hasBacklink (linkDependency a acc dep).
Proof.
  unfold hasBacklink, linkDependency, sameKeys. intros R N Hb Hk.
  rewrite R, N, (mhas_same_keys b acc built Hk), Hb. cbn [andb].
  rewrite mget_mupdate, String.eqb_refl.
  assert (M : mhas b acc = true) by now rewrite (mhas_same_keys b acc built Hk).
  unfold mhas in M. destruct (mget b acc) as [mb|]; [|discriminate M].
  exists (addDependent a mb). split; [reflexivity | apply addDependent_adds].
Qed.

Lemma resolveDependencies_complete (ma : CodebaseModule) (dep : CodebaseDependency) :
  In (a, ma) built -> In dep (dependencies ma) ->
  resolved dep = Some b -> nonEmpty b = true -> mhas b built = true ->
  hasBacklink (resolveDependencies built).
Proof.
  intros Ha Hdep R N Hb. unfold resolveDependencies.
  apply (fold_left_reaches sameKeys hasBacklink _ built built (a, ma) Ha).
  - reflexivity.
  - intros acc entry _ Hacc.
    apply (fold_left_invariant sameKeys); [exact Hacc|].
    intros acc' d _ H. now apply linkDependency_sameKeys.
  - intros acc Hacc. cbn [fst snd].
    apply (fold_left_reaches sameKeys hasBacklink _ _ acc dep Hdep Hacc).
    + intros acc' d _ H. now apply linkDependency_sameKeys.
    + intros acc' H. now apply linkDependency_links.
    + intros acc' d _ _ H. now apply linkDependency_keeps.
  - intros acc entry _ Hacc H.
    assert (G : forall l acc0, hasBacklink acc0 ->
               hasBacklink (fold_left (linkDependency (fst entry)) l acc0)).
    { induction l as [|d l IH]; intros acc0 H0; [exact H0|].
      cbn [fold_left]. apply IH. now apply linkDependency_keeps. }
    now apply G.
Qed.

End Backlinks.

(** X3.  Dependent linking misses no import: when a module under key [a]
    has a dependency resolved onto a key [b] of the map, the dependents
    of the module under [b] contain [a] after linking. *)
Theorem backlinks_complete (built : ModuleMap) (a b : string)
    (ma : CodebaseModule) (dep : CodebaseDependency) :
  In (a, ma) built -> In dep (dependencies ma) ->
  resolved dep = Some b -> b <> "" -> mhas b built = true ->
  exists mb, mget b (resolveDependencies built) = Some mb /\
             In a (dependents mb).
Proof.
  intros Ha Hdep R N Hb.
  apply (resolveDependencies_complete built a b ma dep Ha Hdep R); [|exact Hb].
  unfold nonEmpty. apply negb_true_iff. now apply String.eqb_neq.
Qed.

Lemma backlinks_complete_witness :
  exists mb, mget "/ws/src/b.ts" sampleModules = Some mb /\
             In "/ws/src/a.ts" (dependents mb).
Proof.
  destruct (analyzeFile sampleHost "/ws" "/ws/src/a.ts") as [ma|] eqn:E;
    [|vm_compute in E; discriminate E].
  apply (backlinks_complete (analyzeFiles sampleHost "/ws" (mkeys sampleFiles))
           "/ws/src/a.ts" "/ws/src/b.ts" ma
           (mkDependency "./b" (Some "/ws/src/b.ts") "import")).
  - vm_compute in E. injection E as <-. vm_compute. left. reflexivity.
  - vm_compute in E. injection E as <-. vm_compute. left. reflexivity.
  - reflexivity.
  - discriminate.
  - reflexivity.
Defined.

(** ** Escaped labels and readable names *)

Lemma replaceAll_removes (c : ascii) (by_ s : string) :
  hasChar c by_ = false ->
  hasChar c (replaceAll (isChar c) by_ s) = false.
Proof.
  intros B. induction s as [|a s IH]; [reflexivity|].
  cbn [replaceAll]. unfold isChar at 1.
  destruct (Ascii.eqb a c) eqn:E.
  - now rewrite hasChar_app, B, IH.
  - cbn [hasChar]. now rewrite E, IH.
Qed.

Lemma replaceAll_keeps_free (c : ascii) (p : ascii -> bool) (by_ s : string) :
  hasChar c by_ = false -> hasChar c s = false ->
  hasChar c (replaceAll p by_ s) = false.
Proof.
  intros B. induction s as [|a s IH]; [reflexivity|].
  cbn [replaceAll hasChar]. intros H. apply orb_false_iff in H.
  destruct H as [E H]. destruct (p a).
  - now rewrite hasChar_app, B, IH.
  - cbn [hasChar]. now rewrite E, IH.
Qed.

Lemma replaceAll_id (p : ascii -> bool) (by_ s : string) :
  allChars (fun a => negb (p a)) s = true -> replaceAll p by_ s = s.
Proof.
  induction s as [|a s IH]; [reflexivity|].
  cbn [allChars replaceAll]. intros H. apply andb_true_iff in H.
  destruct H as [E H]. apply negb_true_iff in E. now rewrite E, IH.
Qed.

Lemma hasChar_allChars (c : ascii) (s : string) :
  hasChar c s = false -> allChars (fun a => negb (isChar c a)) s = true.
Proof.
  induction s as [|a s IH]; [reflexivity|].
  cbn [hasChar allChars]. intros H. apply orb_false_iff in H.
  destruct H as [E H]. unfold isChar at 1. now rewrite E, IH.
Qed.

Lemma replaceAll_nonempty (p : ascii -> bool) (by_ s : string) :
  by_ <> "" -> s <> "" -> replaceAll p by_ s <> "".
Proof.
  intros B S. destruct s as [|a s]; [now contradiction S|].
  cbn [replaceAll]. destruct (p a); [|discriminate].
  destruct by_ as [|b by_]; [now contradiction B | discriminate].
Qed.

Lemma escapeMermaidText_free (text : string) :
  hasChar "034" (escapeMermaidText text) = false /\
  hasChar "<" (escapeMermaidText text) = false /\
  hasChar ">" (escapeMermaidText text) = false /\
  hasChar "010" (escapeMermaidText text) = false.
Proof.
  unfold escapeMermaidText.
  repeat split.
  - do 3 (apply replaceAll_keeps_free; [reflexivity|]).
    now apply replaceAll_removes.
  - do 2 (apply replaceAll_keeps_free; [reflexivity|]).
    now apply replaceAll_removes.
  - apply replaceAll_keeps_free; [reflexivity|].
    now apply replaceAll_removes.
  - now apply replaceAll_removes.
Qed.

(** X4.  An escaped label holds no double quote, no angle bracket and
    no line break, and a text without any of the four is left as it
    is. *)
Theorem escapeMermaidText_safe (text : string) :
  hasChar "034" (escapeMermaidText text) = false /\
  hasChar "<" (escapeMermaidText text) = false /\
  hasChar ">" (escapeMermaidText text) = false /\
  hasChar "010" (escapeMermaidText text) = false /\
  (hasChar "034" text = false -> hasChar "<" text = false ->
   hasChar ">" text = false -> hasChar "010" text = false ->
   escapeMermaidText text = text).
Proof.
  destruct (escapeMermaidText_free text) as [Q [L [G N]]].
  split; [exact Q|]. split; [exact L|]. split; [exact G|]. split; [exact N|].
  clear Q L G N. intros Q L G N. unfold escapeMermaidText.
  rewrite (replaceAll_id (isChar "034") "#quot;" text)
    by now apply hasChar_allChars.
  rewrite (replaceAll_id (isChar "<") "#60;" text)
    by now apply hasChar_allChars.
  rewrite (replaceAll_id (isChar ">") "#62;" text)
    by now apply hasChar_allChars.
  now apply replaceAll_id, hasChar_allChars.
Qed.

(** X5.  A rendered node is its identifier followed by a bracketed,
    quoted label; the label is never empty and holds no double quote,
    so the closing quote of the node is the first one after the opening
    quote. *)
Theorem renderNode_label (nodeId : option string) (text : string) :
  exists label,
    renderNode nodeId text
    = interpolate nodeId ++ "[" ++ dquote ++ label ++ dquote ++ "]" /\
    label <> "" /\
    hasChar "034" label = false /\
    hasChar "010" label = false /\
    (text = "" -> label = " ") /\
    (text <> "" -> label = escapeMermaidText text).
Proof.
  unfold renderNode. destruct text as [|a text].
  - exists " ". cbn [String.length Nat.ltb Nat.leb].
    repeat split; try reflexivity; try discriminate.
    intros X. now contradiction X.
  - exists (escapeMermaidText (String a text)).
    cbn [String.length Nat.ltb Nat.leb].
    destruct (escapeMermaidText_free (String a text)) as [Q [_ [_ N]]].
    repeat split; try assumption; try discriminate.
    unfold escapeMermaidText.
    repeat (apply replaceAll_nonempty; [discriminate|]). discriminate.
Qed.

Lemma oneOf_hasChar (set : string) (c : ascii) :
  oneOf set c = hasChar c set.
Proof.
  unfold oneOf. induction set as [|a set IH]; [reflexivity|].
  cbn [list_ascii_of_string existsb hasChar].
  now rewrite IH, Ascii.eqb_sym.
Qed.

Lemma replaceAll_class_removes (p : ascii -> bool) (by_ s : string) (c : ascii) :
  p c = true -> hasChar c by_ = false ->
  hasChar c (replaceAll p by_ s) = false.
Proof.
  intros P B. induction s as [|a s IH]; [reflexivity|].
  cbn [replaceAll]. destruct (p a) eqn:E.
  - now rewrite hasChar_app, B, IH.
  - cbn [hasChar]. rewrite IH, orb_false_r.
    destruct (Ascii.eqb_spec a c) as [->|]; [congruence | reflexivity].
Qed.

Lemma allChars_head (p : ascii -> bool) (a : ascii) (s : string) :
  allChars p (String a s) = true -> p a = true.
Proof. cbn [allChars]. intros H. apply andb_true_iff in H. tauto. Qed.

(** X6.  A readable node name holds none of the characters the source
    replaces (brackets, slash, dot, at sign, tilde, hyphen), and a path
    made of other characters only is its own readable name. *)
Theorem hashToReadableNodeName_safe (nodeName : string) :
  (forall c, oneOf "[]/.@~-" c = true ->
             hasChar c (hashToReadableNodeName nodeName) = false) /\
  (allChars (noneOf "[]/.@~-") nodeName = true ->
   hashToReadableNodeName nodeName = nodeName).
Proof.
  split.
  - intros c Hc. unfold hashToReadableNodeName.
    apply replaceAll_class_removes; [exact Hc|].
    rewrite oneOf_hasChar in Hc. cbn [hasChar] in *.
    rewrite orb_false_r.
    destruct (Ascii.eqb_spec "_" c) as [<-|]; [discriminate Hc | reflexivity].
  - intros H. unfold hashToReadableNodeName.
    assert (D : forall t, allChars (noneOf "[]/.@~-") t = true ->
                          startsWith t "." = false).
    { intros [|a t] Ht; [reflexivity|].
      apply allChars_head in Ht. unfold startsWith.
      cbn [String.prefix]. destruct (ascii_dec "." a) as [<-|]; [|reflexivity].
      discriminate Ht. }
    assert (P : forall t p, startsWith t "." = false ->
                            startsWith t (String "." p) = false).
    { intros [|a t] p; [reflexivity|]. unfold startsWith. cbn [String.prefix].
      destruct (ascii_dec "." a); [|reflexivity]. destruct t; discriminate. }
    assert (E : forall t p, startsWith t "." = false ->
                            (t =? String "." p) = false).
    { intros t p Ht. apply String.eqb_neq. intros ->.
      unfold startsWith in Ht. cbn [String.prefix] in Ht.
      destruct (ascii_dec "." "."); [|congruence]. destruct p; discriminate. }
    pose proof (D nodeName H) as N.
    rewrite (E nodeName "" N), (P nodeName "/" N).
    rewrite (E nodeName "." N), (P nodeName "./" N).
    apply replaceAll_id.
    clear -H. induction nodeName as [|a s IH]; [reflexivity|].
    cbn [allChars] in *. apply andb_true_iff in H. destruct H as [A B].
    rewrite (IH B), andb_true_r. exact A.
Qed.
(** ** Identifiers *)

Lemma digit_round_trip (d : nat) :
  d < 36 -> digitValue (upperChar (digitChar d)) = d.
Proof.
  intros H. do 36 (destruct d as [|d]; [vm_compute; reflexivity|]). lia.
Qed.

Lemma parseRadixFrom_app (radix acc : nat) (s t : string) :
  parseRadixFrom radix acc (s ++ t)
  = parseRadixFrom radix (parseRadixFrom radix acc s) t.
Proof.
  revert acc. induction s as [|c s IH]; intros acc; [reflexivity|].
  cbn [append parseRadixFrom]. apply IH.
Qed.

Lemma mapString_app (f : ascii -> ascii) (s t : string) :
  mapString f (s ++ t) = mapString f s ++ mapString f t.
Proof.
  induction s as [|c s IH]; [reflexivity|].
  cbn [append mapString]. now rewrite IH.
Qed.

Lemma digitsRadix_value (radix : nat) :
  2 <= radix <= 36 ->
  forall fuel n acc, n < fuel ->
    exists d, digitsRadix fuel radix n acc = d ++ acc /\
              parseRadix radix (toUpperCase d) = n.
Proof.
  intros R. induction fuel as [|fuel IH]; intros n acc H; [lia|].
  cbn [digitsRadix].
  assert (M : n mod radix < 36)
    by (pose proof (Nat.mod_upper_bound n radix); lia).
  destruct (Nat.eqb_spec (n / radix) 0) as [Z|NZ].
  - exists (String (digitChar (n mod radix)) ""). split; [reflexivity|].
    unfold parseRadix, toUpperCase. cbn [mapString parseRadixFrom].
    rewrite (digit_round_trip _ M).
    apply Nat.div_small_iff in Z; [|lia]. rewrite Nat.mod_small; lia.
  - assert (L : n / radix < fuel).
    { assert (0 < n) by (destruct n; [rewrite Nat.Div0.div_0_l in NZ; lia | lia]).
      pose proof (Nat.div_lt n radix). lia. }
    destruct (IH (n / radix) (String (digitChar (n mod radix)) acc) L)
      as [d [E V]].
    exists (d ++ String (digitChar (n mod radix)) ""). split.
    + rewrite E, string_app_assoc. reflexivity.
    + unfold parseRadix, toUpperCase in *.
      rewrite mapString_app, parseRadixFrom_app, V.
      cbn [mapString parseRadixFrom]. rewrite (digit_round_trip _ M).
      pose proof (Nat.div_mod_eq n radix). lia.
Qed.

Lemma toStringRadix_round_trip (radix n : nat) :
  2 <= radix <= 36 -> parseRadix radix (toUpperCase (toStringRadix radix n)) = n.
Proof.
  intros R. unfold toStringRadix.
  destruct (digitsRadix_value radix R (S n) n "" (Nat.lt_succ_diag_r n))
    as [d [E V]].
  now rewrite E, string_app_nil_r.
Qed.

Lemma minifiedId_inj (a b : nat) : minifiedId a = minifiedId b -> a = b.
Proof.
  unfold minifiedId. intros H. injection H as H.
  rewrite <- (toStringRadix_round_trip 36 a), <- (toStringRadix_round_trip 36 b)
    by lia.
  now rewrite H.
Qed.

(** X7.  Two counters never give the same minified identifier: the
    capital base-36 numeral after the letter N determines the counter. *)
Theorem minifiedId_injective (a b : nat) :
  a <> b -> minifiedId a <> minifiedId b.
Proof. intros N H. apply N. now apply minifiedId_inj. Qed.

Lemma minifiedId_injective_witness :
  minifiedId 35 = "NZ" /\ minifiedId 36 = "N10" /\
  minifiedId 35 <> minifiedId 36.
Proof.
  split; [reflexivity|]. split; [reflexivity|].
  apply (minifiedId_injective 35 36). lia.
Defined.

(** *** The table of identifiers after [hashModuleNames] *)

Lemma mget_mset_same {V} (k : string) (v : V) (m : JsMap V) :
  mget k (mset k v m) = Some v.
Proof.
  induction m as [|[k' v'] m IH]; cbn [mset mget].
  - now rewrite String.eqb_refl.
  - destruct (String.eqb_spec k' k) as [->|N]; cbn [mget].
    + now rewrite String.eqb_refl.
    + apply String.eqb_neq in N. now rewrite N.
Qed.

Lemma mget_applyOps_other {V} (ops : list (string * V)) (m : JsMap V)
    (x : string) :
  ~ In x (map fst ops) -> mget x (applyOps ops m) = mget x m.
Proof.
  revert m. induction ops as [|[k v] ops IH]; intros m H; [reflexivity|].
  unfold applyOps in *. cbn [fold_left fst snd].
  rewrite IH by (intros X; apply H; now right).
  apply mget_mset_other. intros ->. apply H. now left.
Qed.

Lemma mget_applyOps_hit {V} (ops : list (string * V)) (m : JsMap V)
    (k : string) (v : V) :
  NoDup (map fst ops) -> In (k, v) ops -> mget k (applyOps ops m) = Some v.
Proof.
  revert m. induction ops as [|[k' v'] ops IH]; intros m Hnd Hin; [destruct Hin|].
  cbn [map fst] in Hnd. inversion Hnd as [|? ? Hk Hrest]; subst.
  unfold applyOps in *. cbn [fold_left fst snd].
  destruct Hin as [E|Hin].
  - injection E as -> ->.
    pose proof (mget_applyOps_other ops (mset k v m) k Hk) as G.
    unfold applyOps in G. rewrite G. apply mget_mset_same.
  - now apply IH.
Qed.

Lemma mget_applyOps_origin {V} (ops : list (string * V)) (m : JsMap V)
    (k : string) (v : V) :
  mget k (applyOps ops m) = Some v -> In (k, v) ops \/ mget k m = Some v.
Proof.
  revert m. induction ops as [|[k' v'] ops IH]; intros m H; [now right|].
  unfold applyOps in *. cbn [fold_left fst snd] in H.
  destruct (IH _ H) as [G|G]; [left; now right|].
  destruct (String.eqb_spec k' k) as [->|N].
  - rewrite mget_mset_same in G. injection G as ->. left. now left.
  - rewrite mget_mset_other in G by exact N. now right.
Qed.

Lemma absoluteOps_In (table : JsMap string) (l : ModuleMap)
    (k id : string) (m : CodebaseModule) :
  In (k, id, m) (absoluteOps table l) <->
  In (k, m) l /\ mget (relativePath m) table = Some id /\ nonEmpty id = true.
Proof.
  unfold absoluteOps. induction l as [|[k' m'] l IH]; cbn [filterMap fst snd].
  - simpl. tauto.
  - destruct (mget (relativePath m') table) as [hid|] eqn:E.
    + destruct (nonEmpty hid) eqn:NE.
      * cbn [In]. rewrite IH. split.
        -- intros [X|[A B]]; [|now split; [right|]].
           injection X as -> -> ->. split; [now left | now split].
        -- intros [[X|A] [B C]].
           ++ injection X as -> ->. left. rewrite E in B. now injection B as ->.
           ++ right. now split.
      * rewrite IH. split.
        -- intros [A B]. split; [now right | exact B].
        -- intros [[X|A] [B C]]; [|now split].
           injection X as -> ->. rewrite E in B. injection B as ->. congruence.
    + rewrite IH. split.
      * intros [A B]. split; [now right | exact B].
      * intros [[X|A] [B C]]; [|now split].
        injection X as -> ->. rewrite E in B. discriminate B.
Qed.

Lemma absoluteOps_NoDup (table : JsMap string) (l : ModuleMap) :
  NoDup (mkeys l) ->
  NoDup (map fst (map (fun o : string * string * CodebaseModule =>
                         (fst (fst o), snd (fst o))) (absoluteOps table l))).
Proof.
  unfold absoluteOps, mkeys.
  induction l as [|[k m] l IH]; cbn [filterMap map fst snd]; [constructor|].
  intros H. inversion H as [|? ? Hk Hl]; subst.
  assert (S : forall x,
             In x (map fst (map (fun o : string * string * CodebaseModule =>
                                   (fst (fst o), snd (fst o)))
                              (absoluteOps table l))) -> In x (map fst l)).
  { intros x Hx. rewrite map_map in Hx. apply in_map_iff in Hx.
    destruct Hx as [[[k' id] m'] [<- Hin]]. cbn [fst snd].
    apply absoluteOps_In in Hin. destruct Hin as [Hin _].
    apply in_map_iff. now exists (k', m'). }
  unfold absoluteOps in S.
  destruct (mget (relativePath m) table) as [hid|]; [|now apply IH].
  destruct (nonEmpty hid); [|now apply IH].
  cbn [map fst snd]. constructor; [|now apply IH].
  intros X. apply Hk. now apply S.
Qed.

Lemma minified_nonEmpty (id : string) : minified id -> nonEmpty id = true.
Proof. intros [t [-> _]]. reflexivity. Qed.

Section Identifiers.

Variable ms : ModuleMap.
Variable root : string.
Hypothesis apart : keysApart ms = true.

Let allPaths := collectPaths ms.
Let table := combine allPaths (map minifiedId (seq 0 (List.length allPaths))).
Let g := hashModuleNames (newGenerator ms root true).

Lemma assignIds_table : fst (assignIds true allPaths []) = table.
Proof.
  unfold assignIds, table.
  now rewrite (assignIds_fresh allPaths [] 0 (collectPaths_NoDup ms)).
Qed.

Lemma table_lookup (p : string) :
  In p allPaths ->
  exists i, nth_error allPaths i = Some p /\ mget p table = Some (minifiedId i).
Proof.
  intros Hp. destruct (In_nth_error _ _ Hp) as [i Hi]. exists i.
  split; [exact Hi|]. unfold table.
  rewrite (mget_combine_nth allPaths _ i p (collectPaths_NoDup ms));
    [| now rewrite length_map, length_seq | exact Hi].
  rewrite nth_error_map, nth_error_seq.
  assert (L : i < List.length allPaths) by (apply nth_error_Some; congruence).
  apply Nat.ltb_lt in L. now rewrite L.
Qed.

Lemma path_not_key (p : string) : In p allPaths -> ~ In p (mkeys ms).
Proof.
  intros Hp Hk. unfold keysApart in apart.
  rewrite forallb_forall in apart. specialize (apart p Hk).
  apply negb_true_iff in apart.
  apply memberOf_In in Hp. unfold allPaths in Hp. congruence.
Qed.

Lemma names_closed :
  namesHashMap g
  = applyOps (map (fun o : string * string * CodebaseModule =>
                     (fst (fst o), snd (fst o))) (absoluteOps table ms)) table.
Proof.
  unfold g. rewrite (hashModuleNames_closed ms apart root true).
  cbn [namesHashMap]. fold allPaths. now rewrite assignIds_table.
Qed.

Lemma byId_closed :
  nodeIdToModule g
  = applyOps (map (fun o : string * string * CodebaseModule =>
                     (snd (fst o), snd o)) (absoluteOps table ms)) [].
Proof.
  unfold g. rewrite (hashModuleNames_closed ms apart root true).
  cbn [nodeIdToModule]. fold allPaths. now rewrite assignIds_table.
Qed.

Lemma names_relative (p : string) :
  In p allPaths -> mget p (namesHashMap g) = mget p table.
Proof.
  intros Hp. rewrite names_closed. apply mget_applyOps_other.
  intros X. apply absoluteOps_keys in X.
  now apply (path_not_key p Hp).
Qed.

Lemma distinct_paths (p q : string) :
  In p allPaths -> In q allPaths -> p <> q ->
  exists ip iq, mget p (namesHashMap g) = Some ip /\
                mget q (namesHashMap g) = Some iq /\ ip <> iq.
Proof.
  intros Hp Hq N.
  destruct (table_lookup p Hp) as [i [Hi Gi]].
  destruct (table_lookup q Hq) as [j [Hj Gj]].
  exists (minifiedId i), (minifiedId j).
  rewrite (names_relative p Hp), (names_relative q Hq).
  split; [exact Gi|]. split; [exact Gj|].
  intros E. apply minifiedId_inj in E. subst j. congruence.
Qed.

Lemma same_id_same_path (p q id : string) :
  In p allPaths -> In q allPaths ->
  mget p table = Some id -> mget q table = Some id -> p = q.
Proof.
  intros Hp Hq Gp Gq.
  destruct (string_dec p q) as [E|N]; [exact E|].
  destruct (distinct_paths p q Hp Hq N) as [ip [iq [A [B C]]]].
  rewrite (names_relative p Hp) in A. rewrite (names_relative q Hq) in B.
  congruence.
Qed.

Lemma absolute_key (k : string) (m : CodebaseModule) :
  NoDup (mkeys ms) -> In (k, m) ms ->
  exists id, mget k (namesHashMap g) = Some id /\
             mget (relativePath m) (namesHashMap g) = Some id /\
             minified id /\
             exists m', mget id (nodeIdToModule g) = Some m' /\
                        relativePath m' = relativePath m.
Proof.
  intros Hnd Hin.
  pose proof (collectPaths_relative ms k m Hin) as Hrel. fold allPaths in Hrel.
  destruct (table_lookup _ Hrel) as [i [Hi Gi]].
  assert (Hop : In (k, minifiedId i, m) (absoluteOps table ms)).
  { apply absoluteOps_In. split; [exact Hin|]. split; [exact Gi | reflexivity]. }
  exists (minifiedId i). split; [|split; [|split]].
  - rewrite names_closed. apply mget_applyOps_hit.
    + now apply absoluteOps_NoDup.
    + apply in_map_iff. now exists (k, minifiedId i, m).
  - now rewrite (names_relative _ Hrel).
  - apply minifiedId_minified.
  - rewrite byId_closed.
    match goal with |- exists m', mget ?id (applyOps ?ops ?e) = _ /\ _ =>
      assert (Hh : mhas id (applyOps ops e) = true)
    end.
    { apply applyOps_mhas. right. rewrite map_map. apply in_map_iff.
      now exists (k, minifiedId i, m). }
    unfold mhas in Hh.
    match type of Hh with (match ?x with _ => _ end) = _ =>
      destruct x as [m'|] eqn:G; [|discriminate Hh]
    end.
    exists m'. split; [reflexivity|].
    apply mget_applyOps_origin in G. destruct G as [G|G]; [|discriminate G].
    apply in_map_iff in G. destruct G as [[[k' id'] m''] [E G]].
    cbn [fst snd] in E. injection E as -> ->.
    apply absoluteOps_In in G. destruct G as [Hin' [G' _]].
    pose proof (collectPaths_relative ms k' m' Hin') as Hrel'.
    now apply (same_id_same_path _ _ (minifiedId i) Hrel' Hrel).
Qed.

End Identifiers.

(** X8.  With minified identifiers, two distinct paths of the rendered
    tree (relative paths of modules and their directory prefixes) have
    distinct identifiers in the table, provided no key of the module map
    is itself one of these paths. *)
Theorem distinct_paths_distinct_ids (ms : ModuleMap) (root p q : string) :
  keysApart ms = true ->
  In p (collectPaths ms) -> In q (collectPaths ms) -> p <> q ->
  let names := namesHashMap (hashModuleNames (newGenerator ms root true)) in
  exists ip iq, mget p names = Some ip /\ mget q names = Some iq /\ ip <> iq.
Proof.
  intros K Hp Hq N names. now apply (distinct_paths ms root K p q).
Qed.

Lemma distinct_paths_distinct_ids_witness :
  exists ip iq,
    mget "src/a.ts" (namesHashMap sampleGenerator) = Some ip /\
    mget "src/b.ts" (namesHashMap sampleGenerator) = Some iq /\ ip <> iq.
Proof.
  apply (distinct_paths_distinct_ids sampleModules "/ws" "src/a.ts" "src/b.ts").
  - vm_compute. reflexivity.
  - vm_compute. tauto.
  - vm_compute. tauto.
  - discriminate.
Defined.

(** X9.  The key of a module (its absolute path) is given the
    identifier of the module's relative path, and under that identifier
    the table of styled nodes holds a module of the same relative path;
    the keys of the map being distinct and none of them a relative
    path. *)
Theorem absolute_key_shares_id (ms : ModuleMap) (root k : string)
    (m : CodebaseModule) :
  keysApart ms = true -> NoDup (mkeys ms) -> In (k, m) ms ->
  let g := hashModuleNames (newGenerator ms root true) in
  exists id, mget k (namesHashMap g) = Some id /\
             mget (relativePath m) (namesHashMap g) = Some id /\
             minified id /\
             exists m', mget id (nodeIdToModule g) = Some m' /\
                        relativePath m' = relativePath m.
Proof.
  intros K Hnd Hin g. now apply (absolute_key ms root K k m).
Qed.

Lemma absolute_key_shares_id_witness :
  exists m id,
    mget "/ws/src/b.ts" sampleModules = Some m /\
    mget "/ws/src/b.ts" (namesHashMap sampleGenerator) = Some id /\
    mget (relativePath m) (namesHashMap sampleGenerator) = Some id.
Proof.
  destruct (mget "/ws/src/b.ts" sampleModules) as [m|] eqn:E;
    [|vm_compute in E; discriminate E].
  assert (K : keysApart sampleModules = true) by (vm_compute; reflexivity).
  assert (D : NoDup (mkeys sampleModules)).
  { unfold sampleModules. rewrite resolveDependencies_keys.
    unfold analyzeFiles. rewrite analyzeFiles_keys_from. apply dedupe_from.
    constructor. }
  destruct (absolute_key_shares_id sampleModules "/ws" "/ws/src/b.ts" m K D
              (mget_In _ _ _ E)) as [id [A [B _]]].
  exists m, id. split; [reflexivity|]. split; [exact A | exact B].
Defined.
(** ** The tree of directories and files *)

Section TreeAt.

Variable Q : list string -> option string -> string -> Prop.

Lemma treeAt_unfold (prefix : list string) (k : string) (nd : option string)
    (txt : string) (sub : JsMap SubgraphNode) :
  treeAt Q prefix k (SubgraphItem nd txt sub)
  <-> Q (prefix ++ [k])%list nd txt /\ forestAt Q (prefix ++ [k])%list sub.
Proof.
  cbn [treeAt]. apply and_iff_compat_l.
  induction sub as [|kv sub IH]; [reflexivity|].
  cbn [forestAt]. now rewrite IH.
Qed.

Lemma forestAt_mget (prefix : list string) (k : string) (t : SubgraphNode)
    (l : JsMap SubgraphNode) :
  forestAt Q prefix l -> mget k l = Some t -> treeAt Q prefix k t.
Proof.
  induction l as [|[k' t'] l IH]; [discriminate|].
  cbn [forestAt mget fst snd]. intros [Ht Hl].
  destruct (String.eqb_spec k' k) as [->|N];
    [intros E; now injection E as <- | now apply IH].
Qed.

Lemma forestAt_mset (prefix : list string) (k : string) (t : SubgraphNode)
    (l : JsMap SubgraphNode) :
  forestAt Q prefix l -> treeAt Q prefix k t -> forestAt Q prefix (mset k t l).
Proof.
  intros Hl Ht. induction l as [|[k' t'] l IH]; [now split|].
  cbn [forestAt fst snd] in Hl. destruct Hl as [Ht' Hl].
  cbn [mset]. destruct (String.eqb_spec k' k) as [->|N]; cbn [forestAt fst snd];
    [now split|].
  split; [exact Ht' | now apply IH].
Qed.

Lemma forestAt_app (prefix : list string) (a b : JsMap SubgraphNode) :
  forestAt Q prefix a -> forestAt Q prefix b -> forestAt Q prefix (a ++ b)%list.
Proof.
  intros Ha Hb. induction a as [|kv a IH]; [exact Hb|].
  cbn [forestAt] in Ha. destruct Ha as [H Ha].
  cbn [app forestAt]. split; [exact H | now apply IH].
Qed.

Lemma forestAt_objAdd (prefix : list string) (k : string) (t : SubgraphNode)
    (l : JsMap SubgraphNode) :
  forestAt Q prefix l -> treeAt Q prefix k t -> forestAt Q prefix (objAdd k t l).
Proof.
  intros Hl Ht. unfold objAdd.
  destruct (arrayIndex k) as [n|]; [|apply forestAt_app; [exact Hl | now split]].
  induction l as [|[k' t'] l IH]; [now split|].
  cbn [forestAt fst snd] in Hl. destruct Hl as [Ht' Hl].
  cbn [insertIndexKey].
  destruct (arrayIndex k') as [n'|].
  - destruct (N.ltb n n'); cbn [forestAt fst snd]; [now repeat split|].
    split; [exact Ht' | now apply IH].
  - cbn [forestAt fst snd]. now repeat split.
Qed.

End TreeAt.

Lemma skipn_cons_firstn {A} (l : list A) (i : nat) (x : A) (more : list A) :
  skipn i l = x :: more ->
  firstn (S i) l = (firstn i l ++ [x])%list /\ skipn (S i) l = more /\
  i < List.length l.
Proof.
  revert i. induction l as [|y l IH]; intros i H.
  - destruct i; discriminate H.
  - destruct i as [|i].
    + cbn [skipn] in H. injection H as -> ->.
      repeat split. cbn [List.length]. lia.
    + cbn [skipn] in H. destruct (IH i H) as [A1 [A2 A3]].
      split; [|split].
      * change (firstn (S (S i)) (y :: l)) with (y :: firstn (S i) l).
        rewrite A1. reflexivity.
      * exact A2.
      * cbn [List.length]. lia.
Qed.

Lemma pathThrows_skip (seg : string) (more : list string) :
  inheritedKey seg = false -> pathThrows (seg :: more) = pathThrows more.
Proof.
  unfold pathThrows. intros H. destruct more as [|x more]; [reflexivity|].
  change (removelast (seg :: x :: more)) with (seg :: removelast (x :: more)).
  cbn [existsb]. now rewrite H.
Qed.

Lemma pathThrows_hit (seg x : string) (more : list string) :
  inheritedKey seg = true -> pathThrows (seg :: x :: more) = true.
Proof.
  unfold pathThrows. intros H.
  change (removelast (seg :: x :: more)) with (seg :: removelast (x :: more)).
  cbn [existsb]. now rewrite H.
Qed.

Section InsertPath.

Variable names : JsMap string.
Variable paths : list string.
Hypothesis covered :
  forall i, i < List.length paths ->
            mhas (join sep (firstn (S i) paths)) names = true.

Lemma insertPath_spec (remaining : list string) :
  forall (index : nat) (children : Subgraphs),
    skipn index paths = remaining ->
    forestAt (nodeAt names) (firstn index paths) children ->
    if pathThrows remaining
    then insertPath names paths index remaining children = None
    else exists tree,
        insertPath names paths index remaining children = Some tree /\
        forestAt (nodeAt names) (firstn index paths) tree.
Proof.
  induction remaining as [|seg more IH]; intros index children Hskip Hf.
  - cbn. now exists children.
  - destruct (skipn_cons_firstn paths index seg more Hskip) as [F [Sk L]].
    cbn [insertPath]. unfold getProperty.
    destruct (mget seg children) as [[nd txt sub]|] eqn:G.
    + pose proof (forestAt_mget _ _ _ _ _ Hf G) as Ht.
      apply treeAt_unfold in Ht. destruct Ht as [Hq Hsub].
      assert (Hk : inheritedKey seg = false).
      { destruct Hq as [_ [_ [La Pk]]]. rewrite last_last in La. now subst txt. }
      rewrite <- F in Hsub. specialize (IH (S index) sub Sk Hsub).
      rewrite (pathThrows_skip seg more Hk).
      destruct (pathThrows more).
      * now rewrite IH.
      * destruct IH as [tree [E Ht]]. rewrite E.
        eexists. split; [reflexivity|].
        apply forestAt_mset; [exact Hf|]. apply treeAt_unfold.
        split; [exact Hq | now rewrite <- F].
    + fold (inheritedKey seg). destruct (inheritedKey seg) eqn:Hk.
      * destruct more as [|seg' more'].
        -- exists children. now split.
        -- now rewrite (pathThrows_hit seg seg' more' Hk).
      * rewrite (pathThrows_skip seg more Hk).
        assert (Hnew : forall sub',
                   forestAt (nodeAt names) (firstn (S index) paths) sub' ->
                   forestAt (nodeAt names) (firstn index paths)
                     (objAdd seg
                        (SubgraphItem
                           (mget (join sep (firstn (S index) paths)) names)
                           seg sub') children)).
        { intros sub' Hs. apply forestAt_objAdd; [exact Hf|].
          apply treeAt_unfold. rewrite <- F. split; [|exact Hs].
          split; [reflexivity|]. split.
          - specialize (covered index L). unfold mhas in covered.
            destruct (mget _ names); [discriminate | discriminate covered].
          - rewrite F, last_last. split; [reflexivity | exact Hk]. }
        specialize (IH (S index) [] Sk Logic.I).
        destruct (pathThrows more).
        -- now rewrite IH.
        -- destruct IH as [tree [E Ht]]. rewrite E.
           eexists. split; [reflexivity | now apply Hnew].
Qed.

End InsertPath.

Lemma fold_sadd_keeps (l acc : list string) (x : string) :
  In x l \/ In x acc -> In x (fold_left (fun acc p => sadd p acc) l acc).
Proof.
  revert acc. induction l as [|y l IH]; intros acc H; cbn [fold_left].
  - destruct H as [[]|H]; exact H.
  - apply IH. rewrite sadd_In. simpl in H. intuition auto.
Qed.

Lemma collectPaths_prefix (ms : ModuleMap) (k : string) (m : CodebaseModule)
    (p : string) :
  In (k, m) ms -> In p (pathPrefixes (segments (relativePath m))) ->
  In p (collectPaths ms).
Proof.
  intros Hin Hp. unfold collectPaths.
  assert (Hm : In m (mvalues ms)).
  { unfold mvalues. apply in_map_iff. now exists (k, m). }
  set (step := fun (allPaths : list string) (m0 : CodebaseModule) =>
                 sadd (relativePath m0)
                   (fold_left (fun acc0 p0 => sadd p0 acc0)
                      (pathPrefixes (segments (relativePath m0))) allPaths)).
  assert (G : forall l acc, In p acc -> In p (fold_left step l acc)).
  { induction l as [|x l IH]; intros acc H; [exact H|].
    cbn [fold_left]. apply IH. unfold step. apply sadd_In. right.
    apply fold_sadd_keeps. now right. }
  generalize (@nil string). revert Hm.
  induction (mvalues ms) as [|m' l IH]; intros Hm acc; [destruct Hm|].
  cbn [fold_left]. destruct Hm as [->|Hm]; [|now apply IH].
  apply G. unfold step. apply sadd_In. right. apply fold_sadd_keeps. now left.
Qed.

Lemma pathPrefixes_In (paths : list string) (i : nat) :
  i < List.length paths -> In (join sep (firstn (S i) paths)) (pathPrefixes paths).
Proof.
  intros H. unfold pathPrefixes. apply in_map_iff. exists i.
  split; [reflexivity|]. apply in_seq. lia.
Qed.

Lemma hashModuleNames_covers (ms : ModuleMap) (root : string) (mini : bool)
    (p : string) :
  In p (collectPaths ms) ->
  mhas p (namesHashMap (hashModuleNames (newGenerator ms root mini))) = true.
Proof.
  intros Hp. unfold hashModuleNames.
  cbn [modules namesHashMap minify nodeIdToModule newGenerator].
  pose proof (assignIds_covers mini (collectPaths ms) p Hp) as A.
  destruct (assignIds mini (collectPaths ms) []) as [names c]. cbn [fst] in A.
  assert (B : mhas p (fst (mapAbsolutePaths ms (names, []))) = true).
  { unfold mapAbsolutePaths.
    apply (fold_left_invariant
             (fun st : JsMap string * JsMap CodebaseModule =>
                mhas p (fst st) = true)); [exact A|].
    intros [acc byId] [filePath m] _ H. cbn [fst] in *.
    destruct (mget (relativePath m) acc) as [hashedId|]; [|exact H].
    destruct (nonEmpty hashedId); [|exact H].
    cbn [fst]. rewrite mhas_mset, H. apply orb_true_r. }
  destruct (mapAbsolutePaths ms _) as [names' byId]. exact B.
Qed.

Section ConvertSubgraphSources.

Variable names : JsMap string.

Let step (acc : option Subgraphs) (m : CodebaseModule) : option Subgraphs :=
  match acc with
  | Some tree =>
      let paths := segments (relativePath m) in
      insertPath names paths 0 paths tree
  | None => None
  end.

Lemma convert_thrown (l : list CodebaseModule) : fold_left step l None = None.
Proof. induction l as [|m l IH]; [reflexivity | exact IH]. Qed.

Lemma convert_spec (l : list CodebaseModule) :
  (forall m i, In m l -> i < List.length (segments (relativePath m)) ->
     mhas (join sep (firstn (S i) (segments (relativePath m)))) names = true) ->
  forall tree, forestAt (nodeAt names) [] tree ->
    if existsb (fun m => pathThrows (segments (relativePath m))) l
    then fold_left step l (Some tree) = None
    else exists tree', fold_left step l (Some tree) = Some tree' /\
                       forestAt (nodeAt names) [] tree'.
Proof.
  induction l as [|m l IH]; intros Hc tree Ht.
  - cbn. now exists tree.
  - cbn [existsb fold_left].
    change (step (Some tree) m)
      with (insertPath names (segments (relativePath m)) 0
              (segments (relativePath m)) tree).
    pose proof (insertPath_spec names (segments (relativePath m))
                  (fun i L => Hc m i (or_introl eq_refl) L)
                  (segments (relativePath m)) 0 tree eq_refl Ht) as S.
    destruct (pathThrows (segments (relativePath m))).
    + rewrite S. cbn [orb]. apply convert_thrown.
    + destruct S as [tree1 [E H1]]. rewrite E. cbn [orb].
      exact (IH (fun m' i Hm' => Hc m' i (or_intror Hm')) tree1 H1).
Qed.

End ConvertSubgraphSources.

Lemma convertSubgraphSources_spec (ms : ModuleMap) (root : string) (mini : bool) :
  let g := hashModuleNames (newGenerator ms root mini) in
  if existsb (fun m => pathThrows (segments (relativePath m))) (mvalues ms)
  then convertSubgraphSources g = None
  else exists tree, convertSubgraphSources g = Some tree /\
                    forestAt (nodeAt (namesHashMap g)) [] tree.
Proof.
  intros g. unfold convertSubgraphSources.
  assert (M : modules g = ms) by apply (hashModuleNames_fields (newGenerator ms root mini)).
  rewrite M.
  apply (convert_spec (namesHashMap g) (mvalues ms)); [|exact Logic.I].
  intros m i Hm L. unfold mvalues in Hm. apply in_map_iff in Hm.
  destruct Hm as [[k m'] [<- Hin]]. cbn [snd].
  apply hashModuleNames_covers.
  apply (collectPaths_prefix ms k m' _ Hin). now apply pathPrefixes_In.
Qed.

(** X10.  In the tree of directories and files, the node found by
    following a path of keys carries the identifier the table gives to
    that path joined by the separator; this identifier is defined, the
    text of the node is the last key, and no key names a member of
    [Object.prototype]. *)
Theorem tree_nodes_identified (ms : ModuleMap) (root : string) (mini : bool)
    (tree : Subgraphs) :
  let g := hashModuleNames (newGenerator ms root mini) in
  convertSubgraphSources g = Some tree ->
  forestAt (nodeAt (namesHashMap g)) [] tree.
Proof.
  intros g H. pose proof (convertSubgraphSources_spec ms root mini) as S.
  fold g in S. cbv zeta in S.
  destruct (existsb _ (mvalues ms)); [congruence|].
  destruct S as [tree' [E F]]. congruence.
Qed.

Lemma tree_nodes_identified_witness :
  exists tree,
    convertSubgraphSources sampleGenerator = Some tree /\
    forestAt (nodeAt (namesHashMap sampleGenerator)) [] tree.
Proof.
  destruct (convertSubgraphSources sampleGenerator) as [tree|] eqn:E;
    [|vm_compute in E; discriminate E].
  exists tree. split; [reflexivity|].
  exact (tree_nodes_identified sampleModules "/ws" true tree E).
Defined.

(** X11.  Rendering throws exactly when the relative path of some module
    has a segment, other than its last, that names a member of
    [Object.prototype] (a directory called constructor, say); otherwise
    it returns a text. *)
Theorem generate_throws_iff (ms : ModuleMap) (root : string) (mini : bool) :
  snd (generate (newGenerator ms root mini)) = None
  <-> exists k m, In (k, m) ms /\
                  pathThrows (segments (relativePath m)) = true.
Proof.
  pose proof (convertSubgraphSources_spec ms root mini) as S. cbv zeta in S.
  unfold generate.
  destruct (existsb _ (mvalues ms)) eqn:X.
  - rewrite S. cbn [snd]. split; [intros _|reflexivity].
    apply existsb_exists in X. destruct X as [m [Hm T]].
    unfold mvalues in Hm. apply in_map_iff in Hm.
    destruct Hm as [[k m'] [<- Hin]]. now exists k, m'.
  - destruct S as [tree [-> _]]. cbn [snd]. split; [discriminate|].
    intros [k [m [Hin T]]]. exfalso.
    assert (Y : existsb (fun m => pathThrows (segments (relativePath m)))
                  (mvalues ms) = true).
    { apply existsb_exists. exists m. split; [|exact T].
      unfold mvalues. apply in_map_iff. now exists (k, m). }
    congruence.
Qed.
(** ** Discovery of files *)

Section WalkEntries.

Variable walk : string -> Run (list string).
Variable dir : string.

Let step := walkStep walk dir.

Lemma step_entryFiles (files : list string) (entry : Dirent) :
  step (Done files) entry
  = sub <- entryFiles walk dir entry ;; Done (files ++ sub)%list.
Proof.
  unfold step, walkStep, entryFiles, subdirectoryEntry, supportedEntry. cbn [bind].
  destruct (ignoredEntry (d_name entry)); cbn [negb andb bind];
    [now rewrite app_nil_r|].
  destruct (d_kind entry); cbn [isDirectory isFile andb bind].
  - destruct (memberOf _ supportedExtensions); cbn [bind];
      [reflexivity | now rewrite app_nil_r].
  - reflexivity.
  - now rewrite app_nil_r.
Qed.

Lemma step_stuck (entries : list Dirent) (r : Run (list string)) :
  (forall files, r <> Done files) -> fold_left step entries r = r.
Proof.
  intros H. induction entries as [|e entries IH]; [reflexivity|].
  cbn [fold_left].
  destruct r as [files|err|]; [now contradiction (H files) | exact IH | exact IH].
Qed.

Lemma walk_entries (entries : list Dirent) :
  forall acc files,
    fold_left step entries (Done acc) = Done files ->
    (forall e, In e entries -> exists s, entryFiles walk dir e = Done s) /\
    (forall f, In f files <->
               In f acc \/
               exists e s, In e entries /\ entryFiles walk dir e = Done s /\ In f s).
Proof.
  induction entries as [|e entries IH]; intros acc files H.
  - cbn [fold_left] in H. injection H as <-. split; [intros e []|].
    intros f. split; [now left | intros [A|[e [s [[] _]]]]; exact A].
  - cbn [fold_left] in H. rewrite step_entryFiles in H.
    destruct (entryFiles walk dir e) as [s|err|] eqn:E; cbn [bind] in H.
    + destruct (IH _ _ H) as [A B]. split.
      * intros e' [<-|He']; [now exists s | now apply A].
      * intros f. rewrite B, in_app_iff. split.
        -- intros [[X|X]|[e' [s' [X [Y Z]]]]].
           ++ now left.
           ++ right. exists e, s. repeat split; [now left | exact E | exact X].
           ++ right. exists e', s'. repeat split; [now right | exact Y | exact Z].
        -- intros [X|[e' [s' [[<-|X] [Y Z]]]]].
           ++ left. now left.
           ++ left. right. rewrite E in Y. now injection Y as ->.
           ++ right. now exists e', s'.
    + rewrite step_stuck in H by discriminate. discriminate H.
    + rewrite step_stuck in H by discriminate. discriminate H.
Qed.

Lemma walk_entries_done (entries : list Dirent) :
  (forall e, In e entries -> exists s, entryFiles walk dir e = Done s) ->
  forall acc, exists files, fold_left step entries (Done acc) = Done files.
Proof.
  induction entries as [|e entries IH]; intros H acc; [now exists acc|].
  cbn [fold_left]. rewrite step_entryFiles.
  destruct (H e (or_introl eq_refl)) as [s ->]. cbn [bind].
  apply IH. intros e' He'. apply H. now right.
Qed.

Variable walk' : string -> Run (list string).

Let step' := walkStep walk' dir.

Lemma walk_entries_mono (entries : list Dirent) :
  (forall p s, walk p = Done s -> walk' p = Done s) ->
  forall acc files,
    fold_left step entries (Done acc) = Done files ->
    fold_left step' entries (Done acc) = Done files.
Proof.
  intros M. induction entries as [|e entries IH]; intros acc files H; [exact H|].
  cbn [fold_left] in *.
  assert (S : forall r, step (Done acc) e = Done r -> step' (Done acc) e = Done r).
  { unfold step, step', walkStep. cbn [bind].
    destruct (ignoredEntry (d_name e)); [trivial|].
    destruct (isDirectory (d_kind e)); [|trivial].
    destruct (walk (path_join [dir; d_name e])) as [s|err|] eqn:W;
      cbn [bind]; [|discriminate|discriminate].
    intros r Hr. now rewrite (M _ _ W). }
  destruct (step (Done acc) e) as [r|err|] eqn:E.
  - rewrite (S r eq_refl). now apply IH.
  - rewrite step_stuck in H by discriminate. discriminate H.
  - rewrite step_stuck in H by discriminate. discriminate H.
Qed.

End WalkEntries.

Lemma walkDir_S (fuel : nat) (h : Host) (dir : string) :
  walkDir (S fuel) h dir
  = match readdir h dir with
    | None => Done []
    | Some entries => fold_left (walkStep (walkDir fuel h) dir) entries (Done [])
    end.
Proof. reflexivity. Qed.

Section Walk.

Variable h : Host.

Lemma walkDir_sound (fuel : nat) :
  forall dir files, walkDir fuel h dir = Done files ->
  forall f, In f files -> walked h dir f.
Proof.
  induction fuel as [|fuel IH]; intros dir files H f Hf; [discriminate H|].
  rewrite walkDir_S in H. destruct (readdir h dir) as [entries|] eqn:R.
  - apply (walk_entries (walkDir fuel h) dir entries [] files) in H.
    destruct H as [_ B]. apply B in Hf.
    destruct Hf as [[]|[e [s [He [Es Hs]]]]].
    unfold entryFiles in Es.
    destruct (subdirectoryEntry e) eqn:D.
    + destruct (IH _ _ Es f Hs) as [d [entries' [entry [A1 [A2 [A3 [A4 A5]]]]]]].
      exists d, entries', entry. repeat split; try assumption.
      now apply (reaches_below h dir entries e d R He D).
    + destruct (supportedEntry e) eqn:Su.
      * injection Es as <-. destruct Hs as [<-|[]].
        exists dir, entries, e. repeat split; try assumption. constructor.
      * injection Es as <-. destruct Hs.
  - injection H as <-. destruct Hf.
Qed.

Lemma walkDir_complete (dir d : string) :
  reaches h dir d ->
  forall fuel files, walkDir fuel h dir = Done files ->
  forall entries entry,
    readdir h d = Some entries -> In entry entries ->
    supportedEntry entry = true ->
    In (path_join [d; d_name entry]) files.
Proof.
  induction 1 as [d|d entries0 entry0 d' R0 In0 D0 _ IH];
    intros fuel files H entries entry R He Su.
  - destruct fuel as [|fuel]; [discriminate H|].
    rewrite walkDir_S in H. rewrite R in H.
    apply (walk_entries (walkDir fuel h) d entries [] files) in H.
    destruct H as [_ B]. apply B. right.
    exists entry, [path_join [d; d_name entry]].
    split; [exact He|]. split; [|now left].
    unfold entryFiles. rewrite Su.
    assert (N : subdirectoryEntry entry = false).
    { unfold subdirectoryEntry, supportedEntry in *.
      destruct (ignoredEntry (d_name entry)); [discriminate Su|].
      destruct (d_kind entry); [reflexivity | discriminate Su | reflexivity]. }
    now rewrite N.
  - destruct fuel as [|fuel]; [discriminate H|].
    rewrite walkDir_S in H. rewrite R0 in H.
    apply (walk_entries (walkDir fuel h) d entries0 [] files) in H.
    destruct H as [A B].
    destruct (A entry0 In0) as [s Es].
    apply B. right. exists entry0, s. split; [exact In0|]. split; [exact Es|].
    unfold entryFiles in Es. rewrite D0 in Es.
    now apply (IH fuel s Es entries entry).
Qed.

Lemma walkDir_shallow (fuel : nat) :
  forall dir, shallow fuel h dir = true ->
              exists files, walkDir fuel h dir = Done files.
Proof.
  induction fuel as [|fuel IH]; intros dir H; [discriminate H|].
  cbn [shallow] in H. rewrite walkDir_S.
  destruct (readdir h dir) as [entries|]; [|now exists []].
  rewrite forallb_forall in H.
  apply (walk_entries_done (walkDir fuel h) dir entries).
  intros e He. specialize (H e He). unfold entryFiles.
  destruct (subdirectoryEntry e); [now apply IH|].
  destruct (supportedEntry e); eauto.
Qed.

Lemma walkDir_more_fuel (fuel : nat) :
  forall dir files, walkDir fuel h dir = Done files ->
                    walkDir (S fuel) h dir = Done files.
Proof.
  induction fuel as [|fuel IH]; intros dir files H; [discriminate H|].
  rewrite walkDir_S in H. rewrite (walkDir_S (S fuel)).
  destruct (readdir h dir) as [entries|]; [|exact H].
  exact (walk_entries_mono (walkDir fuel h) dir (walkDir (S fuel) h) entries
           IH [] files H).
Qed.

Lemma walkDir_any_fuel (fuel extra : nat) (dir : string) (files : list string) :
  walkDir fuel h dir = Done files -> walkDir (extra + fuel) h dir = Done files.
Proof.
  intros H. induction extra as [|extra IH]; [exact H|].
  now apply walkDir_more_fuel.
Qed.

End Walk.

(** X12.  When the directories below [dir] are nested less than the
    recursion bound deep, the walk returns; the files it returns are the
    files with a supported extension that are listed in [dir] or in a
    directory reached from it through readable directories, no name on
    the way being ignored; and a larger bound gives the same list. *)
Theorem walkDir_files (fuel : nat) (h : Host) (dir : string) :
  shallow fuel h dir = true ->
  exists files,
    walkDir fuel h dir = Done files /\
    (forall f, In f files <-> walked h dir f) /\
    (forall extra, walkDir (extra + fuel) h dir = Done files).
Proof.
  intros S. destruct (walkDir_shallow h fuel dir S) as [files W].
  exists files. split; [exact W|]. split.
  - intros f. split; [now apply (walkDir_sound h fuel dir files)|].
    intros [d [entries [entry [A1 [A2 [A3 [A4 ->]]]]]]].
    now apply (walkDir_complete h dir d A1 fuel files W entries entry).
  - intros extra. now apply walkDir_any_fuel.
Qed.

Lemma walkDir_files_witness :
  exists files,
    walkDir 5 sampleHost "/ws" = Done files /\
    (In "/ws/src/shared/lib/index.ts" files <->
     walked sampleHost "/ws" "/ws/src/shared/lib/index.ts").
Proof.
  destruct (walkDir_files 5 sampleHost "/ws") as [files [W [C _]]];
    [vm_compute; reflexivity|].
  exists files. split; [exact W | apply C].
Defined.

Section Selected.

Variable fuel : nat.
Variable h : Host.
Variable root : string.
Variable all : list string.
Hypothesis walk_done : walkDir fuel h root = Done all.

Lemma collectSelected_files (paths : list string) :
  (forall sp, In sp paths -> stat h sp <> None) ->
  forall acc,
  exists files,
    collectSelected fuel h root paths acc = Done files /\
    forall f, In f files <->
      In f acc \/
      (In f paths /\ stat h f = Some RegularFile) \/
      (exists sp, In sp paths /\ stat h sp = Some Directory /\
                  In f all /\ withinSelected h sp f = true).
Proof.
  induction paths as [|sp paths IH]; intros Hs acc.
  - exists acc. split; [reflexivity|]. intros f. split; [now left|].
    intros [A|[[[] _]|[sp [[] _]]]]. exact A.
  - assert (Hs' : forall sp', In sp' paths -> stat h sp' <> None)
      by (intros sp' H'; apply Hs; now right).
    cbn [collectSelected].
    destruct (stat h sp) as [k|] eqn:St;
      [|now contradiction (Hs sp (or_introl eq_refl))].
    destruct k; cbn [isFile isDirectory].
    + destruct (IH Hs' (acc ++ [sp])%list) as [files [E C]].
      exists files. split; [exact E|]. intros f. rewrite C, in_app_iff.
      split.
      * intros [[A|[<-|[]]]|[[A B]|[sp' [A B]]]].
        -- now left.
        -- right. left. split; [now left | exact St].
        -- right. left. split; [now right | exact B].
        -- right. right. exists sp'. split; [now right | exact B].
      * intros [A|[[[<-|A] B]|[sp' [[<-|A] [B D]]]]].
        -- left. now left.
        -- left. right. now left.
        -- right. left. now split.
        -- rewrite St in B. discriminate B.
        -- right. right. exists sp'. now split.
    + unfold getAllSupportedFiles. rewrite walk_done. cbn [bind].
      destruct (IH Hs' (acc ++ filter (withinSelected h sp) all)%list)
        as [files [E C]].
      exists files. split; [exact E|]. intros f.
      rewrite C, in_app_iff, filter_In. split.
      * intros [[A|[A B]]|[[A B]|[sp' [A B]]]].
        -- now left.
        -- right. right. exists sp. split; [now left|]. now split.
        -- right. left. split; [now right | exact B].
        -- right. right. exists sp'. split; [now right | exact B].
      * intros [A|[[[<-|A] B]|[sp' [[<-|A] [B D]]]]].
        -- left. now left.
        -- rewrite St in B. discriminate B.
        -- right. left. now split.
        -- left. right. exact D.
        -- right. right. exists sp'. now split.
    + destruct (IH Hs' acc) as [files [E C]].
      exists files. split; [exact E|]. intros f. rewrite C. split.
      * intros [A|[[A B]|[sp' [A B]]]].
        -- now left.
        -- right. left. split; [now right | exact B].
        -- right. right. exists sp'. split; [now right | exact B].
      * intros [A|[[[<-|A] B]|[sp' [[<-|A] [B D]]]]].
        -- now left.
        -- rewrite St in B. discriminate B.
        -- right. left. now split.
        -- rewrite St in B. discriminate B.
        -- right. right. exists sp'. now split.
Qed.

End Selected.

Lemma selection_spec (fuel : nat) (h : Host) (root : string)
    (paths : list string) :
  (forall sp, In sp paths -> stat h sp <> None) ->
  shallow fuel h root = true ->
  exists files,
    getFilesFromPaths fuel h root paths = Done files /\
    NoDup files /\
    forall f, In f files <->
      (In f paths /\ stat h f = Some RegularFile) \/
      (exists sp, In sp paths /\ stat h sp = Some Directory /\
                  walked h root f /\ withinSelected h sp f = true).
Proof.
  intros Hs Sh. destruct (walkDir_shallow h fuel root Sh) as [all W].
  destruct (collectSelected_files fuel h root all W paths Hs []) as [files [E C]].
  exists (dedupe files). unfold getFilesFromPaths. rewrite E. cbn [bind].
  split; [reflexivity|]. split; [apply dedupe_NoDup|].
  intros f. rewrite dedupe_In, C. split.
  - intros [[]|[A|[sp [A [B [D F]]]]]]; [now left|].
    right. exists sp. repeat split; try assumption.
    now apply (walkDir_sound h fuel root all W).
  - intros [A|[sp [A [B [[d [entries [entry [D1 [D2 [D3 [D4 ->]]]]]]] F]]]]].
    + right. now left.
    + right. right. exists sp. repeat split; try assumption.
      now apply (walkDir_complete h root d D1 fuel all W entries entry).
Qed.

(** X13.  When every selected path can be inspected and the workspace
    is nested less than the recursion bound deep, the selection returns
    a list without repetition, made of the selected paths that are
    regular files (whatever their extension) and of the files the walk
    of the workspace finds inside a selected directory. *)
Theorem getFilesFromPaths_files (fuel : nat) (h : Host) (root : string)
    (paths : list string) :
  (forall sp, In sp paths -> stat h sp <> None) ->
  shallow fuel h root = true ->
  exists files,
    getFilesFromPaths fuel h root paths = Done files /\
    NoDup files /\
    forall f, In f files <->
      (In f paths /\ stat h f = Some RegularFile) \/
      (exists sp, In sp paths /\ stat h sp = Some Directory /\
                  walked h root f /\ withinSelected h sp f = true).
Proof. exact (selection_spec fuel h root paths). Qed.

Lemma getFilesFromPaths_files_witness :
  exists files,
    getFilesFromPaths 5 sampleHost "/ws" ["/ws/src/b.ts"; "/ws/pkg"] = Done files /\
    NoDup files.
Proof.
  destruct (getFilesFromPaths_files 5 sampleHost "/ws" ["/ws/src/b.ts"; "/ws/pkg"])
    as [files [E [D _]]].
  - intros sp [<-|[<-|[]]]; vm_compute; discriminate.
  - vm_compute. reflexivity.
  - exists files. now split.
Defined.
(** ** The analysis as a whole *)

Lemma linked_mhas (h : Host) (root : string) (files : list string) (f : string) :
  mhas f (resolveDependencies (analyzeFiles h root files)) = true
  <-> In f files /\ readFile h f <> None.
Proof.
  rewrite mhas_In, resolveDependencies_keys.
  unfold analyzeFiles. rewrite analyzeFiles_keys_from.
  change (fold_left (fun a x => sadd x a) (filter (readable h) files) (mkeys []))
    with (dedupe (filter (readable h) files)).
  rewrite dedupe_In, filter_In.
  unfold readable. destruct (readFile h f); cbn [isSome]; split; intros [A B];
    (split; [exact A|]); try discriminate; try reflexivity.
  now contradiction B.
Qed.

Lemma linked_NoDup (h : Host) (root : string) (files : list string) :
  NoDup (mkeys (resolveDependencies (analyzeFiles h root files))).
Proof.
  rewrite resolveDependencies_keys. unfold analyzeFiles.
  rewrite analyzeFiles_keys_from. apply dedupe_from. constructor.
Qed.

(** X14.  On a workspace nested less than the recursion bound deep the
    analysis returns a map.  Without a selection its keys are the
    readable files the walk finds; with a selection whose paths can all
    be inspected, they are the readable files among the selected regular
    files and the walked files inside a selected directory. *)
Theorem analyzeCodebase_modules (fuel : nat) (h : Host) (root : string) :
  shallow fuel h root = true ->
  (exists ms,
     analyzeCodebase fuel h root None = Done ms /\
     forall f, mhas f ms = true <-> walked h root f /\ readFile h f <> None) /\
  (forall paths,
     (forall sp, In sp paths -> stat h sp <> None) ->
     exists ms,
       analyzeCodebase fuel h root (Some paths) = Done ms /\
       forall f, mhas f ms = true <->
         ((In f paths /\ stat h f = Some RegularFile) \/
          (exists sp, In sp paths /\ stat h sp = Some Directory /\
                      walked h root f /\ withinSelected h sp f = true)) /\
         readFile h f <> None).
Proof.
  intros Sh. split.
  - destruct (walkDir_shallow h fuel root Sh) as [files W].
    exists (resolveDependencies (analyzeFiles h root files)).
    unfold analyzeCodebase, getAllSupportedFiles. rewrite W. cbn [bind].
    split; [reflexivity|]. intros f. rewrite linked_mhas.
    assert (C : In f files <-> walked h root f).
    { split; [now apply (walkDir_sound h fuel root files)|].
      intros [d [entries [entry [A1 [A2 [A3 [A4 ->]]]]]]].
      now apply (walkDir_complete h root d A1 fuel files W entries entry). }
    now rewrite C.
  - intros paths Hs.
    destruct (selection_spec fuel h root paths Hs Sh) as [files [E [_ C]]].
    exists (resolveDependencies (analyzeFiles h root files)).
    unfold analyzeCodebase. rewrite E. cbn [bind].
    split; [reflexivity|]. intros f. now rewrite linked_mhas, C.
Qed.

Lemma analyzeCodebase_modules_witness :
  exists ms,
    analyzeCodebase 5 sampleHost "/ws" None = Done ms /\
    (mhas "/ws/pkg/utils.py" ms = true <->
     walked sampleHost "/ws" "/ws/pkg/utils.py" /\
     readFile sampleHost "/ws/pkg/utils.py" <> None).
Proof.
  destruct (analyzeCodebase_modules 5 sampleHost "/ws") as [[ms [E C]] _];
    [vm_compute; reflexivity|].
  exists ms. split; [exact E | apply C].
Defined.

(** ** Styled edges *)

Lemma filterMap_In {A B} (f : A -> option B) (l : list A) (x : A) (y : B) :
  In x l -> f x = Some y -> In y (filterMap f l).
Proof.
  intros Hx Hf. induction l as [|a l IH]; [destruct Hx|].
  cbn [filterMap]. destruct Hx as [->|Hx].
  - rewrite Hf. now left.
  - destruct (f a); [right|]; now apply IH.
Qed.

(** The candidates, spelled out. *)
Lemma candidateEdges_In (g : Generator) (e : Edge) :
  In e (candidateEdges g) <->
  exists filePath m dep r fromNode toNode,
    In (filePath, m) (modules g) /\
    mget filePath (namesHashMap g) = Some fromNode /\
    nonEmpty fromNode = true /\
    In dep (dependencies m) /\ resolved dep = Some r /\
    nonEmpty r && valid dep = true /\
    mget r (namesHashMap g) = Some toNode /\ nonEmpty toNode = true /\
    e = {| edgeFrom := {| endNode := fromNode;
                          endText := path_basename (relativePath m) |};
           edgeTo := {| endNode := toNode; endText := path_basename r |} |}.
Proof.
  unfold candidateEdges. rewrite in_flat_map. split.
  - intros [[filePath m] [Hin H]].
    unfold moduleCandidates in H. cbn [fst snd] in H.
    destruct (mget filePath (namesHashMap g)) as [fromNode|] eqn:F; [|destruct H].
    destruct (nonEmpty fromNode) eqn:NF; [|destruct H].
    apply In_filterMap in H. destruct H as [dep [Hdep C]].
    unfold candidateEdge in C.
    destruct (resolved dep) as [r|] eqn:R; [|discriminate C].
    destruct (nonEmpty r && valid dep) eqn:V; [|discriminate C].
    destruct (mget r (namesHashMap g)) as [toNode|] eqn:T; [|discriminate C].
    destruct (nonEmpty toNode) eqn:NT; [|discriminate C].
    injection C as <-.
    exists filePath, m, dep, r, fromNode, toNode. now repeat split.
  - intros [filePath [m [dep [r [fromNode [toNode
             [Hin [F [NF [Hdep [R [V [T [NT ->]]]]]]]]]]]]]].
    exists (filePath, m). split; [exact Hin|].
    unfold moduleCandidates. cbn [fst snd]. rewrite F, NF.
    apply (filterMap_In _ _ dep); [exact Hdep|].
    unfold candidateEdge. now rewrite R, V, T, NT.
Qed.


Section StyledEdges.

Variable h : Host.
Variable root : string.
Variable files : list string.
Hypothesis cwd_absolute : isAbsolute (cwd h) = true.
Hypothesis root_absolute : isAbsolute root = true.
Hypothesis files_absolute : forall f, In f files -> isAbsolute f = true.

Let linked := resolveDependencies (analyzeFiles h root files).
Let g := hashModuleNames (newGenerator linked root true).

Lemma key_has_module (k : string) :
  mhas k linked = true ->
  exists id m', mget k (namesHashMap g) = Some id /\
                mget id (nodeIdToModule g) = Some m'.
Proof.
  intros Hk. apply mhas_In in Hk. unfold mkeys in Hk.
  apply in_map_iff in Hk. destruct Hk as [[k' m] [E Hin]].
  cbn [fst] in E. subst k'.
  destruct (absolute_key linked root
              (analyzed_keysApart h root files files_absolute) k m
              (linked_NoDup h root files) Hin)
    as [id [A [_ [_ [m' [B _]]]]]].
  now exists id, m'.
Qed.

Lemma edge_ends (e : Edge) :
  In e (convertEdgeSources g) ->
  exists mf mt,
    mget (endNode (edgeFrom e)) (nodeIdToModule g) = Some mf /\
    mget (endNode (edgeTo e)) (nodeIdToModule g) = Some mt.
Proof.
  rewrite convertEdgeSources_keepFirst. intros H. apply keepFirst_In in H.
  unfold candidateEdges in H. apply in_flat_map in H.
  destruct H as [[filePath m] [Hin H]].
  assert (M : modules g = linked)
    by apply (hashModuleNames_fields (newGenerator linked root true)).
  rewrite M in Hin.
  unfold moduleCandidates in H. cbn [fst snd] in H.
  destruct (mget filePath (namesHashMap g)) as [fromNode|] eqn:F; [|destruct H].
  destruct (nonEmpty fromNode); [|destruct H].
  apply In_filterMap in H. destruct H as [dep [Hdep C]].
  unfold candidateEdge in C.
  destruct (resolved dep) as [r|] eqn:R; [|discriminate C].
  destruct (nonEmpty r && valid dep); [|discriminate C].
  destruct (mget r (namesHashMap g)) as [toNode|] eqn:T; [|discriminate C].
  destruct (nonEmpty toNode); [|discriminate C].
  injection C as <-. cbn [edgeFrom edgeTo endNode].
  assert (Kf : mhas filePath linked = true).
  { apply mhas_In. unfold mkeys. apply in_map_iff. now exists (filePath, m). }
  destruct (key_has_module filePath Kf) as [idf [mf [A B]]].
  rewrite F in A. injection A as ->.
  assert (Kr : mhas r linked = true).
  { assert (Hr : In r (mkeys (namesHashMap g))).
    { apply mhas_In. unfold mhas. now rewrite T. }
    apply hashModuleNames_keys in Hr. destruct Hr as [Hr|Hr];
      [|now apply mhas_In].
    exfalso.
    apply collectPaths_not_absolute in Hr; [|apply linked_relative].
    pose proof (linked_resolved_absolute h root files cwd_absolute
                  root_absolute filePath r m dep Hin Hdep R) as Ha.
    congruence. }
  destruct (key_has_module r Kr) as [idt [mt [A' B']]].
  rewrite T in A'. injection A' as ->.
  now exists mf, mt.
Qed.

Lemma edges_iff (i j : string) :
  (exists e, In e (convertEdgeSources g) /\
             endNode (edgeFrom e) = i /\ endNode (edgeTo e) = j)
  <->
  (exists a ma dep b,
      In (a, ma) linked /\ In dep (dependencies ma) /\
      resolved dep = Some b /\ mhas b linked = true /\
      mget a (namesHashMap g) = Some i /\ mget b (namesHashMap g) = Some j).
Proof.
  assert (M : modules g = linked)
    by apply (hashModuleNames_fields (newGenerator linked root true)).
  split.
  - intros [e [He [<- <-]]].
    rewrite convertEdgeSources_keepFirst in He. apply keepFirst_In in He.
    apply candidateEdges_In in He.
    destruct He as [a [ma [dep [b [fromNode [toNode
                     [Hin [F [_ [Hdep [R [_ [T [_ ->]]]]]]]]]]]]]].
    rewrite M in Hin. cbn [edgeFrom edgeTo endNode].
    exists a, ma, dep, b. repeat split; try assumption.
    assert (Hr : In b (mkeys (namesHashMap g))).
    { apply mhas_In. unfold mhas. now rewrite T. }
    apply hashModuleNames_keys in Hr. destruct Hr as [Hr|Hr];
      [|now apply mhas_In].
    exfalso.
    apply collectPaths_not_absolute in Hr; [|apply linked_relative].
    pose proof (linked_resolved_absolute h root files cwd_absolute
                  root_absolute a b ma dep Hin Hdep R) as Ha.
    congruence.
  - intros [a [ma [dep [b [Hin [Hdep [R [Hb [F T]]]]]]]]].
    assert (C : In {| edgeFrom := {| endNode := i;
                                      endText := path_basename (relativePath ma) |};
                      edgeTo := {| endNode := j; endText := path_basename b |} |}
                   (candidateEdges g)).
    { apply candidateEdges_In.
      exists a, ma, dep, b, i, j. rewrite M.
      split; [exact Hin|]. split; [exact F|].
      split; [exact (minified_nonEmpty i (minifying_lookup linked root a i F))|].
      split; [exact Hdep|]. split; [exact R|].
      split; [|split; [exact T|split; [|reflexivity]]].
      - apply andb_true_iff. split.
        + apply isAbsolute_nonEmpty. apply files_absolute.
          apply mhas_In in Hb. unfold linked in Hb.
          rewrite resolveDependencies_keys in Hb. unfold mkeys in Hb.
          apply in_map_iff in Hb. destruct Hb as [[b' mb] [E Hb]].
          cbn [fst] in E. subst b'.
          now apply (analyzeFiles_entries h root files b mb).
        + destruct (linked_origin h root files a ma Hin) as [m0 [E0 Em]].
          destruct (analyzeFile_source _ _ _ _ E0) as [_ [_ [_ [content [_ D]]]]].
          assert (Hd0 : In dep (dependencies m0)).
          { rewrite Em in Hdep. exact Hdep. }
          rewrite D in Hd0.
          rewrite (extractDependencies_valid h root _ _ _ dep Hd0), R.
          reflexivity.
      - exact (minified_nonEmpty j (minifying_lookup linked root b j T)). }
    destruct (keepFirst_covers _ _ C) as [e [He K]].
    exists e. rewrite convertEdgeSources_keepFirst. split; [exact He|].
    unfold edgeKey in K. cbn [edgeFrom edgeTo endNode] in K.
    now injection K as -> ->.
Qed.

End StyledEdges.

(** X15.  For a map analysed from absolute paths, both ends of every
    edge of the diagram are identifiers of styled nodes, so the style of
    an edge always comes from classifying the two modules and the
    default style of [renderEdgeStyles] is never used. *)
Theorem edge_style_from_modules (h : Host) (root : string)
    (files : list string) (e : Edge) :
  isAbsolute (cwd h) = true -> isAbsolute root = true ->
  (forall f, In f files -> isAbsolute f = true) ->
  let g := hashModuleNames
             (newGenerator (resolveDependencies (analyzeFiles h root files))
                root true) in
  In e (convertEdgeSources g) ->
  exists mf mt,
    mget (endNode (edgeFrom e)) (nodeIdToModule g) = Some mf /\
    mget (endNode (edgeTo e)) (nodeIdToModule g) = Some mt /\
    let edgeType := classifyEdge (fileCategory mf) (fileCategory mt)
                      (relativePath mf) (relativePath mt) in
    edgeStyleSuffix g e
    = " stroke:" ++ getEdgeColor edgeType ++ ",stroke-width:2px"
      ++ match getEdgeStyle edgeType with
         | dashed => ",stroke-dasharray: 5 5"
         | solid => ""
         end.
Proof.
  intros Hc Hr Hf g He.
  destruct (edge_ends h root files Hc Hr Hf e He) as [mf [mt [A B]]].
  exists mf, mt. split; [exact A|]. split; [exact B|].
  subst g. unfold edgeStyleSuffix. rewrite A, B. cbv zeta.
  destruct (getEdgeStyle _); reflexivity.
Qed.

Lemma edge_style_from_modules_witness :
  exists e mf mt,
    In e (convertEdgeSources sampleGenerator) /\
    mget (endNode (edgeFrom e)) (nodeIdToModule sampleGenerator) = Some mf /\
    mget (endNode (edgeTo e)) (nodeIdToModule sampleGenerator) = Some mt.
Proof.
  assert (X : exists e, In e (convertEdgeSources sampleGenerator)).
  { vm_compute. eexists. left. reflexivity. }
  destruct X as [e He].
  destruct (edge_style_from_modules sampleHost "/ws" (mkeys sampleFiles) e)
    as [mf [mt [A [B _]]]].
  - reflexivity.
  - reflexivity.
  - intros f Hf. vm_compute in Hf.
    repeat (destruct Hf as [<-|Hf]; [reflexivity|]). destruct Hf.
  - exact He.
  - exists e, mf, mt. split; [exact He|]. split; [exact A | exact B].
Defined.

(** X16.  For a map analysed from absolute paths, the diagram has an
    edge from identifier i to identifier j exactly when some module of
    the map whose key has identifier i has a dependency resolved onto a
    key of the map that has identifier j: the edges drawn are the
    dependencies between analysed files, and nothing else. *)
Theorem diagram_edges_are_dependencies (h : Host) (root : string)
    (files : list string) (i j : string) :
  isAbsolute (cwd h) = true -> isAbsolute root = true ->
  (forall f, In f files -> isAbsolute f = true) ->
  let linked := resolveDependencies (analyzeFiles h root files) in
  let g := hashModuleNames (newGenerator linked root true) in
  (exists e, In e (convertEdgeSources g) /\
             endNode (edgeFrom e) = i /\ endNode (edgeTo e) = j)
  <->
  (exists a ma dep b,
      In (a, ma) linked /\ In dep (dependencies ma) /\
      resolved dep = Some b /\ mhas b linked = true /\
      mget a (namesHashMap g) = Some i /\ mget b (namesHashMap g) = Some j).
Proof.
  intros Hc Hr Hf linked g. exact (edges_iff h root files Hc Hr Hf i j).
Qed.

Lemma diagram_edges_are_dependencies_witness :
  exists e, In e (convertEdgeSources sampleGenerator) /\
            endNode (edgeFrom e) = "N1" /\ endNode (edgeTo e) = "N2".
Proof.
  apply (diagram_edges_are_dependencies sampleHost "/ws" (mkeys sampleFiles)
           "N1" "N2").
  - reflexivity.
  - reflexivity.
  - intros f Hf. vm_compute in Hf.
    repeat (destruct Hf as [<-|Hf]; [reflexivity|]). destruct Hf.
  - assert (X : exists ma, mget "/ws/src/a.ts" sampleModules = Some ma /\
                           In (mkDependency "./b" (Some "/ws/src/b.ts") "import")
                              (dependencies ma)).
    { vm_compute. eexists. split; [reflexivity|]. left. reflexivity. }
    destruct X as [ma [Ga Hd]].
    exists "/ws/src/a.ts", ma,
      (mkDependency "./b" (Some "/ws/src/b.ts") "import"), "/ws/src/b.ts".
    split; [exact (mget_In _ _ _ Ga)|]. split; [exact Hd|].
    split; [reflexivity|]. split; [vm_compute; reflexivity|].
    split; vm_compute; reflexivity.
Defined.
(** ** Edge types *)

Lemma orb6_swap (a b c d e f : bool) :
  b || a || d || c || f || e = a || b || c || d || e || f.
Proof. destruct a, b, c, d, e, f; reflexivity. Qed.

Lemma orb5_swap (a b c d e f : bool) :
  (b && a) || d || c || f || e = (a && b) || c || d || e || f.
Proof. destruct a, b, c, d, e, f; reflexivity. Qed.

Lemma orb4_swap (a b c d : bool) : b || a || d || c = a || b || c || d.
Proof. destruct a, b, c, d; reflexivity. Qed.

(** X17.  The type of an edge does not depend on its direction, but for
    the last rule (source under an options directory, or target under a
    resolve directory), which can only turn a normal edge into a special
    one; so an edge and its reverse are drawn dashed or solid alike. *)
Theorem classifyEdge_direction (sourceCategory targetCategory : FileCategory)
    (sourcePath targetPath : string) :
  let forth := classifyEdge sourceCategory targetCategory sourcePath targetPath in
  let back := classifyEdge targetCategory sourceCategory targetPath sourcePath in
  (forth = back \/
   ((forth = special \/ forth = normal) /\ (back = special \/ back = normal))) /\
  getEdgeStyle forth = getEdgeStyle back.
Proof.
  unfold classifyEdge. cbv zeta.
  rewrite (orb6_swap (FileCategory_eqb sourceCategory config)
             (FileCategory_eqb targetCategory config)
             (includes (toLowerCase sourcePath) "/config/")
             (includes (toLowerCase targetPath) "/config/")
             (includes (toLowerCase sourcePath) "/cli/")
             (includes (toLowerCase targetPath) "/cli/")).
  rewrite (andb_comm (FileCategory_eqb targetCategory report)
             (FileCategory_eqb sourceCategory report)).
  rewrite (orb5_swap (FileCategory_eqb sourceCategory core)
             (FileCategory_eqb targetCategory core)
             (includes (toLowerCase sourcePath) "/extract/")
             (includes (toLowerCase targetPath) "/extract/")
             (includes (toLowerCase sourcePath) "/enrich/")
             (includes (toLowerCase targetPath) "/enrich/")).
  rewrite (orb4_swap (FileCategory_eqb sourceCategory tool)
             (FileCategory_eqb targetCategory tool)
             (includes (toLowerCase sourcePath) "/utils/")
             (includes (toLowerCase targetPath) "/utils/")).
  destruct (_ || _ || _ || _ || _ || _); [split; [now left | reflexivity]|].
  destruct (_ && _); [split; [now left | reflexivity]|].
  destruct (_ && _ || _ || _ || _ || _); [split; [now left | reflexivity]|].
  destruct (_ || _ || _ || _); [split; [now left | reflexivity]|].
  destruct (_ || _), (_ || _); split; try reflexivity; right; split; auto.
Qed.
(** ** What the expressions of the extractor match *)

Lemma starLoop_rel (R : mstate -> mstate -> Prop) (step : mstate -> list mstate) :
  (forall st, R st st) ->
  (forall a b c, R a b -> R b c -> R a c) ->
  (forall st st', In st' (step st) -> R st st') ->
  forall fuel st st', In st' (starLoop step fuel st) -> R st st'.
Proof.
  intros Rrefl Rtrans Rstep. induction fuel as [|fuel IH]; intros st st' H.
  - destruct H as [<-|[]]. apply Rrefl.
  - cbn [starLoop] in H. apply in_app_or in H.
    destruct H as [H|[<-|[]]]; [|apply Rrefl].
    apply in_flat_map in H. destruct H as [st1 [H1 H2]].
    destruct (Nat.ltb (pos st) (pos st1)); [|destruct H2].
    apply (Rtrans st st1 st'); [now apply Rstep | now apply IH].
Qed.

Lemma length_append (a b : string) :
  String.length (a ++ b) = String.length a + String.length b.
Proof. induction a as [|x a IH]; cbn; [reflexivity | now rewrite IH]. Qed.

Lemma reads_refl (st : mstate) : reads "" st st.
Proof. split; [reflexivity | cbn; lia]. Qed.

Lemma reads_trans (w1 w2 : string) (a b c : mstate) :
  reads w1 a b -> reads w2 b c -> reads (w1 ++ w2) a c.
Proof.
  intros [A1 A2] [B1 B2]. split.
  - now rewrite A1, B1, string_app_assoc.
  - rewrite B2, A2, length_append. lia.
Qed.

(** A match reads a piece of the input, and a non-empty one when the
    expression is consuming. *)
Lemma rmatch_reads (r : regex) :
  forall st st', In st' (rmatch r st) ->
    exists w, reads w st st' /\ (consuming r = true -> w <> "").
Proof.
  induction r as [|c|p| |r1 IH1 r2 IH2|r1 IH1 r2 IH2|r1 IH1|r1 IH1];
    intros st st' H; cbn [rmatch consuming] in *.
  - destruct H as [<-|[]]. exists "". split; [apply reads_refl | discriminate].
  - destruct (rest st) as [|a s'] eqn:E; [destruct H|].
    destruct (Ascii.eqb a c); [|destruct H]. destruct H as [<-|[]].
    exists (String a ""). split; [|discriminate].
    split; [exact E | cbn; lia].
  - destruct (rest st) as [|a s'] eqn:E; [destruct H|].
    destruct (p a); [|destruct H]. destruct H as [<-|[]].
    exists (String a ""). split; [|discriminate].
    split; [exact E | cbn; lia].
  - destruct (Nat.eqb (pos st) 0); [|destruct H]. destruct H as [<-|[]].
    exists "". split; [apply reads_refl | discriminate].
  - apply in_flat_map in H. destruct H as [st1 [H1 H2]].
    destruct (IH1 _ _ H1) as [w1 [A1 N1]].
    destruct (IH2 _ _ H2) as [w2 [A2 N2]].
    exists (w1 ++ w2). split; [now apply (reads_trans w1 w2 st st1 st')|].
    intros C. apply orb_true_iff in C. destruct C as [C|C].
    + specialize (N1 C). destruct w1; [now contradiction N1 | discriminate].
    + specialize (N2 C). destruct w1; [exact N2 | discriminate].
  - apply in_app_or in H. destruct H as [H|H].
    + destruct (IH1 _ _ H) as [w [A N]]. exists w. split; [exact A|].
      intros C. apply andb_true_iff in C. now apply N.
    + destruct (IH2 _ _ H) as [w [A N]]. exists w. split; [exact A|].
      intros C. apply andb_true_iff in C. now apply N.
  - assert (G : exists w, reads w st st').
    { apply (starLoop_rel (fun a b => exists w, reads w a b) (rmatch r1))
        with (fuel := String.length (rest st)).
      - intros a. exists "". apply reads_refl.
      - intros a b c [w1 A] [w2 B]. exists (w1 ++ w2).
        now apply (reads_trans w1 w2 a b c).
      - intros a b Hab. destruct (IH1 _ _ Hab) as [w [A _]]. now exists w.
      - exact H. }
    destruct G as [w A]. exists w. split; [exact A | discriminate].
  - apply in_map_iff in H. destruct H as [st1 [<- H1]].
    destruct (IH1 _ _ H1) as [w [[A1 A2] N]]. exists w. split; [|exact N].
    split; [exact A1 | exact A2].
Qed.

Lemma keeps_refl (C : string -> Prop) (st : mstate) : keeps C st st.
Proof. now left. Qed.

Lemma keeps_trans (C : string -> Prop) (a b c : mstate) :
  keeps C a b -> keeps C b c -> keeps C a c.
Proof.
  intros [A|[x [A Cx]]] [B|[y [B Cy]]].
  - left. congruence.
  - right. now exists y.
  - right. exists x. split; [congruence | exact Cx].
  - right. now exists y.
Qed.

Lemma rmatch_keeps (C : string -> Prop) (r : regex) :
  captures C r ->
  forall st st', In st' (rmatch r st) -> keeps C st st'.
Proof.
  induction r as [|c|p| |r1 IH1 r2 IH2|r1 IH1 r2 IH2|r1 IH1|r1 IH1];
    intros Hc st st' H; cbn [rmatch captures] in *.
  - destruct H as [<-|[]]. apply keeps_refl.
  - destruct (rest st) as [|a s']; [destruct H|].
    destruct (Ascii.eqb a c); [|destruct H]. destruct H as [<-|[]]. now left.
  - destruct (rest st) as [|a s']; [destruct H|].
    destruct (p a); [|destruct H]. destruct H as [<-|[]]. now left.
  - destruct (Nat.eqb (pos st) 0); [|destruct H]. destruct H as [<-|[]].
    apply keeps_refl.
  - destruct Hc as [C1 C2]. apply in_flat_map in H. destruct H as [st1 [H1 H2]].
    apply (keeps_trans C st st1 st'); [now apply IH1 | now apply IH2].
  - destruct Hc as [C1 C2]. apply in_app_or in H.
    destruct H as [H|H]; [now apply IH1 | now apply IH2].
  - apply (starLoop_rel (keeps C) (rmatch r1)) with (fuel := String.length (rest st)).
    + apply keeps_refl.
    + apply keeps_trans.
    + intros a b Hab. now apply IH1.
    + exact H.
  - apply in_map_iff in H. destruct H as [st1 [<- H1]].
    right. eexists. split; [reflexivity|]. now apply Hc.
Qed.

Lemma rmatch_captures (C : string -> Prop) (r : regex) :
  captures C r -> capturing r = true ->
  forall st st', In st' (rmatch r st) -> exists c, cap st' = Some c /\ C c.
Proof.
  induction r as [|c|p| |r1 IH1 r2 IH2|r1 IH1 r2 IH2|r1 IH1|r1 IH1];
    intros Hc Hs st st' H; cbn [capturing] in Hs; try discriminate Hs.
  - cbn [rmatch captures] in *. destruct Hc as [C1 C2].
    apply in_flat_map in H. destruct H as [st1 [H1 H2]].
    destruct (capturing r2) eqn:S2; [now apply (IH2 C2 eq_refl st1)|].
    rewrite orb_false_r in Hs.
    destruct (IH1 C1 Hs _ _ H1) as [c [E Cc]].
    destruct (rmatch_keeps C r2 C2 _ _ H2) as [K|K]; [|exact K].
    exists c. split; [congruence | exact Cc].
  - cbn [rmatch captures] in *. destruct Hc as [C1 C2].
    apply andb_true_iff in Hs. destruct Hs as [S1 S2].
    apply in_app_or in H. destruct H as [H|H];
      [now apply (IH1 C1 S1 st) | now apply (IH2 C2 S2 st)].
  - cbn [rmatch captures] in *.
    apply in_map_iff in H. destruct H as [st1 [<- H1]].
    eexists. split; [reflexivity|]. now apply Hc.
Qed.

(** *** Searching and looping *)

Lemma search_found (r : regex) (s : string) :
  forall p st, search r p s = Some st ->
    exists pre s', s = pre ++ s' /\
      In st (rmatch r {| pos := p + String.length pre; rest := s'; cap := None |}).
Proof.
  induction s as [|a s IH]; intros p st H; cbn [search] in H.
  - destruct (rmatch r _) as [|st0 l] eqn:E; [discriminate H|].
    injection H as ->. exists "", "". split; [reflexivity|].
    cbn [String.length]. rewrite Nat.add_0_r, E. now left.
  - destruct (rmatch r _) as [|st0 l] eqn:E.
    + destruct (IH _ _ H) as [pre [s' [-> Hin]]].
      exists (String a pre), s'. split; [reflexivity|].
      cbn [String.length]. now rewrite Nat.add_succ_r.
    + injection H as ->. exists "", (String a s). split; [reflexivity|].
      cbn [String.length]. rewrite Nat.add_0_r, E. now left.
Qed.

Lemma search_shorter (r : regex) (s : string) (p : nat) (st : mstate) :
  consuming r = true -> search r p s = Some st ->
  String.length (rest st) < String.length s.
Proof.
  intros C H. destruct (search_found r s p st H) as [pre [s' [-> Hin]]].
  destruct (rmatch_reads r _ _ Hin) as [w [[A _] N]]. cbn [rest] in A.
  specialize (N C). rewrite A, !length_append.
  destruct w; [now contradiction N | cbn [String.length]; lia].
Qed.

Lemma execAll_fuel (r : regex) :
  consuming r = true ->
  forall fuel s p extra,
    String.length s < fuel ->
    execAll (extra + fuel) r p s = execAll fuel r p s.
Proof.
  intros C. induction fuel as [|fuel IH]; intros s p extra L; [lia|].
  rewrite Nat.add_succ_r. cbn [execAll].
  destruct (search r p s) as [st|] eqn:E; [|reflexivity].
  rewrite IH; [reflexivity|].
  pose proof (search_shorter r s p st C E). lia.
Qed.

Lemma execAll_length (r : regex) :
  consuming r = true ->
  forall fuel s p, List.length (execAll fuel r p s) <= String.length s.
Proof.
  intros C. induction fuel as [|fuel IH]; intros s p; cbn [execAll List.length];
    [lia|].
  destruct (search r p s) as [st|] eqn:E; cbn [List.length]; [|lia].
  pose proof (search_shorter r s p st C E).
  specialize (IH (rest st) (pos st)). lia.
Qed.

Lemma execAll_captures (C : string -> Prop) (r : regex) :
  captures C r -> capturing r = true ->
  forall fuel s p x, In x (execAll fuel r p s) -> C x.
Proof.
  intros Hc Hs. induction fuel as [|fuel IH]; intros s p x H; [destruct H|].
  cbn [execAll] in H. destruct (search r p s) as [st|] eqn:E; [|destruct H].
  destruct H as [<-|H]; [|now apply (IH _ _ _ H)].
  destruct (search_found r s p st E) as [pre [s' [_ Hin]]].
  destruct (rmatch_captures C r Hc Hs _ _ Hin) as [c [Ec Cc]].
  unfold group1. now rewrite Ec.
Qed.

(** X18.  Each loop [while ((match = re.exec(content)) !== null)] of the
    extractor ends: every match of its expression consumes at least one
    character, so the loop makes at most as many rounds as the content is
    long, and allowing more rounds changes nothing. *)
Theorem matching_loops_end (r : regex) (content : string) :
  In r loopRegexes ->
  consuming r = true /\
  List.length (matchAll r content) <= String.length content /\
  forall extra,
    execAll (extra + S (String.length content)) r 0 content = matchAll r content.
Proof.
  intros H.
  assert (C : consuming r = true).
  { unfold loopRegexes in H.
    repeat (destruct H as [<-|H]; [reflexivity|]). destruct H. }
  split; [exact C|]. split.
  - now apply execAll_length.
  - intros extra. unfold matchAll. apply execAll_fuel; [exact C | lia].
Qed.

Lemma matching_loops_end_witness :
  List.length (matchAll requireRegex "const y = require('./b');") <= 25.
Proof.
  apply (matching_loops_end requireRegex "const y = require('./b');").
  right. now left.
Defined.
(** ** What the extractor captures *)

Lemma substring_prefix (w t : string) :
  substring 0 (String.length w) (w ++ t) = w.
Proof.
  induction w as [|a w IH]; cbn [String.length append substring].
  - destruct t; reflexivity.
  - now rewrite IH.
Qed.

Lemma reads_substring (w : string) (st st' : mstate) :
  reads w st st' -> substring 0 (pos st' - pos st) (rest st) = w.
Proof.
  intros [A B]. rewrite A.
  replace (pos st' - pos st) with (String.length w) by lia.
  apply substring_prefix.
Qed.

(** One or more code units of a class. *)
Lemma plus_cls_run (p : ascii -> bool) (st st' : mstate) :
  In st' (rmatch (Plus (Cls p)) st) ->
  run p (substring 0 (pos st' - pos st) (rest st)).
Proof.
  intros H. unfold Plus in H. cbn [rmatch] in H.
  apply in_flat_map in H. destruct H as [st1 [H1 H2]].
  assert (A : exists a, reads (String a "") st st1 /\ p a = true).
  { destruct (rest st) as [|a s'] eqn:E; [destruct H1|].
    destruct (p a) eqn:Pa; [|destruct H1]. destruct H1 as [<-|[]].
    exists a. split; [|exact Pa]. split; [exact E | cbn; lia]. }
  destruct A as [a [Ra Pa]].
  assert (B : exists w, reads w st1 st' /\ allChars p w = true).
  { apply (starLoop_rel
             (fun x y => exists w, reads w x y /\ allChars p w = true)
             (rmatch (Cls p))) with (fuel := String.length (rest st1)).
    - intros x. exists "". split; [apply reads_refl | reflexivity].
    - intros x y z [w1 [R1 A1]] [w2 [R2 A2]]. exists (w1 ++ w2).
      split; [now apply (reads_trans w1 w2 x y z)|].
      now rewrite allChars_app, A1, A2.
    - intros x y Hxy. cbn [rmatch] in Hxy.
      destruct (rest x) as [|b s'] eqn:E; [destruct Hxy|].
      destruct (p b) eqn:Pb; [|destruct Hxy]. destruct Hxy as [<-|[]].
      exists (String b ""). split; [split; [exact E | cbn; lia]|].
      cbn [allChars]. now rewrite Pb.
    - exact H2. }
  destruct B as [w [Rw Aw]].
  rewrite (reads_substring (String a "" ++ w) st st'
             (reads_trans _ _ st st1 st' Ra Rw)).
  split; [discriminate|]. cbn [append allChars]. now rewrite Pa, Aw.
Qed.

Ltac captures_run :=
  cbn [captures Seqs Opt Plus Lit ws notWs word];
  repeat match goal with
         | |- _ /\ _ => split
         | |- True => exact Logic.I
         end;
  intros st st' H; exact (plus_cls_run _ st st' H).

Lemma importRegex_captures : captures (run (noneOf quotes)) importRegex.
Proof. unfold importRegex. captures_run. Qed.

Lemma requireRegex_captures : captures (run (noneOf quotes)) requireRegex.
Proof. unfold requireRegex. captures_run. Qed.

Lemma pythonImportRegex_captures :
  captures (run (fun a => negb (isSpace a))) pythonImportRegex.
Proof. unfold pythonImportRegex. captures_run. Qed.

Lemma funcDeclRegex_captures : captures (run isWord) funcDeclRegex.
Proof. unfold funcDeclRegex. captures_run. Qed.

Lemma arrowFuncRegex_captures : captures (run isWord) arrowFuncRegex.
Proof. unfold arrowFuncRegex. captures_run. Qed.

Lemma methodRegex_captures : captures (run isWord) methodRegex.
Proof. unfold methodRegex. captures_run. Qed.

Lemma pythonFuncRegex_captures : captures (run isWord) pythonFuncRegex.
Proof. unfold pythonFuncRegex. captures_run. Qed.

Lemma exportRegex_captures : captures (run isWord) exportRegex.
Proof. unfold exportRegex. captures_run. Qed.

Lemma allRegex_captures : captures (run (noneOf "]")) allRegex.
Proof. unfold allRegex. captures_run. Qed.

Lemma matchAll_captures (C : string -> Prop) (r : regex) (content x : string) :
  captures C r -> capturing r = true -> In x (matchAll r content) -> C x.
Proof.
  intros Hc Hs H. unfold matchAll in H.
  now apply (execAll_captures C r Hc Hs _ _ _ x H).
Qed.

Lemma pushIfNew_In (l acc : list string) (x : string) :
  In x (fold_left pushIfNew l acc) <-> In x acc \/ In x l.
Proof.
  revert acc. induction l as [|y l IH]; intros acc; cbn [fold_left].
  - simpl. tauto.
  - rewrite IH. unfold pushIfNew.
    destruct (memberOf y acc) eqn:M.
    + apply memberOf_In in M. simpl. intuition (subst; auto).
    + rewrite in_app_iff. simpl. tauto.
Qed.

(** *** Pieces of a text *)

Lemma splitOn_allChars (p : ascii -> bool) (c : ascii) (s w : string) :
  allChars p s = true -> In w (splitOn c s) -> allChars p w = true.
Proof.
  revert w. induction s as [|a s IH]; intros w Hs; cbn [splitOn].
  - intros [<-|[]]. reflexivity.
  - cbn [allChars] in Hs. apply andb_true_iff in Hs. destruct Hs as [Pa Hs].
    destruct (Ascii.eqb a c).
    + intros [<-|H]; [reflexivity | now apply IH].
    + destruct (splitOn c s) as [|w0 l] eqn:S.
      * intros [<-|[]]. cbn [allChars]. now rewrite Pa.
      * intros [<-|H].
        -- cbn [allChars]. rewrite Pa. apply IH; [exact Hs | now left].
        -- apply IH; [exact Hs | now right].
Qed.

Lemma hd_splitOn_In (c : ascii) (s : string) :
  In (hd "" (splitOn c s)) (splitOn c s).
Proof.
  pose proof (splitOn_nonempty c s) as N.
  destruct (splitOn c s); [now contradiction N | now left].
Qed.

Lemma trimStart_allChars (p : ascii -> bool) (s : string) :
  allChars p s = true -> allChars p (trimStart s) = true.
Proof.
  induction s as [|a s IH]; [reflexivity|].
  intros H. cbn [trimStart]. destruct (isSpace a); [|exact H].
  cbn [allChars] in H. apply andb_true_iff in H. now apply IH.
Qed.

Lemma trimEnd_allChars (p : ascii -> bool) (s : string) :
  allChars p s = true -> allChars p (trimEnd s) = true.
Proof.
  induction s as [|a s IH]; [reflexivity|].
  intros H. cbn [allChars] in H. apply andb_true_iff in H. destruct H as [Pa H].
  cbn [trimEnd]. specialize (IH H).
  destruct (trimEnd s) as [|b t].
  - destruct (isSpace a); [reflexivity|]. cbn [allChars]. now rewrite Pa.
  - cbn [allChars] in *. now rewrite Pa, IH.
Qed.

Lemma replaceAll_empty_allChars (p q : ascii -> bool) (s : string) :
  allChars p s = true -> allChars p (replaceAll q "" s) = true.
Proof.
  induction s as [|a s IH]; [reflexivity|].
  intros H. cbn [allChars] in H. apply andb_true_iff in H. destruct H as [Pa H].
  cbn [replaceAll]. destruct (q a); cbn [append allChars]; [now apply IH|].
  now rewrite Pa, IH.
Qed.

Lemma replaceAll_empty_removes (q : ascii -> bool) (s : string) :
  allChars (fun a => negb (q a)) (replaceAll q "" s) = true.
Proof.
  induction s as [|a s IH]; [reflexivity|].
  cbn [replaceAll]. destruct (q a) eqn:Q; cbn [append allChars]; [exact IH|].
  now rewrite Q, IH.
Qed.

Lemma allChars_and (p q : ascii -> bool) (s : string) :
  allChars p s = true -> allChars q s = true ->
  allChars (fun a => p a && q a) s = true.
Proof.
  induction s as [|a s IH]; [reflexivity|].
  cbn [allChars]. intros H1 H2.
  apply andb_true_iff in H1. apply andb_true_iff in H2.
  destruct H1 as [A1 B1]. destruct H2 as [A2 B2].
  now rewrite A1, A2, IH.
Qed.

Lemma hasChar_false_allChars (c : ascii) (s : string) :
  hasChar c s = false <-> allChars (fun a => negb (Ascii.eqb a c)) s = true.
Proof.
  induction s as [|a s IH]; [now split|].
  cbn [hasChar allChars]. rewrite orb_false_iff, andb_true_iff, IH, negb_true_iff.
  reflexivity.
Qed.

(** X19.  Every function name the extractor reports, and every export
    it reports for JavaScript or TypeScript, is a non-empty run of word
    characters; a Python export, taken from the list assigned to
    __all__, holds no quote, no comma and no closing bracket. *)
Theorem extracted_names (content languageId x : string) :
  (In x (extractFunctions content languageId) -> run isWord x) /\
  (In x (extractExports content languageId) ->
   if languageId =? "python"
   then allChars (noneOf quotes) x = true /\
        hasChar "," x = false /\ hasChar "]" x = false
   else run isWord x).
Proof.
  split.
  - unfold extractFunctions. destruct (isJsOrTs languageId).
    + intros H. apply pushIfNew_In in H. rewrite in_app_iff in H.
      destruct H as [[H|H]|H].
      * now apply (matchAll_captures _ _ _ _ funcDeclRegex_captures eq_refl H).
      * now apply (matchAll_captures _ _ _ _ arrowFuncRegex_captures eq_refl H).
      * now apply (matchAll_captures _ _ _ _ methodRegex_captures eq_refl H).
    + destruct (languageId =? "python"); [|intros []].
      intros H.
      now apply (matchAll_captures _ _ _ _ pythonFuncRegex_captures eq_refl H).
  - unfold extractExports, isJsOrTs.
    destruct (String.eqb_spec languageId "python") as [->|N].
    + cbn [String.eqb orb].
      change ("python" =? "typescript") with false.
      change ("python" =? "javascript") with false. cbn [orb].
      destruct (search allRegex 0 content) as [st|] eqn:E; [|intros []].
      intros H. apply in_map_iff in H. destruct H as [item [<- Hitem]].
      destruct (search_found allRegex content 0 st E) as [pre [s' [_ Hin]]].
      destruct (rmatch_captures _ _ allRegex_captures eq_refl _ _ Hin)
        as [c [Ec [_ Cc]]].
      assert (G : group1 st = c) by (unfold group1; now rewrite Ec).
      rewrite G in Hitem.
      pose proof (splitOn_allChars _ "," c item Cc Hitem) as A1.
      pose proof (splitOn_free "," c item Hitem) as A2.
      apply hasChar_false_allChars in A2.
      split; [|split].
      * apply (replaceAll_empty_removes (oneOf quotes)).
      * apply hasChar_false_allChars. apply replaceAll_empty_allChars.
        unfold trim. now apply trimEnd_allChars, trimStart_allChars.
      * apply hasChar_false_allChars. apply replaceAll_empty_allChars.
        unfold trim. apply trimEnd_allChars, trimStart_allChars.
        clear -A1. induction item as [|a s IH]; [reflexivity|].
        cbn [allChars] in *. apply andb_true_iff in A1. destruct A1 as [P Q].
        rewrite (IH Q), andb_true_r.
        unfold noneOf in P. rewrite oneOf_hasChar in P. cbn [hasChar] in P.
        rewrite orb_false_r in P. rewrite Ascii.eqb_sym. exact P.
    + destruct ((languageId =? "typescript") || (languageId =? "javascript")).
      * intros H.
        now apply (matchAll_captures _ _ _ _ exportRegex_captures eq_refl H).
      * intros [].
Qed.

(** X20.  The module name of a dependency found in JavaScript or
    TypeScript is the non-empty text between the quotes and holds no
    quote; the module name of a Python dependency holds no white space
    and no dot, being what precedes the first dot of the imported name. *)
Theorem dependency_module_names (h : Host)
    (root content filePath languageId : string) (dep : CodebaseDependency) :
  In dep (extractDependencies h root content filePath languageId) ->
  if isJsOrTs languageId
  then run (noneOf quotes) (module dep)
  else allChars (fun a => negb (isSpace a)) (module dep) = true /\
       hasChar "." (module dep) = false.
Proof.
  unfold extractDependencies. destruct (isJsOrTs languageId).
  - intros H. apply in_app_or in H.
    destruct H as [H|H]; apply in_map_iff in H; destruct H as [mp [<- Hmp]];
      cbn [module mkDependency].
    + now apply (matchAll_captures _ _ _ _ importRegex_captures eq_refl Hmp).
    + now apply (matchAll_captures _ _ _ _ requireRegex_captures eq_refl Hmp).
  - destruct (languageId =? "python"); [|intros []].
    intros H. apply in_map_iff in H. destruct H as [captured [<- Hc]].
    cbn [module mkDependency].
    destruct (matchAll_captures _ _ _ _ pythonImportRegex_captures eq_refl Hc)
      as [_ A].
    unfold pythonModuleName. split.
    + apply (splitOn_allChars _ "." (hd "" (splitOn " " captured)));
        [|apply hd_splitOn_In].
      apply (splitOn_allChars _ " " captured); [exact A | apply hd_splitOn_In].
    + apply (splitOn_free "." (hd "" (splitOn " " captured))).
      apply hd_splitOn_In.
Qed.

Lemma dependency_module_names_witness :
  run (noneOf quotes) "./b".
Proof.
  apply (dependency_module_names sampleHost "/ws" "import {x} from './b'"
           "/ws/src/a.ts" "typescript"
           (mkDependency "./b" (Some "/ws/src/b.ts") "import")).
  vm_compute. left. reflexivity.
Defined.



(** ** Leaves and subgraphs *)

Lemma append_nonempty_r (a b : string) : b <> "" -> a ++ b <> "".
Proof.
  intros H. destruct a as [|x a]; [exact H | discriminate].
Qed.

Lemma renderNode_nonempty (nd : option string) (txt : string) :
  renderNode nd txt <> "".
Proof. unfold renderNode. apply append_nonempty_r. discriminate. Qed.

Lemma renderItem_nonempty (mini : bool) (depth : nat) (t : SubgraphNode) :
  renderItem mini depth t <> "".
Proof.
  destruct t as [nd txt sub]. cbn [renderItem].
  destruct (_ =? ""); apply append_nonempty_r.
  - apply renderNode_nonempty.
  - discriminate.
Qed.

Lemma join_nonempty (sep0 : string) (l : list string) :
  l <> [] -> (forall x, In x l -> x <> "") -> join sep0 l <> "".
Proof.
  destruct l as [|x l]; [intros N; now contradiction N|].
  intros _ H. cbn [join]. destruct l as [|y l].
  - apply H. now left.
  - pose proof (H x (or_introl eq_refl)) as Hx.
    destruct x as [|a x]; [now contradiction Hx | discriminate].
Qed.

(** X22.  A node of the tree is drawn as a plain node exactly when it
    has no children, and as a subgraph closed by [end] around its
    rendered children otherwise: the rendering of a non-empty set of
    children is never the empty text the source tests for. *)
Theorem renderItem_cases (mini : bool) (depth : nat) (nd : option string)
    (txt : string) (sub : JsMap SubgraphNode) :
  let indent := if mini then "" else repeatString "  " depth in
  renderItem mini depth (SubgraphItem nd txt sub)
  = match sub with
    | [] => indent ++ renderNode nd txt
    | _ :: _ =>
        indent ++ "subgraph " ++ renderNode nd txt ++ newline
        ++ renderSubgraphs mini sub (S depth) ++ newline
        ++ indent ++ "end"
    end.
Proof.
  intros indent. cbn [renderItem]. fold indent.
  destruct sub as [|kv sub]; [reflexivity|].
  unfold renderSubgraphs.
  destruct (String.eqb_spec
              (join newline (map (fun kv0 => renderItem mini (S depth) (snd kv0))
                               (kv :: sub))) "") as [E|N]; [|reflexivity].
  exfalso. revert E. apply join_nonempty; [discriminate|].
  intros x Hx. apply in_map_iff in Hx. destruct Hx as [kv' [<- _]].
  apply renderItem_nonempty.
Qed.
(** ** The diagram text inside a page *)

Lemma allChars_free (p : ascii -> bool) (c : ascii) (s : string) :
  allChars p s = true -> p c = false -> hasChar c s = false.
Proof.
  intros H Pc. induction s as [|a s IH]; [reflexivity|].
  cbn [allChars hasChar] in *. apply andb_true_iff in H. destruct H as [Pa H].
  rewrite (IH H), orb_false_r.
  destruct (Ascii.eqb_spec a c) as [->|]; [congruence | reflexivity].
Qed.

Lemma minified_no_angle (id : string) : minified id -> hasChar "<" id = false.
Proof.
  intros [t [-> H]]. cbn [hasChar].
  now rewrite (allChars_free isIdChar "<" t H eq_refl).
Qed.

Lemma hasChar_join (c : ascii) (sep0 : string) (l : list string) :
  hasChar c sep0 = false ->
  (forall x, In x l -> hasChar c x = false) ->
  hasChar c (join sep0 l) = false.
Proof.
  intros Hs. induction l as [|x l IH]; intros H; [reflexivity|].
  cbn [join]. destruct l as [|y l]; [apply H; now left|].
  rewrite !hasChar_app, Hs, (H x (or_introl eq_refl)). cbn [orb].
  apply IH. intros z Hz. apply H. now right.
Qed.

Lemma hasChar_precededLines (c : ascii) (l : list string) :
  hasChar c newline = false ->
  (forall x, In x l -> hasChar c x = false) ->
  hasChar c (precededLines l) = false.
Proof.
  intros Hn. induction l as [|x l IH]; intros H; [reflexivity|].
  cbn [precededLines]. rewrite !hasChar_app, Hn, (H x (or_introl eq_refl)).
  cbn [orb]. apply IH. intros z Hz. apply H. now right.
Qed.

Lemma digitChar_not_angle (d : nat) :
  d < 36 -> Ascii.eqb (digitChar d) "<" = false.
Proof.
  intros H. do 36 (destruct d as [|d]; [reflexivity|]). lia.
Qed.

Lemma digitsRadix_no_angle (fuel radix n : nat) (acc : string) :
  0 < radix -> radix <= 36 ->
  hasChar "<" acc = false ->
  hasChar "<" (digitsRadix fuel radix n acc) = false.
Proof.
  intros Hr0 Hr. revert n acc.
  induction fuel as [|fuel IH]; intros n acc Hacc; cbn [digitsRadix];
    [exact Hacc|].
  assert (D : hasChar "<" (String (digitChar (Nat.modulo n radix)) acc) = false).
  { cbn [hasChar]. rewrite Hacc, orb_false_r. apply digitChar_not_angle.
    pose proof (Nat.mod_upper_bound n radix). lia. }
  destruct (Nat.eqb (Nat.div n radix) 0); [exact D | now apply IH].
Qed.

Lemma natToString_no_angle (n : nat) : hasChar "<" (natToString n) = false.
Proof.
  unfold natToString, toStringRadix.
  apply digitsRadix_no_angle; [lia | lia | reflexivity].
Qed.

Lemma edgeStyleSuffix_no_angle (g : Generator) (e : Edge) :
  hasChar "<" (edgeStyleSuffix g e) = false.
Proof.
  unfold edgeStyleSuffix.
  destruct (mget (endNode (edgeFrom e)) (nodeIdToModule g)) as [fm|];
    [|reflexivity].
  destruct (mget (endNode (edgeTo e)) (nodeIdToModule g)) as [tm|];
    [|reflexivity].
  cbv zeta. destruct (classifyEdge _ _ _ _); reflexivity.
Qed.

Lemma renderNode_no_angle (nd : option string) (txt : string) :
  match nd with Some id => minified id | None => True end ->
  hasChar "<" (renderNode nd txt) = false.
Proof.
  intros H. unfold renderNode.
  assert (I : hasChar "<" (interpolate nd) = false).
  { destruct nd as [id|]; [now apply minified_no_angle | reflexivity]. }
  rewrite !hasChar_app, I.
  destruct (Nat.ltb 0 (String.length txt)); [|reflexivity].
  unfold escapeMermaidText.
  rewrite (replaceAll_keeps_free "<" (isChar "010") " ");
    [reflexivity | reflexivity|].
  apply replaceAll_keeps_free; [reflexivity|].
  now apply replaceAll_removes.
Qed.

Lemma renderItem_no_angle :
  forall (t : SubgraphNode) (depth : nat),
    treeIds minified t -> hasChar "<" (renderItem true depth t) = false.
Proof.
  fix IH 1. intros [nd txt sub] depth H.
  apply treeIds_unfold in H. destruct H as [Hnd Hsub].
  cbn [renderItem].
  assert (C : forall p,
             In p (map (fun kv => renderItem true (S depth) (snd kv)) sub) ->
             hasChar "<" p = false).
  { clear Hnd. induction sub as [|kv sub' IHs]; intros p Hp; [destruct Hp|].
    cbn [forestIds] in Hsub. destruct Hsub as [Hkv Hsub].
    cbn [map] in Hp. destruct Hp as [<-|Hp].
    - now apply IH.
    - now apply IHs. }
  pose proof (hasChar_join "<" newline _ eq_refl C) as J.
  destruct (join newline (map _ sub) =? "").
  - rewrite hasChar_app. now rewrite renderNode_no_angle.
  - rewrite !hasChar_app, J. now rewrite renderNode_no_angle.
Qed.

Lemma styleDirectivesFrom_no_angle (g : Generator) (edges : list Edge) (i : nat) :
  forall l, In l (styleDirectivesFrom g i edges) -> hasChar "<" l = false.
Proof.
  revert i. induction edges as [|e more IH]; intros i l Hl; [destruct Hl|].
  cbn [styleDirectivesFrom] in Hl. destruct Hl as [<-|Hl]; [|now apply (IH (S i))].
  unfold styleDirective.
  now rewrite !hasChar_app, natToString_no_angle, edgeStyleSuffix_no_angle.
Qed.

Section DiagramText.

Variable ms : ModuleMap.
Variable root : string.

Let g := hashModuleNames (newGenerator ms root true).

Lemma generate_no_angle (text : string) :
  snd (generate (newGenerator ms root true)) = Some text ->
  hasChar "<" text = false.
Proof.
  intros H. apply generate_text in H. cbv zeta in H. fold g in H.
  destruct H as [tree [Htree ->]].
  cbn [minify newGenerator].
  assert (T : hasChar "<" (renderSubgraphs true tree 0) = false).
  { unfold renderSubgraphs. apply hasChar_join; [reflexivity|].
    pose proof (convertSubgraphSources_ids minified g tree
                  (minifying_lookup ms root) Htree) as F.
    clear Htree. induction tree as [|kv tree IHt]; intros p Hp; [destruct Hp|].
    cbn [forestIds] in F. destruct F as [Hkv F].
    cbn [map] in Hp. destruct Hp as [<-|Hp].
    - now apply renderItem_no_angle.
    - now apply IHt. }
  assert (E : hasChar "<" (join newline (map edgeLine (convertEdgeSources g)))
              = false).
  { apply hasChar_join; [reflexivity|]. intros p Hp.
    apply in_map_iff in Hp. destruct Hp as [e [<- He]].
    destruct (minifying_edges ms root e He) as [Hf Ht].
    unfold edgeLine.
    now rewrite !hasChar_app, (minified_no_angle _ Hf), (minified_no_angle _ Ht). }
  assert (N : hasChar "<" (renderNodeStyles g) = false).
  { unfold renderNodeStyles.
    rewrite (fold_left_preceded
               (fun entry : string * CodebaseModule =>
                  "class " ++ fst entry ++ " "
                  ++ getNodeStyleClass (fileCategory (snd entry)))).
    apply hasChar_precededLines; [reflexivity|]. intros l Hl.
    apply in_map_iff in Hl. destruct Hl as [[k m] [<- Hin]]. cbn [fst snd].
    rewrite !hasChar_app.
    rewrite (minified_no_angle k (proj2 (minifying_tables ms root) k m Hin)).
    now destruct (fileCategory m). }
  assert (S : hasChar "<" (precededLines (styleDirectives g (convertEdgeSources g)))
              = false).
  { apply hasChar_precededLines; [reflexivity|].
    apply styleDirectivesFrom_no_angle. }
  rewrite !hasChar_app, T, E, N, S. reflexivity.
Qed.

End DiagramText.

(** X23.  The text of a diagram holds no opening angle bracket: the
    identifiers are minified, the labels are escaped, and nothing else
    the renderer writes has one.  So the text, placed inside an element
    of a page, cannot open a tag. *)
Theorem diagram_has_no_opening_angle (b : CodebaseGraphBuilder) (text : string) :
  generateMermaid b = Some text -> hasChar "<" text = false.
Proof.
  unfold generateMermaid. apply generate_no_angle.
Qed.

Lemma diagram_has_no_opening_angle_witness :
  exists text,
    generateMermaid {| builderModules := sampleModules; builderRoot := "/ws" |}
    = Some text /\
    hasChar "<" text = false.
Proof.
  destruct (generateMermaid
              {| builderModules := sampleModules; builderRoot := "/ws" |})
    as [text|] eqn:E; [|vm_compute in E; discriminate E].
  exists text. split; [reflexivity|].
  exact (diagram_has_no_opening_angle _ text E).
Defined.
(** ** The shape of the tree *)

Lemma mget_app_fresh {V} (k : string) (v : V) (o : JsMap V) :
  mget k o = None -> mget k (o ++ [(k, v)])%list = Some v.
Proof.
  induction o as [|[k' v'] o IH]; cbn [app mget].
  - intros _. now rewrite String.eqb_refl.
  - destruct (k' =? k); [discriminate | exact IH].
Qed.

Lemma mget_app_other {V} (k k' : string) (v : V) (o : JsMap V) :
  k <> k' -> mget k' (o ++ [(k, v)])%list = mget k' o.
Proof.
  intros N. induction o as [|[k0 v0] o IH]; cbn [app mget].
  - apply String.eqb_neq in N. now rewrite N.
  - destruct (k0 =? k'); [reflexivity | exact IH].
Qed.

Lemma mget_objAdd_fresh {V} (k : string) (v : V) (o : JsMap V) :
  mget k o = None -> mget k (objAdd k v o) = Some v.
Proof.
  unfold objAdd. destruct (arrayIndex k) as [n|]; [|apply mget_app_fresh].
  induction o as [|[k' v'] o IH]; cbn [insertIndexKey mget].
  - intros _. now rewrite String.eqb_refl.
  - destruct (String.eqb_spec k' k) as [->|N]; [discriminate|]. intros H.
    destruct (arrayIndex k') as [n'|].
    + destruct (N.ltb n n'); cbn [mget].
      * now rewrite String.eqb_refl.
      * apply String.eqb_neq in N. rewrite N. now apply IH.
    + cbn [mget]. now rewrite String.eqb_refl.
Qed.

Lemma mget_objAdd_other {V} (k k' : string) (v : V) (o : JsMap V) :
  k <> k' -> mget k' (objAdd k v o) = mget k' o.
Proof.
  intros N. unfold objAdd.
  destruct (arrayIndex k) as [n|]; [|now apply mget_app_other].
  apply String.eqb_neq in N.
  induction o as [|[k0 v0] o IH]; cbn [insertIndexKey mget].
  - now rewrite N.
  - destruct (arrayIndex k0) as [n'|].
    + destruct (N.ltb n n'); cbn [mget]; [now rewrite N|].
      destruct (k0 =? k'); [reflexivity | exact IH].
    + cbn [mget]. now rewrite N.
Qed.

Lemma lookupPath_nil (path : list string) : lookupPath [] path = None.
Proof. destruct path; reflexivity. Qed.

Lemma lookupPath_cons (tree : Subgraphs) (k : string) (rest : list string) :
  lookupPath tree (k :: rest)
  = match mget k tree with
    | Some (SubgraphItem nd txt sub) =>
        match rest with
        | [] => Some (SubgraphItem nd txt sub)
        | _ :: _ => lookupPath sub rest
        end
    | None => None
    end.
Proof. reflexivity. Qed.

Section Shape.

Variable names : JsMap string.
Variable paths : list string.

(** The nodes after an insertion are the nodes before it and the
    prefixes of the inserted path, up to its first inherited key. *)
Lemma insertPath_lookup (remaining : list string) :
  forall (index : nat) (children tree' : Subgraphs),
    skipn index paths = remaining ->
    forestAt (nodeAt names) (firstn index paths) children ->
    insertPath names paths index remaining children = Some tree' ->
    forall path,
      lookupPath tree' path <> None <->
      lookupPath children path <> None \/
      (path <> [] /\ existsb inheritedKey path = false /\
       exists rest, remaining = (path ++ rest)%list).
Proof.
  induction remaining as [|seg more IH]; intros index children tree' Hskip Hf H path.
  - cbn [insertPath] in H. injection H as <-. split; [now left|].
    intros [A|[N [_ [rest E]]]]; [exact A|].
    destruct path; [now contradiction N | discriminate E].
  - destruct (skipn_cons_firstn paths index seg more Hskip) as [F [Sk L]].
    cbn [insertPath] in H. unfold getProperty in H.
    destruct (mget seg children) as [[nd txt sub]|] eqn:G.
    + pose proof (forestAt_mget _ _ _ _ _ Hf G) as Ht.
      apply treeAt_unfold in Ht. destruct Ht as [Hq Hsub].
      assert (Hk : inheritedKey seg = false).
      { destruct Hq as [_ [_ [La Pk]]]. rewrite last_last in La. now subst txt. }
      rewrite <- F in Hsub.
      destruct (insertPath names paths (S index) more sub) as [sub'|] eqn:E;
        [|discriminate H].
      injection H as <-.
      specialize (IH (S index) sub sub' Sk Hsub E).
      destruct path as [|k rest0].
      * split; [intros X; now contradiction X|].
        intros [X|[X _]]; now contradiction X.
      * rewrite !lookupPath_cons.
        destruct (string_dec seg k) as [<-|Nk].
        -- rewrite mget_mset_same, G.
           destruct rest0 as [|k1 rest1].
           ++ split; [intros _; left; discriminate | intros _; discriminate].
           ++ rewrite (IH (k1 :: rest1)). cbn [existsb]. rewrite Hk, orb_false_l.
              split.
              ** intros [A|[_ [B [rest C]]]]; [now left|].
                 right. split; [discriminate|]. split; [exact B|].
                 exists rest. cbn [app]. now rewrite C.
              ** intros [A|[_ [B [rest C]]]]; [now left|].
                 right. split; [discriminate|]. split; [exact B|].
                 exists rest. cbn [app] in C. now injection C.
        -- rewrite mget_mset_other by exact Nk. split; [now left|].
           intros [A|[_ [_ [rest C]]]]; [exact A|].
           cbn [app] in C. injection C as C _. now contradiction Nk.
    + fold (inheritedKey seg) in H. destruct (inheritedKey seg) eqn:Hk.
      * destruct more as [|seg' more']; [|discriminate H]. injection H as <-.
        split; [now left|].
        intros [A|[N [B [rest C]]]]; [exact A|].
        destruct path as [|k rest0]; [now contradiction N|].
        cbn [app] in C. injection C as <- C. cbn [existsb] in B.
        rewrite Hk in B. discriminate B.
      * destruct (insertPath names paths (S index) more []) as [sub'|] eqn:E;
          [|discriminate H].
        injection H as <-.
        specialize (IH (S index) [] sub' Sk Logic.I E).
        destruct path as [|k rest0].
        -- split; [intros X; now contradiction X|].
           intros [X|[X _]]; now contradiction X.
        -- rewrite !lookupPath_cons.
           destruct (string_dec seg k) as [<-|Nk].
           ++ rewrite (mget_objAdd_fresh seg _ children G), G.
              destruct rest0 as [|k1 rest1].
              ** split; [|intros _; discriminate]. intros _. right.
                 split; [discriminate|]. cbn [existsb]. rewrite Hk.
                 split; [reflexivity|]. now exists more.
              ** rewrite (IH (k1 :: rest1)), lookupPath_nil.
                 cbn [existsb]. rewrite Hk, orb_false_l. split.
                 --- intros [A|[_ [B [rest C]]]]; [now contradiction A|].
                     right. split; [discriminate|]. split; [exact B|].
                     exists rest. cbn [app]. now rewrite C.
                 --- intros [A|[_ [B [rest C]]]]; [now contradiction A|].
                     right. split; [discriminate|]. split; [exact B|].
                     exists rest. cbn [app] in C. now injection C.
           ++ rewrite (mget_objAdd_other seg k _ children Nk).
              split; [now left|].
              intros [A|[_ [_ [rest C]]]]; [exact A|].
              cbn [app] in C. injection C as C _. now contradiction Nk.
Qed.

End Shape.

Section ShapeOfTree.

Variable names : JsMap string.

Let step (acc : option Subgraphs) (m : CodebaseModule) : option Subgraphs :=
  match acc with
  | Some tree =>
      let paths := segments (relativePath m) in
      insertPath names paths 0 paths tree
  | None => None
  end.

Lemma convert_lookup (l : list CodebaseModule) :
  (forall m i, In m l -> i < List.length (segments (relativePath m)) ->
     mhas (join sep (firstn (S i) (segments (relativePath m)))) names = true) ->
  forall tree tree',
    forestAt (nodeAt names) [] tree ->
    fold_left step l (Some tree) = Some tree' ->
    forall path,
      lookupPath tree' path <> None <->
      lookupPath tree path <> None \/
      (path <> [] /\ existsb inheritedKey path = false /\
       exists m rest, In m l /\ segments (relativePath m) = (path ++ rest)%list).
Proof.
  induction l as [|m l IH]; intros Hc tree tree' Ht H path.
  - cbn [fold_left] in H. injection H as <-. split; [now left|].
    intros [A|[_ [_ [m [rest [[] _]]]]]]. exact A.
  - cbn [fold_left] in H.
    change (step (Some tree) m)
      with (insertPath names (segments (relativePath m)) 0
              (segments (relativePath m)) tree) in H.
    pose proof (insertPath_spec names (segments (relativePath m))
                  (fun i L => Hc m i (or_introl eq_refl) L)
                  (segments (relativePath m)) 0 tree eq_refl Ht) as S.
    destruct (insertPath names (segments (relativePath m)) 0
                (segments (relativePath m)) tree) as [t1|] eqn:E.
    + assert (H1 : forestAt (nodeAt names) [] t1).
      { destruct (pathThrows (segments (relativePath m)));
          [discriminate S|].
        destruct S as [t [Et Ft]]. injection Et as <-. exact Ft. }
      pose proof (insertPath_lookup names (segments (relativePath m))
                    (segments (relativePath m)) 0 tree t1 eq_refl Ht E path) as A.
      rewrite (IH (fun m' i Hm' => Hc m' i (or_intror Hm')) t1 tree' H1 H path), A.
      split.
      * intros [[X|[X1 [X2 [rest X3]]]]|[X1 [X2 [m' [rest [X3 X4]]]]]].
        -- now left.
        -- right. split; [exact X1|]. split; [exact X2|].
           exists m, rest. split; [now left | exact X3].
        -- right. split; [exact X1|]. split; [exact X2|].
           exists m', rest. split; [now right | exact X4].
      * intros [X|[X1 [X2 [m' [rest [[<-|X3] X4]]]]]].
        -- left. now left.
        -- left. right. split; [exact X1|]. split; [exact X2|]. now exists rest.
        -- right. split; [exact X1|]. split; [exact X2|]. now exists m', rest.
    + assert (X : fold_left step l None = None)
        by apply (convert_thrown names l).
      congruence.
Qed.

End ShapeOfTree.

(** X24.  The nodes of the tree are the directories and files of the
    analysed modules, and nothing else: following a path of keys from the
    root finds a node exactly when the path is not empty, begins the
    segments of the relative path of some module, and none of its keys
    names a member of [Object.prototype]. *)
Theorem tree_paths (ms : ModuleMap) (root : string) (mini : bool)
    (tree : Subgraphs) (path : list string) :
  convertSubgraphSources (hashModuleNames (newGenerator ms root mini)) = Some tree ->
  (lookupPath tree path <> None <->
   path <> [] /\ existsb inheritedKey path = false /\
   exists k m rest, In (k, m) ms /\
                    segments (relativePath m) = (path ++ rest)%list).
Proof.
  set (g := hashModuleNames (newGenerator ms root mini)).
  unfold convertSubgraphSources.
  assert (M : modules g = ms)
    by apply (hashModuleNames_fields (newGenerator ms root mini)).
  rewrite M. intros H.
  rewrite (convert_lookup (namesHashMap g) (mvalues ms)) with (tree := []);
    [| | exact Logic.I | exact H].
  - rewrite lookupPath_nil. split.
    + intros [X|[X1 [X2 [m [rest [X3 X4]]]]]]; [now contradiction X|].
      split; [exact X1|]. split; [exact X2|].
      unfold mvalues in X3. apply in_map_iff in X3.
      destruct X3 as [[k m'] [<- Hin]]. now exists k, m', rest.
    + intros [X1 [X2 [k [m [rest [X3 X4]]]]]]. right.
      split; [exact X1|]. split; [exact X2|]. exists m, rest.
      split; [|exact X4]. unfold mvalues. apply in_map_iff. now exists (k, m).
  - intros m i Hm L. unfold mvalues in Hm. apply in_map_iff in Hm.
    destruct Hm as [[k m'] [<- Hin]]. cbn [snd].
    apply hashModuleNames_covers.
    apply (collectPaths_prefix ms k m' _ Hin). now apply pathPrefixes_In.
Qed.

Lemma tree_paths_witness :
  exists tree,
    convertSubgraphSources sampleGenerator = Some tree /\
    lookupPath tree ["src"; "shared"; "lib"] <> None.
Proof.
  destruct (convertSubgraphSources sampleGenerator) as [tree|] eqn:E;
    [|vm_compute in E; discriminate E].
  exists tree. split; [reflexivity|].
  apply (tree_paths sampleModules "/ws" true tree ["src"; "shared"; "lib"] E).
  split; [discriminate|]. split; [reflexivity|].
  assert (X : exists m, mget "/ws/src/shared/lib/index.ts" sampleModules = Some m /\
                        segments (relativePath m)
                        = ["src"; "shared"; "lib"; "index.ts"]).
  { vm_compute. eexists. split; reflexivity. }
  destruct X as [m [G S]].
  exists "/ws/src/shared/lib/index.ts", m, ["index.ts"].
  split; [exact (mget_In _ _ _ G) | exact S].
Defined.
(** ** The diagram text in the page *)

Example neutralizeScriptEnd_cases :
  neutralizeScriptEnd "a</SCRIPT>b</script></scriptx" = "a<\/script>b<\/script></scriptx"
  /\ neutralizeScriptEnd "N1-->N2" = "N1-->N2".
Proof. split; reflexivity. Qed.

Lemma neutralizeFrom_no_angle (s : string) :
  hasChar "<" s = false -> neutralizeFrom 0 s = s.
Proof.
  induction s as [|a s IH]; [reflexivity|].
  cbn [hasChar]. intros H. apply orb_false_iff in H. destruct H as [Ha H].
  cbn [neutralizeFrom prefixCI].
  assert (L : Ascii.eqb "<" (asciiLower a) = false).
  { destruct (Ascii.eqb_spec "<" (asciiLower a)) as [E|N]; [|reflexivity].
    unfold asciiLower in E.
    destruct (between 65 90 (code a)) eqn:B.
    - exfalso. unfold between in B. apply andb_true_iff in B.
      destruct B as [B1 B2]. apply Nat.leb_le in B1. apply Nat.leb_le in B2.
      assert (X : nat_of_ascii (ascii_of_nat (code a + 32)) = code a + 32).
      { apply nat_ascii_embedding. lia. }
      rewrite <- E in X. cbn in X. lia.
    - subst a. discriminate Ha. }
  rewrite L. cbn [andb]. now rewrite IH.
Qed.

(** X25.  The page receives the diagram text as the renderer made it:
    the replacement that [getWebviewContent] applies to the text, which
    neutralises closing script tags, finds nothing to replace in a text
    returned by [generateMermaid]. *)
Theorem page_keeps_diagram_text (b : CodebaseGraphBuilder) (text : string) :
  generateMermaid b = Some text -> neutralizeScriptEnd text = text.
Proof.
  intros H. unfold neutralizeScriptEnd. apply neutralizeFrom_no_angle.
  revert H. unfold generateMermaid. apply generate_no_angle.
Qed.

Lemma page_keeps_diagram_text_witness :
  exists text,
    generateMermaid {| builderModules := sampleModules; builderRoot := "/ws" |}
    = Some text /\
    neutralizeScriptEnd text = text.
Proof.
  destruct (generateMermaid
              {| builderModules := sampleModules; builderRoot := "/ws" |})
    as [text|] eqn:E; [|vm_compute in E; discriminate E].
  exists text. split; [reflexivity|].
  exact (page_keeps_diagram_text _ text E).
Defined.
